(** * TalentScout hiring assistant: conversation manager, turn handler
      and session store

    A shallow embedding of [conversation_manager.py], of the turn handler
    and the completion call of [app.py] and of [data_handler.py], with the
    properties of the stage machine, the field extractor, the question
    parser, the prompt composer and the redaction stated and proved over
    it.

    A Python [str] is modelled as the list of the bytes of its UTF-8
    encoding; [len] counts its characters.  The character tests
    ([isdigit], [isalpha], [isspace], [\d], [\s], [\w]) and the case maps
    are the ASCII restrictions of the Python ones: a byte above 127 is
    neither a letter, a digit nor white space here.  They are the Python
    ones on texts of ASCII characters ([ascii_text]), and the properties
    that depend on how an utterance is split, matched or lower-cased are
    stated for such utterances.

    The session store of the host is an explicit [SessionState] passed
    through every operation.  The completion call is external: a turn
    takes its reply as an input.  The calls made to it and to
    [save_session] are recorded in a trace, and a turn whose call of
    [save_session] raises returns nothing.  The rendering code reads the
    state without changing it and is left out. *)

From Stdlib Require Import Ascii String List Bool Arith Lia Permutation.
Import ListNotations.

Set Implicit Arguments.

(** ** Characters and Python string methods *)

Definition str := list ascii.

Definition lit (s : string) : str := list_ascii_of_string s.
Arguments lit s%_string.

Definition code (c : ascii) : nat := nat_of_ascii c.

Definition in_range (lo hi : nat) (c : ascii) : bool :=
  (lo <=? code c) && (code c <=? hi).

Definition is_digit (c : ascii) : bool := in_range 48 57 c.
Definition is_upper (c : ascii) : bool := in_range 65 90 c.
Definition is_lower (c : ascii) : bool := in_range 97 122 c.
Definition is_alpha (c : ascii) : bool := is_upper c || is_lower c.
Definition is_alnum (c : ascii) : bool := is_alpha c || is_digit c.
(** [\w] *)
Definition is_word (c : ascii) : bool := is_alnum c || (code c =? 95).
(** [str.isspace] and [\s]: tab, line feed, vertical tab, form feed,
    carriage return, the four separators 28..31 and the blank. *)
Definition is_space (c : ascii) : bool := in_range 9 13 c || in_range 28 32 c.

Definition to_lower (c : ascii) : ascii :=
  if is_upper c then ascii_of_nat (code c + 32) else c.
Definition to_upper (c : ascii) : ascii :=
  if is_lower c then ascii_of_nat (code c - 32) else c.

Definition chr_eqb (a b : ascii) : bool := Ascii.eqb a b.

Fixpoint str_eqb (a b : str) : bool :=
  match a, b with
  | [], [] => true
  | x :: a', y :: b' => chr_eqb x y && str_eqb a' b'
  | _, _ => false
  end.

(** [s.lower()], [s.upper()] *)
Definition lower (s : str) : str := map to_lower s.
Definition upper (s : str) : str := map to_upper s.

(** [s.title()]: a letter is upper-cased when the character before it is
    not a letter and lower-cased otherwise. *)
Fixpoint title_from (prev_cased : bool) (s : str) : str :=
  match s with
  | [] => []
  | c :: t =>
      (if prev_cased then to_lower c else to_upper c) :: title_from (is_alpha c) t
  end.
Definition title (s : str) : str := title_from false s.

(** [s.lstrip()], [s.rstrip()], [s.strip()] *)
Fixpoint lstrip (s : str) : str :=
  match s with
  | c :: t => if is_space c then lstrip t else s
  | [] => []
  end.
Definition rstrip (s : str) : str := rev (lstrip (rev s)).
Definition strip (s : str) : str := rstrip (lstrip s).

(** [s.split()]: the maximal runs of characters that are not white space.
    [cur] holds the run being read, reversed. *)
Fixpoint split_ws_from (cur : str) (s : str) : list str :=
  match s with
  | [] => match cur with [] => [] | _ => [rev cur] end
  | c :: t =>
      if is_space c
      then match cur with
           | [] => split_ws_from [] t
           | _ => rev cur :: split_ws_from [] t
           end
      else split_ws_from (c :: cur) t
  end.
Definition split_ws (s : str) : list str := split_ws_from [] s.

(** [s.split(sep)] for a one-character separator: empty pieces are kept. *)
Fixpoint split_on_from (sep : ascii) (cur : str) (s : str) : list str :=
  match s with
  | [] => [rev cur]
  | c :: t =>
      if chr_eqb c sep then rev cur :: split_on_from sep [] t
      else split_on_from sep (c :: cur) t
  end.
Definition split_on (sep : ascii) (s : str) : list str := split_on_from sep [] s.

(** [s.replace(a, b)] for one-character [a] and [b] *)
Definition replace_chr (a b : ascii) (s : str) : str :=
  map (fun c => if chr_eqb c a then b else c) s.

Fixpoint starts_with (p s : str) : bool :=
  match p, s with
  | [], _ => true
  | x :: p', y :: s' => chr_eqb x y && starts_with p' s'
  | _ :: _, [] => false
  end.

(** [p in s] on strings: [p] occurs in [s] as a contiguous substring. *)
Fixpoint contains (p s : str) : bool :=
  starts_with p s || match s with [] => false | _ :: t => contains p t end.

(** [x in l] on a list of strings *)
Definition mem_str (x : str) (l : list str) : bool := existsb (str_eqb x) l.

(** [s.isalpha()] *)
Definition isalpha (s : str) : bool :=
  match s with [] => false | _ => forallb is_alpha s end.

(** [sum(c.isdigit() for c in s)] *)
Definition count_digits (s : str) : nat := length (filter is_digit s).

(** A byte of the form 10xxxxxx, which continues the UTF-8 encoding of a
    character above 127. *)
Definition is_continuation (c : ascii) : bool := in_range 128 191 c.

(** [len(s)]: the number of characters of the text, each of which has
    exactly one byte that is no continuation byte.  On ASCII text it is
    the number of bytes. *)
Definition len (s : str) : nat :=
  length (filter (fun c => negb (is_continuation c)) s).

(** ** Regular expressions, with the backtracking semantics of [re]

    Every quantifier in the patterns of the program applies to a single
    character or character set, so [Rep] repeats a character set.  [greedy]
    tells a greedy quantifier from a lazy one, [hi = None] an open upper
    bound. *)

Inductive regex : Type :=
| Eps
| Chr (p : ascii -> bool)
| Seq (a b : regex)
| Alt (a b : regex)
| Rep (greedy : bool) (lo : nat) (hi : option nat) (p : ascii -> bool)
| Group (n : nat) (a : regex)
| Look (a : regex)
| WordB
| Bol
| Eol.

(** The state of a match attempt: the character before the current
    position, the text from the current position on, and the groups
    captured so far (latest first). *)
Record mstate : Type := MState {
  m_prev : option ascii;
  m_rest : str;
  m_caps : list (nat * str)
}.

Definition step_char (c : ascii) (t : str) (st : mstate) : mstate :=
  MState (Some c) t (m_caps st).

(** The text read between two states of one attempt. *)
Definition consumed (st st' : mstate) : str :=
  firstn (length (m_rest st) - length (m_rest st')) (m_rest st).

Definition set_cap (n : nat) (st st' : mstate) : mstate :=
  MState (m_prev st') (m_rest st') ((n, consumed st st') :: m_caps st').

Definition word_before (st : mstate) : bool :=
  match m_prev st with Some c => is_word c | None => false end.
Definition word_after (st : mstate) : bool :=
  match m_rest st with c :: _ => is_word c | [] => false end.
(** [\b] *)
Definition at_word_boundary (st : mstate) : bool :=
  negb (Bool.eqb (word_before st) (word_after st)).
(** [^] without MULTILINE *)
Definition at_bol (st : mstate) : bool :=
  match m_prev st with None => true | Some _ => false end.
(** [$] without MULTILINE: the end of the text, or just before a line feed
    that ends the text. *)
Definition at_eol (st : mstate) : bool :=
  match m_rest st with
  | [] => true
  | [c] => code c =? 10
  | _ => false
  end.

Definition below (hi : option nat) : bool :=
  match hi with Some 0 => false | _ => true end.

(** [p{lo,hi}] (greedy) and [p{lo,hi}?] (lazy) followed by [k]. *)
Fixpoint rep (R : Type) (greedy : bool) (p : ascii -> bool) (lo : nat)
    (hi : option nat) (prev : option ascii) (rest : str)
    (caps : list (nat * str)) (k : mstate -> option R) {struct rest} : option R :=
  if greedy then
    match
      match rest with
      | c :: t =>
          if p c && below hi
          then rep greedy p (pred lo) (option_map pred hi) (Some c) t caps k
          else None
      | [] => None
      end
    with
    | Some r => Some r
    | None => if lo =? 0 then k (MState prev rest caps) else None
    end
  else
    match (if lo =? 0 then k (MState prev rest caps) else None) with
    | Some r => Some r
    | None =>
        match rest with
        | c :: t =>
            if p c && below hi
            then rep greedy p (pred lo) (option_map pred hi) (Some c) t caps k
            else None
        | [] => None
        end
    end.

(** [matchk r st k]: the first way, in the order a backtracking matcher
    tries them, of matching [r] from [st] so that [k] accepts what follows.
    A lookahead is tried on its own and consumes nothing. *)
Fixpoint matchk (R : Type) (r : regex) (st : mstate) (k : mstate -> option R)
    {struct r} : option R :=
  match r with
  | Eps => k st
  | Chr p =>
      match m_rest st with
      | c :: t => if p c then k (step_char c t st) else None
      | [] => None
      end
  | Seq a b => matchk a st (fun st1 => matchk b st1 k)
  | Alt a b =>
      match matchk a st k with
      | Some r => Some r
      | None => matchk b st k
      end
  | Rep g lo hi p => rep g p lo hi (m_prev st) (m_rest st) (m_caps st) k
  | Group n a => matchk a st (fun st1 => k (set_cap n st st1))
  | Look a =>
      match matchk a st (fun _ => Some tt) with
      | Some _ => k st
      | None => None
      end
  | WordB => if at_word_boundary st then k st else None
  | Bol => if at_bol st then k st else None
  | Eol => if at_eol st then k st else None
  end.

(** A successful match: group 0, the captured groups, and the state at its
    end. *)
Record re_result : Type := ReResult {
  group0 : str;
  captures : list (nat * str);
  end_state : mstate
}.

(** [m.group(n)] for [n >= 1] *)
Fixpoint group (n : nat) (caps : list (nat * str)) : option str :=
  match caps with
  | [] => None
  | (i, s) :: t => if i =? n then Some s else group n t
  end.

(** One attempt at one position. *)
Definition match_at (r : regex) (prev : option ascii) (rest : str) : option re_result :=
  let st := MState prev rest [] in
  match matchk r st (fun st' => Some st') with
  | Some st' => Some (ReResult (consumed st st') (m_caps st') st')
  | None => None
  end.

(** [re.search]: the attempt at the leftmost position that has one. *)
Fixpoint search_from (r : regex) (prev : option ascii) (rest : str) : option re_result :=
  match match_at r prev rest with
  | Some m => Some m
  | None =>
      match rest with
      | [] => None
      | c :: t => search_from r (Some c) t
      end
  end.

Definition re_search (r : regex) (s : str) : option re_result := search_from r None s.

(** [re.match]: the attempt at the start of the text only. *)
Definition re_match (r : regex) (s : str) : option re_result := match_at r None s.

(** [re.findall] for a pattern with one group that never matches the empty
    text: group 1 of the successive matches, each search resuming where the
    previous match ended.  [skip] counts the characters of the last match
    still to be passed over. *)
Fixpoint findall_from (r : regex) (prev : option ascii) (rest : str) (skip : nat)
    {struct rest} : list str :=
  match skip with
  | S n =>
      match rest with
      | c :: t => findall_from r (Some c) t n
      | [] => []
      end
  | 0 =>
      match match_at r prev rest with
      | Some m =>
          match group 1 (captures m) with Some g => g | None => [] end ::
          match rest with
          | c :: t => findall_from r (Some c) t (pred (length (group0 m)))
          | [] => []
          end
      | None =>
          match rest with
          | c :: t => findall_from r (Some c) t 0
          | [] => []
          end
      end
  end.

Definition re_findall (r : regex) (s : str) : list str := findall_from r None s 0.

(** [re.sub(r, "", s)] for a pattern that never matches the empty text. *)
Fixpoint sub_from (r : regex) (prev : option ascii) (rest : str) (skip : nat)
    {struct rest} : str :=
  match skip with
  | S n =>
      match rest with
      | c :: t => sub_from r (Some c) t n
      | [] => []
      end
  | 0 =>
      match match_at r prev rest with
      | Some m =>
          match rest with
          | c :: t =>
              match length (group0 m) with
              | 0 => c :: sub_from r (Some c) t 0
              | S n => sub_from r (Some c) t n
              end
          | [] => []
          end
      | None =>
          match rest with
          | c :: t => c :: sub_from r (Some c) t 0
          | [] => []
          end
      end
  end.

Definition re_sub_empty (r : regex) (s : str) : str := sub_from r None s 0.

(** *** Pattern combinators *)

Definition is_chr (a : ascii) (c : ascii) : bool := chr_eqb c a.
(** a letter of a pattern compiled with IGNORECASE *)
Definition is_chr_ci (a : ascii) (c : ascii) : bool := chr_eqb (to_lower c) (to_lower a).
Definition any_chr (_ : ascii) : bool := true.
(** [.] without DOTALL *)
Definition not_newline (c : ascii) : bool := negb (code c =? 10).

Definition plus (p : ascii -> bool) : regex := Rep true 1 None p.
Definition star (p : ascii -> bool) : regex := Rep true 0 None p.
Definition opt (p : ascii -> bool) : regex := Rep true 0 (Some 1) p.

(** a literal text, as [re.escape] leaves it *)
Fixpoint literal (s : str) : regex :=
  match s with
  | [] => Eps
  | c :: t => Seq (Chr (is_chr c)) (literal t)
  end.
Fixpoint literal_ci (s : str) : regex :=
  match s with
  | [] => Eps
  | c :: t => Seq (Chr (is_chr_ci c)) (literal_ci t)
  end.

(** ** conversation_manager.py *)

Definition NL : ascii := "010"%char.

Definition STAGES : list str :=
  [lit "greeting"; lit "gathering_info"; lit "tech_stack";
   lit "technical_questions"; lit "closing"].

Definition REQUIRED_FIELDS : list str :=
  [lit "full_name"; lit "email"; lit "phone";
   lit "years_experience"; lit "desired_position"; lit "location"].

(** [candidate_info]: a dict whose seven keys are fixed at construction;
    [None] is Python's [None]. *)
Record CandidateInfo : Type := MkInfo {
  full_name : option str;
  email : option str;
  phone : option str;
  years_experience : option str;
  desired_position : option str;
  location : option str;
  tech_stack : list str
}.

Record ConversationManager : Type := MkManager {
  stage : str;
  candidate_info : CandidateInfo;
  questions : list str;
  answered_count : nat;
  missing_fields_asked : list str
}.

(** [ConversationManager.__init__] *)
Definition init_manager : ConversationManager :=
  MkManager (lit "greeting")
            (MkInfo None None None None None None [])
            [] 0 [].

(** Truth value of an optional string: [None] and the empty string are
    false. *)
Definition truthy (v : option str) : bool :=
  match v with Some (_ :: _) => true | _ => false end.

(** [info.get(f)] for the scalar fields *)
Definition info_get (f : str) (info : CandidateInfo) : option str :=
  if str_eqb f (lit "full_name") then full_name info
  else if str_eqb f (lit "email") then email info
  else if str_eqb f (lit "phone") then phone info
  else if str_eqb f (lit "years_experience") then years_experience info
  else if str_eqb f (lit "desired_position") then desired_position info
  else if str_eqb f (lit "location") then location info
  else None.

Definition set_full_name (v : str) (i : CandidateInfo) : CandidateInfo :=
  MkInfo (Some v) (email i) (phone i) (years_experience i)
         (desired_position i) (location i) (tech_stack i).
Definition set_email (v : str) (i : CandidateInfo) : CandidateInfo :=
  MkInfo (full_name i) (Some v) (phone i) (years_experience i)
         (desired_position i) (location i) (tech_stack i).
Definition set_phone (v : str) (i : CandidateInfo) : CandidateInfo :=
  MkInfo (full_name i) (email i) (Some v) (years_experience i)
         (desired_position i) (location i) (tech_stack i).
Definition set_years_experience (v : str) (i : CandidateInfo) : CandidateInfo :=
  MkInfo (full_name i) (email i) (phone i) (Some v)
         (desired_position i) (location i) (tech_stack i).
Definition set_tech_stack (v : list str) (i : CandidateInfo) : CandidateInfo :=
  MkInfo (full_name i) (email i) (phone i) (years_experience i)
         (desired_position i) (location i) v.

Definition set_info (i : CandidateInfo) (m : ConversationManager) : ConversationManager :=
  MkManager (stage m) i (questions m) (answered_count m) (missing_fields_asked m).
Definition set_stage (s : str) (m : ConversationManager) : ConversationManager :=
  MkManager s (candidate_info m) (questions m) (answered_count m)
            (missing_fields_asked m).
Definition set_questions (q : list str) (m : ConversationManager) : ConversationManager :=
  MkManager (stage m) (candidate_info m) q (answered_count m)
            (missing_fields_asked m).
Definition set_answered_count (n : nat) (m : ConversationManager) : ConversationManager :=
  MkManager (stage m) (candidate_info m) (questions m) n (missing_fields_asked m).

(** *** The patterns of [extract_and_update_info] *)

Definition email_local (c : ascii) : bool :=
  is_alnum c || is_chr "." c || is_chr "_" c || is_chr "%" c || is_chr "+" c
  || is_chr "-" c.
Definition email_domain (c : ascii) : bool :=
  is_alnum c || is_chr "." c || is_chr "-" c.

(** "[a-zA-Z0-9._%+\-]+@[a-zA-Z0-9.\-]+\.[a-zA-Z]{2,}" *)
Definition EMAIL_RE : regex :=
  Seq (plus email_local)
      (Seq (Chr (is_chr "@"))
           (Seq (plus email_domain)
                (Seq (Chr (is_chr "."))
                     (Rep true 2 None is_alpha)))).

Definition phone_chr (c : ascii) : bool :=
  is_digit c || is_space c || is_chr "-" c || is_chr "(" c || is_chr ")" c
  || is_chr "." c.

(** "(\+?[\d\s\-().]{7,15})" *)
Definition PHONE_RE : regex :=
  Group 1 (Seq (opt (is_chr "+")) (Rep true 7 (Some 15) phone_chr)).

(** "(\d+)\s*(years?|yrs?)" with IGNORECASE *)
Definition YEARS_RE : regex :=
  Seq (Group 1 (plus is_digit))
      (Seq (star is_space)
           (Group 2 (Alt (Seq (literal_ci (lit "year")) (opt (is_chr_ci "s")))
                         (Seq (literal_ci (lit "yr")) (opt (is_chr_ci "s")))))).

(** "\b<tech>\b", the keyword escaped *)
Definition keyword_re (tech : str) : regex :=
  Seq WordB (Seq (literal tech) WordB).

(** The elements of the set literal [TECH_KEYWORDS], in the order they are
    written. *)
Definition TECH_KEYWORDS : list str :=
  [lit "python"; lit "javascript"; lit "typescript"; lit "java"; lit "c++";
   lit "c#"; lit "go"; lit "rust";
   lit "ruby"; lit "php"; lit "swift"; lit "kotlin"; lit "scala"; lit "r";
   lit "matlab";
   lit "react"; lit "angular"; lit "vue"; lit "next.js"; lit "nuxt";
   lit "svelte";
   lit "django"; lit "flask"; lit "fastapi"; lit "spring"; lit "express";
   lit "nest.js";
   lit "node.js"; lit "nodejs"; lit "deno";
   lit "postgresql"; lit "mysql"; lit "sqlite"; lit "mongodb"; lit "redis";
   lit "cassandra";
   lit "elasticsearch"; lit "firebase"; lit "supabase";
   lit "docker"; lit "kubernetes"; lit "terraform"; lit "ansible";
   lit "aws"; lit "gcp"; lit "azure"; lit "heroku"; lit "vercel";
   lit "git"; lit "github"; lit "gitlab"; lit "jira"; lit "linux";
   lit "machine learning"; lit "ml"; lit "deep learning"; lit "tensorflow";
   lit "pytorch";
   lit "pandas"; lit "numpy"; lit "scikit-learn"; lit "spark"; lit "hadoop";
   lit "graphql"; lit "rest"; lit "grpc"; lit "kafka"; lit "rabbitmq"].

(** [tech.title() if len(tech) > 3 else tech.upper()] *)
Definition display_name (tech : str) : str :=
  if 3 <? length tech then title tech else upper tech.

Definition is_some (A : Type) (o : option A) : bool :=
  match o with Some _ => true | None => false end.

Section Runtime.

(** [TECH_KEYWORDS] is a set of strings: the order in which the loop of
    [extract_and_update_info] visits it is the interpreter's, fixed for
    one process by its hash seed and not by the order of the literal.
    [tech_order] is that order. *)
Variable tech_order : list str.

(** [found]: the display names of the keywords that occur in the
    lower-cased message, in iteration order. *)
Definition found_techs (msg_lower : str) : list str :=
  map display_name
      (filter (fun tech => is_some (re_search (keyword_re tech) msg_lower))
              tech_order).

(** [extract_and_update_info] *)
Definition extract_and_update_info (user_message : str)
    (m : ConversationManager) : ConversationManager :=
  let msg := strip user_message in
  let i0 := candidate_info m in
  let i1 :=
    if negb (truthy (email i0)) then
      match re_search EMAIL_RE msg with
      | Some email_match => set_email (group0 email_match) i0
      | None => i0
      end
    else i0 in
  let i2 :=
    if negb (truthy (phone i1)) then
      match re_search PHONE_RE msg with
      | Some phone_match =>
          let candidate := strip (group0 phone_match) in
          if 7 <=? count_digits candidate then set_phone candidate i1 else i1
      | None => i1
      end
    else i1 in
  let i3 :=
    if negb (truthy (years_experience i2)) then
      match re_search YEARS_RE msg with
      | Some exp_match =>
          let g1 := match group 1 (captures exp_match) with
                    | Some g => g
                    | None => lit "None"
                    end in
          set_years_experience (g1 ++ lit " years") i2
      | None => i2
      end
    else i2 in
  let msg_lower := lower msg in
  let found := found_techs msg_lower in
  let i4 :=
    match found with
    | [] => i3
    | _ =>
        let existing := map lower (tech_stack i3) in
        set_tech_stack
          (tech_stack i3 ++
           filter (fun t => negb (mem_str (lower t) existing)) found) i3
    end in
  set_info i4 m.

End Runtime.

(** *** Stage transitions *)

(** [list.index]; [None] stands for [ValueError]. *)
Fixpoint index (x : str) (l : list str) : option nat :=
  match l with
  | [] => None
  | y :: t => if str_eqb y x then Some 0 else option_map S (index x t)
  end.

(** [_advance_stage]: the [ValueError] of either lookup is swallowed. *)
Definition _advance_stage (new_stage : str) (m : ConversationManager)
    : ConversationManager :=
  match index (stage m) STAGES with
  | Some current_idx =>
      match index new_stage STAGES with
      | Some new_idx => if current_idx <? new_idx then set_stage new_stage m else m
      | None => m
      end
  | None => m
  end.

(** "question\s*\d+" with IGNORECASE *)
Definition question_marker : regex :=
  Seq (literal_ci (lit "question")) (Seq (star is_space) (plus is_digit)).

Definition colon_or_dot (c : ascii) : bool := is_chr ":" c || is_chr "." c.

(** The pattern of the primary strategy, compiled with IGNORECASE and
    DOTALL: a non-capturing group made of the marker, an optional colon or
    dot ([[:\.]?]) and white space; then group 1, the lazy [.+?]; then the
    lookahead [(?=question\s*\d+|$)]. *)
Definition QUESTION_RE : regex :=
  Seq (Seq question_marker (Seq (opt colon_or_dot) (star is_space)))
      (Seq (Group 1 (Rep false 1 None any_chr))
           (Look (Alt question_marker Eol))).

Definition bullet (c : ascii) : bool := is_chr "*" c || is_chr "-" c.
Definition dot_or_paren (c : ascii) : bool := is_chr "." c || is_chr ")" c.

(** "^\s*[\*\-]?\s*\d+[\.\)]\s+" *)
Definition NUMBERING_RE : regex :=
  Seq Bol
      (Seq (star is_space)
           (Seq (opt bullet)
                (Seq (star is_space)
                     (Seq (plus is_digit)
                          (Seq (Chr dot_or_paren) (plus is_space)))))).

(** "^\s*[\*\-]?\s*\d+[\.\)]\s+.{10,}" *)
Definition NUMBERED_LINE_RE : regex :=
  Seq NUMBERING_RE (Rep true 10 None not_newline).

(** The fallback loop of [_parse_questions] over the lines of the text. *)
Fixpoint numbered_lines (lines : list str) : list str :=
  match lines with
  | [] => []
  | line :: rest =>
      if is_some (re_match NUMBERED_LINE_RE line) then
        let clean := strip (re_sub_empty NUMBERING_RE line) in
        match clean with
        | [] => numbered_lines rest
        | _ => clean :: numbered_lines rest
        end
      else numbered_lines rest
  end.

(** [_parse_questions] *)
Definition _parse_questions (text : str) : list str :=
  let matches := re_findall QUESTION_RE text in
  let questions :=
    map (fun q => replace_chr NL " " (strip q))
        (filter (fun q => 10 <? len (strip q)) matches) in
  let questions :=
    match questions with
    | [] => numbered_lines (split_on NL text)
    | _ => questions
    end in
  firstn 5 questions.

Definition greeting_keywords : list str :=
  [lit "hello"; lit "hi"; lit "hey"; lit "help"].

Definition transition_signals : list str :=
  [lit "technical question"; lit "few questions"; lit "based on your stack";
   lit "assess your"; lit "let's test"; lit "now ask"].

Definition nonempty (A : Type) (l : list A) : bool :=
  match l with [] => false | _ => true end.

(** [w[0].isupper() or w.isalpha()]; the words of [split()] are not empty. *)
Definition name_like (w : str) : bool :=
  match w with
  | c :: _ => is_upper c || isalpha w
  | [] => isalpha w
  end.

(** The stage block of [process_ai_response]. *)
Definition evaluate_stage (ai_response user_message : str)
    (m : ConversationManager) : ConversationManager :=
  let info := candidate_info m in
  let stage0 := stage m in
  if str_eqb stage0 (lit "greeting") then
    if (length (split_ws user_message) <=? 5)
       && negb (existsb (fun kw => contains kw (lower user_message))
                        greeting_keywords)
    then _advance_stage (lit "gathering_info") m
    else if truthy (full_name info)
    then _advance_stage (lit "gathering_info") m
    else m
  else if str_eqb stage0 (lit "gathering_info") then
    if forallb (fun f => truthy (info_get f info)) REQUIRED_FIELDS
    then _advance_stage (lit "tech_stack") m
    else m
  else if str_eqb stage0 (lit "tech_stack") then
    if nonempty (tech_stack info) && (1 <=? length (tech_stack info)) then
      if existsb (fun sig => contains sig (lower ai_response)) transition_signals
      then _advance_stage (lit "technical_questions") m
      else m
    else m
  else if str_eqb stage0 (lit "technical_questions") then
    let m1 :=
      if negb (nonempty (questions m))
      then set_questions (_parse_questions ai_response) m
      else m in
    let m2 :=
      if nonempty (questions m1) && (10 <? len user_message)
      then set_answered_count
             (Nat.min (answered_count m1 + 1) (length (questions m1))) m1
      else m1 in
    if (length (questions m2) <=? answered_count m2) && nonempty (questions m2)
    then _advance_stage (lit "closing") m2
    else m2
  else m.

(** [process_ai_response]: the stage block, then the name heuristic, which
    tests the stage the call started in. *)
Definition process_ai_response (ai_response user_message : str)
    (m : ConversationManager) : ConversationManager :=
  let stage0 := stage m in
  let m' := evaluate_stage ai_response user_message m in
  let info := candidate_info m' in
  if negb (truthy (full_name info))
     && (str_eqb stage0 (lit "greeting") || str_eqb stage0 (lit "gathering_info"))
  then
    let words := split_ws (strip user_message) in
    if (1 <=? length words) && (length words <=? 4) && forallb name_like words
    then set_info (set_full_name (title (strip user_message)) info) m'
    else m'
  else m'.

(** *** Greeting and farewell *)

(** [ConversationManager.EXIT_KEYWORDS] *)
Definition EXIT_KEYWORDS : list str :=
  [lit "exit"; lit "quit"; lit "bye"; lit "goodbye"; lit "end"; lit "stop";
   lit "done"].

(** The text of [get_farewell_message] around the first name. *)
Definition farewell_text (first : str) : str :=
  lit "🎉 **Thank you, " ++ first ++ lit "!**" ++ [NL; NL] ++
  lit "Your profile has been submitted to the TalentScout team. Here's what happens next:" ++ [NL; NL] ++
  lit "- 📧 You'll receive a confirmation email within **24 hours**" ++ [NL] ++
  lit "- 👥 A recruiter will review your profile within **3–5 business days**" ++ [NL] ++
  lit "- 📞 If shortlisted, we'll reach out to schedule a detailed interview" ++ [NL; NL] ++
  lit "We appreciate your time and wish you the best of luck! 🚀" ++ [NL; NL] ++
  lit "*This session has ended. You can start a new one using the sidebar.*".

(** [get_farewell_message]; [None] is the [IndexError] of [name.split()[0]]
    on a name made of white space only. *)
Definition get_farewell_message (m : ConversationManager) : option str :=
  let name :=
    if truthy (full_name (candidate_info m))
    then match full_name (candidate_info m) with Some n => n | None => [] end
    else lit "there" in
  if negb (str_eqb name (lit "there")) then
    match split_ws name with
    | first :: _ => Some (farewell_text first)
    | [] => None
    end
  else Some (farewell_text name).

(** ** data_handler.py *)

(** A message of the log: a dict with the keys role and content. *)
Record message : Type := Msg { role : str; content : str }.

(** [s.replace(old, new)] for a non-empty [old]: the occurrences of [old]
    are replaced from left to right, without overlap.  [skip] counts the
    characters of the occurrence just replaced that are still to be passed
    over. *)
Fixpoint replace_from (old new : str) (s : str) (skip : nat) {struct s} : str :=
  match s with
  | [] => []
  | c :: t =>
      match skip with
      | S n => replace_from old new t n
      | 0 =>
          if starts_with old s
          then new ++ replace_from old new t (pred (length old))
          else c :: replace_from old new t 0
      end
  end.

(** [s.replace(old, new)]; with an empty [old], [new] is put before every
    character and at the end. *)
Definition replace (old new : str) (s : str) : str :=
  match old with
  | [] => new ++ flat_map (fun c => c :: new) s
  | _ => replace_from old new s 0
  end.

Definition REDACTED : str := lit "[REDACTED]".

(** The list [sensitive] of [_sanitise_transcript]: the e-mail address and
    the phone number, each if it is set and not empty. *)
Definition sensitive_values (info : CandidateInfo) : list str :=
  flat_map (fun v => match v with
                     | Some (c :: s) => [c :: s]
                     | _ => []
                     end)
           [email info; phone info].

(** [_sanitise_transcript] *)
Definition _sanitise_transcript (msgs : list message) (info : CandidateInfo)
    : list message :=
  map (fun msg =>
         Msg (role msg)
             (fold_left (fun content s => replace s REDACTED content)
                        (sensitive_values info) (content msg)))
      msgs.

(** What [json.dump] is given for the two files of a session. *)
Inductive file_data : Type :=
| ProfileFile (session_id timestamp : str) (candidate : CandidateInfo)
| SessionLogFile (session_id timestamp candidate_id_hash : str)
                 (tech_stack : list str) (message_count : nat)
                 (transcript : list message).

Section Persistence.

(** [hashlib.sha256(x.encode()).hexdigest()] *)
Variable sha256_hex : str -> str.

(** [_generate_session_id]; [now] is the reading of the clock in ISO
    format. *)
Definition _generate_session_id (info : CandidateInfo) (now : str) : str :=
  let seed := (if truthy (email info)
               then match email info with Some e => e | None => [] end
               else []) ++ now in
  lit "ts_" ++ firstn 12 (sha256_hex seed).

(** [_hash]; [None] is the [AttributeError] of [value.encode()] on
    [None]. *)
Definition _hash (value : option str) : option str :=
  match value with
  | Some v => Some (sha256_hex v)
  | None => None
  end.

(** [save_session].  [now_id] and [now_ts] are the two readings of the
    clock.  The result is the list of the files written, in order, each
    with the value dumped into it, and the session id, or [None] when the
    call raises. *)
Definition save_session (info : CandidateInfo) (msgs : list message)
    (now_id now_ts : str) : list (str * file_data) * option str :=
  let session_id := _generate_session_id info now_id in
  let timestamp := now_ts in
  let profile_path :=
    lit "candidate_data/candidates/" ++ session_id ++ lit ".json" in
  let profile := ProfileFile session_id timestamp info in
  let session_path :=
    lit "candidate_data/sessions/" ++ session_id ++ lit "_session.json" in
  match _hash (email info) with
  | Some h =>
      let session_log :=
        SessionLogFile session_id timestamp h (tech_stack info) (length msgs)
                       (_sanitise_transcript msgs info) in
      ([(profile_path, profile); (session_path, session_log)], Some session_id)
  | None => ([(profile_path, profile)], None)
  end.

End Persistence.

(** Whether [save_session] returns.  The one step of it that raises is
    [_hash] on the e-mail field: the [get] with an empty default gives
    [None] for a profile whose e-mail is not set, since the key is always
    there, and [None] has no [encode].  The file system is taken to
    accept the two files. *)
Definition save_session_returns (info : CandidateInfo) : bool :=
  match email info with
  | Some _ => true
  | None => false
  end.

(** ** app.py: the turn handler *)

(** Calls to the two external collaborators: [save_session] with its two
    arguments, and [get_ai_response] with the manager the system prompt is
    composed from, the message log and the user message. *)
Inductive event : Type :=
| SaveSession (info : CandidateInfo) (msgs : list message)
| Completion (m : ConversationManager) (history : list message)
             (user_message : str).

(** The session store of the host, with the calls made so far to the
    collaborators, oldest first. *)
Record SessionState : Type := MkSession {
  messages : list message;
  manager : ConversationManager;
  conversation_ended : bool;
  trace : list event
}.

(** [init_session] on an empty store.  The first run of [main] then logs
    the greeting, before any message is submitted. *)
Definition init_session : SessionState := MkSession [] init_manager false [].

(** the [EXIT_KEYWORDS] of [handle_user_input] *)
Definition HANDLER_EXIT_KEYWORDS : list str :=
  [lit "exit"; lit "quit"; lit "bye"; lit "goodbye"; lit "end"; lit "stop"].

Section Turns.

Variable tech_order : list str.

(** [handle_user_input].  [reply] is what [get_ai_response] returns on
    this turn, whether the model's text or one of its error messages; it
    is read only if the call is made.  The result is [None] when the call
    raises: in [get_farewell_message], before the save, or in
    [save_session], which is then recorded as called. *)
Definition handle_user_input (user_input reply : str) (st : SessionState)
    : option str * SessionState :=
  if existsb (fun kw => mem_str kw (split_ws (lower user_input)))
             HANDLER_EXIT_KEYWORDS
  then
    let st1 := MkSession (messages st) (manager st) true (trace st) in
    match get_farewell_message (manager st1) with
    | Some farewell =>
        let st2 :=
          MkSession (messages st1) (manager st1) true
                    (trace st1 ++
                     [SaveSession (candidate_info (manager st1)) (messages st1)]) in
        if save_session_returns (candidate_info (manager st1))
        then (Some farewell, st2)
        else (None, st2)
    | None => (None, st1)
    end
  else
    let m1 := extract_and_update_info tech_order user_input (manager st) in
    let m2 := process_ai_response reply user_input m1 in
    (Some reply,
     MkSession (messages st) m2 (conversation_ended st)
               (trace st ++ [Completion m1 (messages st) user_input])).

(** One submitted message in [main]: nothing is read once the session has
    ended, and an empty input is no submission; otherwise the input is
    logged, handled, and the response logged.  When the handler raises,
    the run of [main] stops there: the response is not logged, and the
    store keeps what was written to it before. *)
Definition submit (user_input reply : str) (st : SessionState) : SessionState :=
  if conversation_ended st then st
  else
    match user_input with
    | [] => st
    | _ =>
        let st1 := MkSession (messages st ++ [Msg (lit "user") user_input])
                             (manager st) (conversation_ended st) (trace st) in
        match handle_user_input user_input reply st1 with
        | (Some response, st2) =>
            MkSession (messages st2 ++ [Msg (lit "assistant") response])
                      (manager st2) (conversation_ended st2) (trace st2)
        | (None, st2) => st2
        end
    end.

(** A sequence of turns, each a user input with the reply of the
    completion call for it. *)
Fixpoint run_turns (turns : list (str * str)) (st : SessionState) : SessionState :=
  match turns with
  | [] => st
  | (user_input, reply) :: rest => run_turns rest (submit user_input reply st)
  end.

End Turns.

(** [qa_progress]: the dict with keys total and answered, as a pair *)
Definition qa_progress (m : ConversationManager) : nat * nat :=
  (length (questions m), answered_count m).

(** ** conversation_manager.py: the system prompt *)

Definition DQ : ascii := "034"%char.

(** [sep.join(l)] *)
Fixpoint join (sep : str) (l : list str) : str :=
  match l with
  | [] => []
  | x :: t => match t with [] => x | _ :: _ => x ++ sep ++ join sep t end
  end.

(** [str(n)] of a non-negative integer: its decimal digits *)
Fixpoint digits (d : Decimal.uint) : str :=
  match d with
  | Decimal.Nil => []
  | Decimal.D0 d => "0"%char :: digits d
  | Decimal.D1 d => "1"%char :: digits d
  | Decimal.D2 d => "2"%char :: digits d
  | Decimal.D3 d => "3"%char :: digits d
  | Decimal.D4 d => "4"%char :: digits d
  | Decimal.D5 d => "5"%char :: digits d
  | Decimal.D6 d => "6"%char :: digits d
  | Decimal.D7 d => "7"%char :: digits d
  | Decimal.D8 d => "8"%char :: digits d
  | Decimal.D9 d => "9"%char :: digits d
  end.

Definition str_of_nat (n : nat) : str := digits (Nat.to_uint n).

(** What an f-string shows for a list of strings: the [repr] of each
    between brackets.  The strings shown here are field names, which hold
    no quote, backslash or control character, so the [repr] of each is the
    string between single quotes. *)
Definition repr_list (l : list str) : str :=
  lit "[" ++ join (lit ", ") (map (fun s => lit "'" ++ s ++ lit "'") l) ++ lit "]".

(** [v or default] for an optional string *)
Definition or_default (v : option str) (default : str) : str :=
  match v with
  | Some (c :: s) => c :: s
  | _ => default
  end.

(** [_base_instructions] *)
Definition _base_instructions : str :=
  lit "You are the TalentScout Hiring Assistant, an intelligent chatbot for a technology recruitment agency called TalentScout. Your ONLY purpose is to screen technology job candidates through a structured conversation." ++ [NL; NL] ++
  lit "CORE RULES — follow these absolutely:" ++ [NL] ++
  lit "1. NEVER go off-topic. If the user asks about anything unrelated to the hiring process,    politely redirect them back to the screening conversation." ++ [NL] ++
  lit "2. Be warm, professional, and encouraging — you represent TalentScout's brand." ++ [NL] ++
  lit "3. Ask ONE question at a time. Never overwhelm the candidate with multiple questions." ++ [NL] ++
  lit "4. If the user's response is unclear or off-topic, acknowledge it gently and ask again." ++ [NL] ++
  lit "5. Do NOT generate harmful, discriminatory, or biased content. Treat all candidates equally." ++ [NL] ++
  lit "6. Keep responses concise (3–6 sentences max) unless you are listing technical questions." ++ [NL] ++
  lit "7. Always maintain conversation context — reference what the candidate has already told you." ++ [NL] ++
  lit "8. If the candidate tries to skip a required field, politely explain why it's important    and ask again." ++ [NL; NL] ++
  lit "FALLBACK: If you genuinely cannot understand the user's input after two attempts, say: " ++ [DQ] ++ lit "I'm having trouble understanding. Could you rephrase that?" ++ [DQ] ++ lit " and move on.".

(** [field_prompts.get(next_field, ...)] of [_stage_instructions] *)
Definition field_prompts (next_field : str) : str :=
  if str_eqb next_field (lit "full_name") then lit "Ask for their full name."
  else if str_eqb next_field (lit "email") then lit "Ask for their email address."
  else if str_eqb next_field (lit "phone")
  then lit "Ask for their phone number (explain it's for scheduling interviews)."
  else if str_eqb next_field (lit "years_experience")
  then lit "Ask how many years of professional experience they have."
  else if str_eqb next_field (lit "desired_position")
  then lit "Ask what position(s) they are interested in."
  else if str_eqb next_field (lit "location")
  then lit "Ask for their current city/location."
  else lit "Ask for their " ++ next_field ++ lit ".".

(** [_stage_instructions].  [remaining] is a natural number here: where
    [answered] exceeds [q_count] it is 0 and the integer of the source is
    negative, and neither is positive. *)
Definition _stage_instructions (m : ConversationManager) : str :=
  let stage0 := stage m in
  let info := candidate_info m in
  if str_eqb stage0 (lit "greeting") then
    lit "CURRENT STAGE: Greeting" ++ [NL] ++
    lit "Your job: Welcome the candidate and start collecting their full name." ++ [NL] ++
    lit "If they have provided their name, acknowledge it warmly and ask for their email address next."
  else if str_eqb stage0 (lit "gathering_info") then
    let missing :=
      filter (fun f => negb (truthy (info_get f info))) REQUIRED_FIELDS in
    match missing with
    | [] =>
        lit "CURRENT STAGE: Gathering Info — COMPLETE" ++ [NL] ++
        lit "All basic info collected. Transition to tech stack: Tell the candidate you have all their basic details and ask them to list their tech stack (programming languages, frameworks, databases, and tools they are proficient in). Be specific about what you want."
    | next_field :: _ =>
        lit "CURRENT STAGE: Gathering Info" ++ [NL] ++
        lit "You are collecting candidate details. Missing fields: " ++
        repr_list missing ++
        lit "." ++ [NL] ++
        lit "Next action: " ++
        field_prompts next_field ++
        [NL] ++
        lit "Acknowledge any info they've already provided before asking the next question."
    end
  else if str_eqb stage0 (lit "tech_stack") then
    lit "CURRENT STAGE: Tech Stack Declaration" ++ [NL] ++
    lit "The candidate is telling you about their tech stack." ++ [NL] ++
    lit "Your job:" ++ [NL] ++
    lit "- Encourage them to be comprehensive: languages, frameworks, databases, DevOps tools, cloud platforms." ++ [NL] ++
    lit "- If they've provided a list, summarise what you heard and confirm it with them." ++ [NL] ++
    lit "- Once confirmed, transition to generating technical questions by saying you'll now ask   some technical questions tailored to their stack." ++ [NL] ++
    lit "- Do NOT generate the questions yet — just transition smoothly."
  else if str_eqb stage0 (lit "technical_questions") then
    let q_count := length (questions m) in
    let answered := answered_count m in
    let remaining := q_count - answered in
    if q_count =? 0 then
      let stack := join (lit ", ") (tech_stack info) in
      lit "CURRENT STAGE: Technical Questions — GENERATE NOW" ++ [NL] ++
      lit "The candidate's tech stack is: " ++
      stack ++
      [NL; NL] ++
      lit "Generate exactly 3–5 technical interview questions covering their declared stack. Rules:" ++ [NL] ++
      lit "- Questions must be relevant to the specific technologies listed." ++ [NL] ++
      lit "- Mix difficulty: 1–2 foundational, 1–2 intermediate, 1 advanced." ++ [NL] ++
      lit "- Questions should be open-ended (not yes/no)." ++ [NL] ++
      lit "- Number them clearly: " ++ [DQ] ++ lit "Question 1:" ++ [DQ] ++ lit ", " ++ [DQ] ++ lit "Question 2:" ++ [DQ] ++ lit ", etc." ++ [NL] ++
      lit "- After listing ALL questions, invite them to answer question 1." ++ [NL; NL] ++
      lit "Example format:" ++ [NL] ++
      [DQ] ++ lit "Here are your technical questions:" ++ [NL; NL] ++
      lit "**Question 1:** [question about tech 1]" ++ [NL] ++
      lit "**Question 2:** [question about tech 2]" ++ [NL] ++
      lit "..." ++ [NL; NL] ++
      lit "Please go ahead and answer **Question 1** when you're ready!" ++ [DQ] ++ [NL]
    else if 0 <? remaining then
      lit "CURRENT STAGE: Technical Questions — IN PROGRESS" ++ [NL] ++
      lit "Questions generated: " ++
      str_of_nat q_count ++
      lit ". Answered so far: " ++
      str_of_nat answered ++
      lit ". Remaining: " ++
      str_of_nat remaining ++
      lit "." ++ [NL; NL] ++
      lit "Your job:" ++ [NL] ++
      lit "- Acknowledge the candidate's answer to the current question briefly and constructively." ++ [NL] ++
      lit "- Prompt them to move to the next question (Question " ++
      str_of_nat (answered + 1) ++
      lit ")." ++ [NL] ++
      lit "- If their answer is very short or vague, you may ask a brief follow-up ONCE before moving on." ++ [NL] ++
      lit "- Do NOT re-ask questions they have already answered."
    else
      lit "CURRENT STAGE: Technical Questions — COMPLETE" ++ [NL] ++
      lit "All technical questions have been answered. Transition to closing:" ++ [NL] ++
      lit "- Thank the candidate for their time and thoughtful answers." ++ [NL] ++
      lit "- Summarise what was collected (their name, position of interest, and stack)." ++ [NL] ++
      lit "- Explain the next steps (recruiter review, timeline)." ++ [NL] ++
      lit "- Ask if they have any questions for TalentScout before you wrap up."
  else if str_eqb stage0 (lit "closing") then
    lit "CURRENT STAGE: Closing" ++ [NL] ++
    lit "Wrap up the conversation gracefully. Answer any final questions the candidate has about the process. Remind them they can type 'exit' or 'bye' to end the session. Keep it warm and encouraging."
  else lit "Help the candidate with their hiring screening process.".

(** [_context_block] *)
Definition _context_block (m : ConversationManager) : str :=
  let info := candidate_info m in
  let tech :=
    match join (lit ", ") (tech_stack info) with
    | [] => lit "not yet provided"
    | c :: s => c :: s
    end in
  lit "CANDIDATE CONTEXT (already collected — do NOT re-ask for this):" ++ [NL] ++
  lit "- Full Name: " ++
  or_default (full_name info) (lit "not yet provided") ++
  [NL] ++
  lit "- Email: " ++
  or_default (email info) (lit "not yet provided") ++
  [NL] ++
  lit "- Phone: " ++
  or_default (phone info) (lit "not yet provided") ++
  [NL] ++
  lit "- Years of Experience: " ++
  or_default (years_experience info) (lit "not yet provided") ++
  [NL] ++
  lit "- Desired Position: " ++
  or_default (desired_position info) (lit "not yet provided") ++
  [NL] ++
  lit "- Location: " ++
  or_default (location info) (lit "not yet provided") ++
  [NL] ++
  lit "- Tech Stack: " ++
  tech ++
  [NL] ++
  lit "- Technical Questions Generated: " ++
  str_of_nat (length (questions m)) ++
  [NL] ++
  lit "- Questions Answered: " ++
  str_of_nat (answered_count m).

(** [get_system_prompt] *)
Definition get_system_prompt (m : ConversationManager) : str :=
  _base_instructions ++ [NL; NL] ++ _stage_instructions m ++ [NL; NL] ++
  _context_block m.

(** [get_greeting] *)
Definition get_greeting : str :=
  lit "👋 **Welcome to TalentScout's Hiring Assistant!**" ++ [NL; NL] ++
  lit "I'm here to help with your initial screening for technology positions. Our conversation will take about 5–10 minutes and covers:" ++ [NL; NL] ++
  lit "1. 📋 **Basic information** — name, contact details, experience" ++ [NL] ++
  lit "2. 🛠️ **Tech stack** — languages, frameworks, tools you work with" ++ [NL] ++
  lit "3. 💡 **Technical questions** — a few questions tailored to your stack" ++ [NL; NL] ++
  lit "Everything you share is handled securely and only used for recruitment purposes." ++ [NL; NL] ++
  lit "**To begin, could you please tell me your full name?** 😊" ++ [NL; NL] ++
  lit "*(Type `exit` or `bye` at any time to end the session.)*".

(** ** app.py: the completion call *)

(** What the call of the client gives: the text of the first choice, or
    the message of the exception raised anywhere in the [try] block. *)
Inductive completion_result : Type :=
| Content (text : str)
| Raised (error_msg : str).

(** The list [messages] that [get_ai_response] builds for the client. *)
Definition completion_messages (m : ConversationManager)
    (history : list message) (user_message : str) : list message :=
  [Msg (lit "system") (get_system_prompt m)] ++
  map (fun x => Msg (role x) (content x)) history ++
  [Msg (lit "user") user_message].

(** The [except] branch of [get_ai_response] *)
Definition error_reply (error_msg : str) : str :=
  if contains (lit "invalid_api_key") (lower error_msg)
     || contains (lit "401") error_msg
  then lit "❌ Invalid API key. Please restart and enter a valid Groq API key."
  else if contains (lit "rate_limit") (lower error_msg)
          || contains (lit "429") error_msg
  then lit "⚠️ Rate limit hit. Please wait a moment and try again."
  else lit "⚠️ Error: " ++ error_msg.

(** [get_ai_response], with the key of the environment, the client's
    [create] as a function of the message list, and the manager and the
    message log of the session. *)
Definition get_ai_response (api_key : str)
    (create : list message -> completion_result)
    (m : ConversationManager) (history : list message)
    (user_message : str) : str :=
  match api_key with
  | [] => lit "❌ API key not found. Please restart and enter your Groq API key."
  | _ :: _ =>
      match create (completion_messages m history user_message) with
      | Content text => text
      | Raised error_msg => error_reply error_msg
      end
  end.

(** * Vocabulary of the properties *)

(** ** Stage order *)

(** The ordinal of a stage name in [STAGES]. *)
Definition ordinal (s : str) : option nat := index s STAGES.

(** [b] is [a] or a strictly later stage. *)
Definition stage_le (a b : str) : Prop :=
  a = b \/ exists i j, ordinal a = Some i /\ ordinal b = Some j /\ i < j.

(** [b] is a stage strictly later than the stage [a]. *)
Definition stage_lt (a b : str) : Prop :=
  exists i j, ordinal a = Some i /\ ordinal b = Some j /\ i < j.

(** The manager is in one of the first two stages and has neither a
    desired position nor a location. *)
Definition early_stage (m : ConversationManager) : Prop :=
  (stage m = lit "greeting" \/ stage m = lit "gathering_info")
  /\ desired_position (candidate_info m) = None
  /\ location (candidate_info m) = None.

(** ** Substrings and white space *)

(** [p] occurs in [s] as a contiguous substring. *)
Definition occurs (p s : str) : Prop := exists pre post, s = pre ++ p ++ post.

(** Every character of [s] is white space. *)
Definition spaces (s : str) : Prop := forall c, In c s -> is_space c = true.

(** [s] is a text of ASCII characters.  On such a text the character
    tests and the case maps above are those of Python, and a byte is a
    character. *)
Definition ascii_text (s : str) : Prop :=
  forallb (fun c => code c <? 128) s = true.

(** [l] has no repeated element. *)
Fixpoint distinct (l : list str) : bool :=
  match l with
  | [] => true
  | x :: t => negb (mem_str x t) && distinct t
  end.

(** ** The tech stack *)

(** The entries a call appends to a tech stack [ts]. *)
Definition new_techs (order : list str) (u : str) (ts : list str) : list str :=
  filter (fun t => negb (mem_str (lower t) (map lower ts)))
         (found_techs order (lower (strip u))).

(** ** What the matcher computes *)

(** [matches r st st']: the pattern [r] can read the text from state [st]
    to state [st']. *)
Inductive matches : regex -> mstate -> mstate -> Prop :=
| M_Eps st : matches Eps st st
| M_Chr p c t st :
    m_rest st = c :: t -> p c = true -> matches (Chr p) st (step_char c t st)
| M_Seq a b st st1 st2 :
    matches a st st1 -> matches b st1 st2 -> matches (Seq a b) st st2
| M_AltL a b st st' : matches a st st' -> matches (Alt a b) st st'
| M_AltR a b st st' : matches b st st' -> matches (Alt a b) st st'
| M_RepStop g hi p st : matches (Rep g 0 hi p) st st
| M_RepMore g lo hi p c t st st' :
    m_rest st = c :: t -> p c = true -> below hi = true ->
    matches (Rep g (pred lo) (option_map pred hi) p) (step_char c t st) st' ->
    matches (Rep g lo hi p) st st'
| M_Group n a st st' : matches a st st' -> matches (Group n a) st (set_cap n st st')
| M_Look a st st' : matches a st st' -> matches (Look a) st st
| M_WordB st : at_word_boundary st = true -> matches WordB st st
| M_Bol st : at_bol st = true -> matches Bol st st
| M_Eol st : at_eol st = true -> matches Eol st st.

(** The character before the position reached by reading [w]. *)
Definition prev_after (prev : option ascii) (w : str) : option ascii :=
  fold_left (fun _ c => Some c) w prev.

(** [n] does not exceed the upper bound [hi] of a quantifier. *)
Definition within (hi : option nat) (n : nat) : Prop :=
  match hi with Some h => n <= h | None => True end.

(** ** Text around a match

    A pattern made of characters, sequences, alternatives, repetitions and
    groups only reads the same way whatever follows a character that none
    of its sets accepts, and whatever precedes the position it starts
    at. *)

(** Patterns without lookahead and anchors. *)
Fixpoint plain (r : regex) : bool :=
  match r with
  | Eps | Chr _ | Rep _ _ _ _ => true
  | Seq a b | Alt a b => plain a && plain b
  | Group _ a => plain a
  | Look _ | WordB | Bol | Eol => false
  end.

(** No character set of [r] accepts [c]. *)
Fixpoint rejects (c : ascii) (r : regex) : bool :=
  match r with
  | Chr p | Rep _ _ _ p => negb (p c)
  | Seq a b | Alt a b => rejects c a && rejects c b
  | Group _ a | Look a => rejects c a
  | Eps | WordB | Bol | Eol => true
  end.

(** No character set of [r] accepts the first character of [ws]. *)
Definition blocked (ws : str) (r : regex) : Prop :=
  match ws with [] => True | c :: _ => rejects c r = true end.

(** [st1] is [st2] with [ws] appended to the text. *)
Definition ext (ws : str) (st1 st2 : mstate) : Prop :=
  m_rest st1 = m_rest st2 ++ ws /\ m_caps st1 = m_caps st2.

(** Two optional results are both absent or related by [Q]. *)
Inductive orel (A B : Type) (Q : A -> B -> Prop) : option A -> option B -> Prop :=
| orel_none : orel Q None None
| orel_some a b : Q a b -> orel Q (Some a) (Some b).

(** Two matches have read the same text and captured the same groups. *)
Definition same_text (x y : re_result) : Prop :=
  group0 x = group0 y /\ captures x = captures y.

(** ** Shapes of e-mail addresses and phone numbers *)

(** The shape local@domain.tld: a local part of letters, digits and
    [._%+-], a domain of letters, digits, dots and hyphens, and after its
    last dot at least two letters. *)
Definition email_address (e : str) : Prop :=
  exists l d t,
    e = l ++ "@"%char :: d ++ "."%char :: t
    /\ 1 <= length l /\ forallb email_local l = true
    /\ 1 <= length d /\ forallb email_domain d = true
    /\ 2 <= length t /\ forallb is_alpha t = true.

(** What the phone pattern reads: an optional plus, then 7 to 15
    characters among digits, white space, hyphen, parentheses and dot. *)
Definition phone_run (s : str) : Prop :=
  exists sign w,
    s = sign ++ w
    /\ (sign = [] \/ sign = ["+"%char])
    /\ forallb phone_chr w = true
    /\ 7 <= length w <= 15.


(** ** Sample sessions and utterances *)


(** A manager that has reached the technical questions and has no
    question yet. *)
Definition awaiting_questions : ConversationManager :=
  MkManager (lit "technical_questions")
            (MkInfo (Some (lit "Jane Doe")) (Some (lit "jane@example.com"))
                    (Some (lit "5551234567")) (Some (lit "5 years"))
                    (Some (lit "Backend Engineer")) (Some (lit "Berlin"))
                    [lit "Python"])
            [] 0 [].

Definition awaiting_session : SessionState :=
  MkSession [] awaiting_questions false [].

(** A session in which the candidate gave the name Jane Doe and then
    typed bye. *)
Definition jane_session : SessionState :=
  MkSession [Msg (lit "assistant") (lit "Welcome!");
             Msg (lit "user") (lit "Jane Doe");
             Msg (lit "assistant") (lit "Thanks, Jane. What is your email?");
             Msg (lit "user") (lit "bye")]
            (MkManager (lit "gathering_info")
                       (MkInfo (Some (lit "Jane Doe")) None None None None None [])
                       [] 0 [])
            false [].

Definition two_questions : str :=
  lit "Question 1: What is a closure? Question 2: Explain REST.".

Definition one_question : str :=
  lit "Question 1: What is a closure in JavaScript?".

Definition experience_utterance : str :=
  lit "I have 5 years of experience with Python and Docker".

Definition polyglot : str := lit "I use Python, python and PYTHON with Docker.".


Definition contact_utterance : str :=
  lit "  mail me at jane.doe@example.co.uk, not at old@example.com  ".

(** ** Tactics *)

(** Case analysis on every boolean test of the goal. *)
Ltac split_ifs :=
  repeat match goal with
         | |- context [if ?b then _ else _] =>
             match type of b with bool => destruct b end
         end.

(** ** Further vocabulary *)

(** Every required field of the profile is populated. *)
Definition all_collected (i : CandidateInfo) : Prop :=
  truthy (full_name i) = true /\ truthy (email i) = true
  /\ truthy (phone i) = true /\ truthy (years_experience i) = true
  /\ truthy (desired_position i) = true /\ truthy (location i) = true.

(** [a] is a prefix of [b]. *)
Definition prefix_of (A : Type) (a b : list A) : Prop := exists t, b = a ++ t.

(** A field that is populated in [i] has the same value in [j]. *)
Definition kept (f : CandidateInfo -> option str) (i j : CandidateInfo) : Prop :=
  truthy (f i) = true -> f j = f i.

(** Evaluates the stage comparisons between literal names. *)
Ltac stage_tests :=
  repeat match goal with
         | |- context [str_eqb (lit ?a) (lit ?b)] =>
             let v := eval vm_compute in (str_eqb (lit a) (lit b)) in
             change (str_eqb (lit a) (lit b)) with v
         end.

(** A manager waiting in stage gathering_info for the last fields. *)
Definition gathering_manager : ConversationManager :=
  MkManager (lit "gathering_info")
            (MkInfo (Some (lit "Jane Doe")) (Some (lit "jane@example.com"))
                    (Some (lit "5551234567")) (Some (lit "5 years"))
                    (Some (lit "Backend Engineer")) (Some (lit "Berlin"))
                    [])
            [] 0 [].

(** A manager in stage tech_stack with one declared technology. *)
Definition stack_manager : ConversationManager :=
  MkManager (lit "tech_stack")
            (MkInfo (Some (lit "Jane Doe")) (Some (lit "jane@example.com"))
                    (Some (lit "5551234567")) (Some (lit "5 years"))
                    (Some (lit "Backend Engineer")) (Some (lit "Berlin"))
                    [lit "Python"])
            [] 0 [].

(** A manager half way through two questions. *)
Definition answering_manager : ConversationManager :=
  MkManager (lit "technical_questions")
            (candidate_info stack_manager)
            [lit "What is a closure?"; lit "Explain REST."] 1 [].

(** A manager in the last stage. *)
Definition closing_manager : ConversationManager :=
  MkManager (lit "closing")
            (MkInfo (Some (lit "Jane Doe")) None None None None None [])
            [lit "What is a closure?"] 1 [].

(** The name the farewell is built from has a word in it. *)
Definition name_usable (m : ConversationManager) : Prop :=
  match full_name (candidate_info m) with
  | Some n => n = [] \/ split_ws n <> []
  | None => True
  end.

Definition is_save (e : event) : bool :=
  match e with SaveSession _ _ => true | Completion _ _ _ => false end.

Definition is_completion (e : event) : bool := negb (is_save e).

(** The exit test of [handle_user_input]. *)
Definition exit_requested (u : str) : bool :=
  existsb (fun kw => mem_str kw (split_ws (lower u))) HANDLER_EXIT_KEYWORDS.

(** Patterns without capturing groups. *)
Fixpoint no_groups (r : regex) : bool :=
  match r with
  | Eps | Chr _ | Rep _ _ _ _ | WordB | Bol | Eol => true
  | Seq a b | Alt a b => no_groups a && no_groups b
  | Group _ _ => false
  | Look a => no_groups a
  end.

(** What the years pattern reads: digits, optional white space, and one of
    year, years, yr, yrs in any letter case. *)
Definition years_mention (s : str) : Prop :=
  exists d ws unit,
    s = d ++ ws ++ unit
    /\ 1 <= length d /\ forallb is_digit d = true
    /\ forallb is_space ws = true
    /\ In (lower unit) [lit "year"; lit "years"; lit "yr"; lit "yrs"].

(** Between the texts [before] and [after] exactly one side is a word
    character ([\b]). *)
Definition word_edge (before after : str) : Prop :=
  at_word_boundary (MState (prev_after None before) after []) = true.

(** [k] occurs in [s] with a word boundary on each side. *)
Definition whole_word (k s : str) : Prop :=
  exists pre post,
    s = pre ++ k ++ post
    /\ word_edge pre (k ++ post) /\ word_edge (pre ++ k) post.

(** [s] neither starts nor ends with white space. *)
Definition trimmed (s : str) : Prop :=
  (forall c t, s = c :: t -> is_space c = false)
  /\ (forall c t, s = t ++ [c] -> is_space c = false).

(** [s] has no digit. *)
Definition digit_free (s : str) : Prop := forall c, In c s -> is_digit c = false.

(** A value the sanitiser can remove for good: not empty, without square
    brackets, and not a part of the word REDACTED. *)
Definition redactable (w : str) : Prop :=
  w <> [] /\ ~ In "["%char w /\ ~ In "]"%char w /\ ~ occurs w (lit "REDACTED").

(** Where [old] does not start in [s], [w] does not start either. *)
Definition shadowed (old w s : str) : Prop :=
  forall pre t, s = pre ++ t -> starts_with old t = false -> starts_with w t = false.

(** What the program stores as a phone number: characters of the phone
    pattern, at least seven digits among them. *)
Definition phone_like (p : str) : Prop :=
  (forall c, In c p -> phone_chr c = true \/ c = "+"%char)
  /\ 7 <= count_digits p.

(** The contact fields hold what the extractor can have put there. *)
Definition contact_well_formed (i : CandidateInfo) : Prop :=
  (forall e, email i = Some e -> email_address e)
  /\ (forall p, phone i = Some p -> phone_like p).

(** A message log and a profile with contact data in them. *)
Definition contact_log : list message :=
  [Msg (lit "user") (lit "I am Jane, jane@example.com, phone 555-123-4567.");
   Msg (lit "assistant") (lit "Thanks Jane, I noted jane@example.com.")].

Definition contact_info : CandidateInfo :=
  MkInfo (Some (lit "Jane")) (Some (lit "jane@example.com"))
         (Some (lit "555-123-4567")) None None None [].

(** ** The system prompt and the completion call *)

(** The first line of a text. *)
Fixpoint first_line (s : str) : str :=
  match s with
  | [] => []
  | c :: t => if chr_eqb c NL then [] else c :: first_line t
  end.

(** The headline of the stage directive of a manager. *)
Definition headline (m : ConversationManager) : str :=
  first_line (_stage_instructions m).

(** The first required field, in the order of [REQUIRED_FIELDS], that is
    not populated. *)
Definition first_missing (i : CandidateInfo) : option str :=
  find (fun f => negb (truthy (info_get f i))) REQUIRED_FIELDS.

(** The directive has the line that tells the model to ask for field [f]. *)
Definition asks_for (f : str) (directive : str) : bool :=
  contains ([NL] ++ lit "Next action: " ++ field_prompts f ++ [NL]) directive.

(** In stage technical_questions there is a question still to answer, or
    no question yet. *)
Definition pending (m : ConversationManager) : Prop :=
  stage m = lit "closing"
  \/ questions m = []
  \/ answered_count m < length (questions m).

(** One submitted message with the completion call made by
    [get_ai_response] on the manager and the log as they are when
    [handle_user_input] calls it. *)
Definition live_turn (order : list str) (api_key : str)
    (create : list message -> completion_result)
    (user_input : str) (st : SessionState) : SessionState :=
  submit order user_input
         (get_ai_response api_key create
            (extract_and_update_info order user_input (manager st))
            (messages st ++ [Msg (lit "user") user_input])
            user_input)
         st.

(** A client that answers with the number of messages it was sent. *)
Definition counting_client (msgs : list message) : completion_result :=
  Content (str_of_nat (length msgs)).

(** The session after the first run of [main]: the greeting is logged. *)
Definition greeted_session : SessionState :=
  MkSession [Msg (lit "assistant") get_greeting] init_manager false [].

(** A manager in stage technical_questions before the questions exist. *)
Definition generating_manager : ConversationManager :=
  MkManager (lit "technical_questions") (candidate_info stack_manager) [] 0 [].

(** * Properties *)
(** ** Strings *)

Lemma chr_eqb_eq (a b : ascii) : chr_eqb a b = true <-> a = b.
Proof. unfold chr_eqb. apply Ascii.eqb_eq. Qed.

Lemma len_le_length (s : str) : len s <= length s.
Proof. unfold len. apply filter_length_le. Qed.

Lemma len_ascii (s : str) : ascii_text s -> len s = length s.
Proof.
  unfold ascii_text, len. induction s as [|c s IH]; [reflexivity|].
  cbn [forallb filter]. intro H. apply andb_true_iff in H. destruct H as [Hc Hs].
  apply Nat.ltb_lt in Hc.
  assert (E : is_continuation c = false).
  { unfold is_continuation, in_range. apply andb_false_iff. left.
    apply Nat.leb_gt. exact Hc. }
  rewrite E. cbn [negb length]. now rewrite IH.
Qed.

Lemma str_eqb_eq (a b : str) : str_eqb a b = true <-> a = b.
Proof.
  revert b. induction a as [|x a IH]; intros [|y b]; simpl; split; intro H;
    try reflexivity; try discriminate.
  - apply andb_true_iff in H. destruct H as [H1 H2].
    apply chr_eqb_eq in H1. apply IH in H2. congruence.
  - injection H as -> ->. apply andb_true_iff. split.
    + now apply chr_eqb_eq.
    + now apply IH.
Qed.

Lemma str_eqb_refl (a : str) : str_eqb a a = true.
Proof. now apply str_eqb_eq. Qed.

Lemma str_eqb_neq (a b : str) : str_eqb a b = false <-> a <> b.
Proof.
  split.
  - intros H E. apply str_eqb_eq in E. congruence.
  - intro H. destruct (str_eqb a b) eqn:E; [|reflexivity].
    apply str_eqb_eq in E. contradiction.
Qed.

(** ** The stage order *)

Lemma stage_le_refl (a : str) : stage_le a a.
Proof. now left. Qed.

Lemma stage_le_trans (a b c : str) : stage_le a b -> stage_le b c -> stage_le a c.
Proof.
  intros [->|(i & j & Hi & Hj & Hij)] [->|(j' & k & Hj' & Hk & Hjk)].
  - now left.
  - right. now exists j', k.
  - right. now exists i, j.
  - right. rewrite Hj in Hj'. injection Hj' as <-. exists i, k.
    repeat split; auto. lia.
Qed.

Lemma advance_stage_cases (new_stage : str) (m : ConversationManager) :
  (stage_lt (stage m) new_stage /\ _advance_stage new_stage m = set_stage new_stage m)
  \/ (~ stage_lt (stage m) new_stage /\ _advance_stage new_stage m = m).
Proof.
  unfold _advance_stage, stage_lt, ordinal.
  destruct (index (stage m) STAGES) as [i|] eqn:Hi.
  - destruct (index new_stage STAGES) as [j|] eqn:Hj.
    + destruct (i <? j) eqn:Hij.
      * left. apply Nat.ltb_lt in Hij. split; [|reflexivity]. now exists i, j.
      * right. apply Nat.ltb_ge in Hij. split; [|reflexivity].
        intros (i' & j' & Ei & Ej & Hlt). injection Ei as <-. injection Ej as <-. lia.
    + right. split; [|reflexivity]. intros (i' & j' & _ & Ej & _). discriminate.
  - right. split; [|reflexivity]. intros (i' & j' & Ei & _). discriminate.
Qed.

Lemma advance_stage_le (new_stage : str) (m : ConversationManager) :
  stage_le (stage m) (stage (_advance_stage new_stage m)).
Proof.
  destruct (advance_stage_cases new_stage m) as [[H ->]|[_ ->]].
  - now right.
  - now left.
Qed.

Lemma advance_stage_info (new_stage : str) (m : ConversationManager) :
  candidate_info (_advance_stage new_stage m) = candidate_info m
  /\ questions (_advance_stage new_stage m) = questions m
  /\ answered_count (_advance_stage new_stage m) = answered_count m.
Proof.
  destruct (advance_stage_cases new_stage m) as [[_ ->]|[_ ->]]; auto.
Qed.

Lemma evaluate_stage_le (ai u : str) (m : ConversationManager) :
  stage_le (stage m) (stage (evaluate_stage ai u m)).
Proof.
  unfold evaluate_stage.
  repeat match goal with
         | |- context [if ?b then _ else _] => destruct b
         end;
    try apply stage_le_refl;
    try (apply (advance_stage_le _ m));
    match goal with
    | |- stage_le _ (stage (_advance_stage ?n ?x)) =>
        apply (stage_le_trans (b := stage x)); [apply stage_le_refl | apply advance_stage_le]
    end.
Qed.

Lemma process_ai_response_stage (ai u : str) (m : ConversationManager) :
  stage (process_ai_response ai u m) = stage (evaluate_stage ai u m).
Proof.
  unfold process_ai_response.
  repeat match goal with
         | |- context [if ?b then _ else _] => destruct b
         end; reflexivity.
Qed.

Lemma extract_stage (order : list str) (u : str) (m : ConversationManager) :
  stage (extract_and_update_info order u m) = stage m.
Proof. reflexivity. Qed.

Lemma handle_user_input_stage_le (order : list str) (u r : str) (st : SessionState) :
  stage_le (stage (manager st))
           (stage (manager (snd (handle_user_input order u r st)))).
Proof.
  unfold handle_user_input.
  destruct (existsb _ HANDLER_EXIT_KEYWORDS).
  - simpl. destruct (get_farewell_message (manager st));
      [destruct (save_session_returns _)|]; apply stage_le_refl.
  - cbn [snd manager]. rewrite process_ai_response_stage.
    apply (stage_le_trans (b := stage (extract_and_update_info order u (manager st)))).
    + rewrite extract_stage. apply stage_le_refl.
    + apply evaluate_stage_le.
Qed.

Lemma submit_stage_le (order : list str) (u r : str) (st : SessionState) :
  stage_le (stage (manager st)) (stage (manager (submit order u r st))).
Proof.
  unfold submit. destruct (conversation_ended st); [apply stage_le_refl|].
  destruct u as [|c u]; [apply stage_le_refl|].
  match goal with
  | |- context [handle_user_input order ?i r ?s] =>
      pose proof (handle_user_input_stage_le order i r s) as H;
      destruct (handle_user_input order i r s) as [[resp|] st2]
  end; exact H.
Qed.

(** C1: every call of the stage-advance operation moves to a strictly later
    stage of [STAGES] or leaves the manager as it is (a target that is not
    strictly later, or is no stage at all, is a no-op and never an error),
    and over every sequence of turns the stage never moves to an earlier
    ordinal; from the initial session the stage always is one of
    [STAGES]. *)
Theorem C1_stage_ordinal_never_decreases :
  (forall new_stage m,
      (stage_lt (stage m) new_stage
       /\ _advance_stage new_stage m = set_stage new_stage m)
      \/ (~ stage_lt (stage m) new_stage /\ _advance_stage new_stage m = m))
  /\ (forall ai u m, stage_le (stage m) (stage (process_ai_response ai u m)))
  /\ (forall order turns st,
         stage_le (stage (manager st))
                  (stage (manager (run_turns order turns st))))
  /\ (forall order turns,
         exists i,
           ordinal (stage (manager (run_turns order turns init_session)))
           = Some i).
Proof.
  assert (Hrun : forall order turns st,
             stage_le (stage (manager st))
                      (stage (manager (run_turns order turns st)))).
  { intros order turns. induction turns as [|[u r] turns IH]; intro st.
    - apply stage_le_refl.
    - simpl. eapply stage_le_trans; [apply submit_stage_le | apply IH]. }
  split; [exact advance_stage_cases|]. split; [|split; [exact Hrun|]].
  - intros ai u m. rewrite process_ai_response_stage. apply evaluate_stage_le.
  - intros order turns.
    destruct (Hrun order turns init_session) as [<-|(i & j & _ & Hj & _)].
    + now exists 0.
    + now exists j.
Qed.

(** ** Substrings *)

Lemma starts_with_spec (p s : str) :
  starts_with p s = true <-> exists post, s = p ++ post.
Proof.
  revert s. induction p as [|x p IH]; intros s; simpl.
  - split; [intros _; now exists s | reflexivity].
  - destruct s as [|y s].
    + split; [discriminate | intros [post H]; discriminate].
    + rewrite andb_true_iff, chr_eqb_eq, IH. split.
      * intros [-> [post ->]]. now exists post.
      * intros [post H]. injection H as -> ->. split; [reflexivity | now exists post].
Qed.

Lemma contains_spec (p s : str) : contains p s = true <-> occurs p s.
Proof.
  unfold occurs. induction s as [|y s IH].
  - simpl. rewrite orb_false_r, starts_with_spec. split.
    + intros [post H]. now exists [], post.
    + intros ([|a pre] & post & H); [now exists post | discriminate].
  - cbn [contains]. rewrite orb_true_iff, starts_with_spec, IH. split.
    + intros [[post H] | (pre & post & H)].
      * now exists [], post.
      * exists (y :: pre), post. now rewrite H.
    + intros ([|a pre] & post & H).
      * left. now exists post.
      * right. injection H as -> ->. now exists pre, post.
Qed.

(** ** The greeting stage *)

Lemma advance_from_greeting (m : ConversationManager) :
  stage m = lit "greeting" ->
  stage (_advance_stage (lit "gathering_info") m) = lit "gathering_info".
Proof. intro H. unfold _advance_stage. rewrite H. reflexivity. Qed.





(** ** How far the stage gets

    No operation of the program sets the desired position or the location,
    so the test of stage gathering_info never passes: from the initial
    session every sequence of turns stays in greeting or
    gathering_info. *)

Lemma extract_keeps_position (order : list str) (u : str) (m : ConversationManager) :
  desired_position (candidate_info (extract_and_update_info order u m))
  = desired_position (candidate_info m)
  /\ location (candidate_info (extract_and_update_info order u m))
     = location (candidate_info m).
Proof.
  unfold extract_and_update_info. cbn zeta.
  repeat match goal with
         | |- context [if ?b then _ else _] =>
             match type of b with bool => destruct b end
         | |- context [match ?x with Some _ => _ | None => _ end] => destruct x
         | |- context [match ?x with [] => _ | _ :: _ => _ end] => destruct x
         end; split; reflexivity.
Qed.

Lemma evaluate_stage_early (ai u : str) (m : ConversationManager) :
  early_stage m -> early_stage (evaluate_stage ai u m).
Proof.
  intros ([Hs|Hs] & Hd & Hl); unfold evaluate_stage; rewrite Hs.
  - change (str_eqb (lit "greeting") (lit "greeting")) with true. cbv iota.
    assert (Ha : early_stage (_advance_stage (lit "gathering_info") m)).
    { destruct (advance_stage_info (lit "gathering_info") m) as (Hi & _).
      split; [right; now apply advance_from_greeting | now rewrite Hi]. }
    split_ifs; auto. split; auto.
  - change (str_eqb (lit "gathering_info") (lit "greeting")) with false.
    change (str_eqb (lit "gathering_info") (lit "gathering_info")) with true.
    cbv iota.
    assert (Hf : forallb (fun f => truthy (info_get f (candidate_info m)))
                         REQUIRED_FIELDS = false).
    { apply not_true_is_false. intro Hall. rewrite forallb_forall in Hall.
      specialize (Hall (lit "desired_position")).
      change (info_get (lit "desired_position") (candidate_info m))
        with (desired_position (candidate_info m)) in Hall.
      rewrite Hd in Hall. simpl in Hall.
      assert (false = true); [|discriminate].
      apply Hall. simpl. tauto. }
    rewrite Hf. split; auto.
Qed.

Lemma process_ai_response_early (ai u : str) (m : ConversationManager) :
  early_stage m -> early_stage (process_ai_response ai u m).
Proof.
  intro H. apply (evaluate_stage_early ai u) in H.
  unfold process_ai_response. split_ifs; exact H.
Qed.

Lemma submit_early (order : list str) (u r : str) (st : SessionState) :
  early_stage (manager st) -> early_stage (manager (submit order u r st)).
Proof.
  intro H. unfold submit. destruct (conversation_ended st); [exact H|].
  destruct u as [|c u]; [exact H|].
  unfold handle_user_input. destruct (existsb _ HANDLER_EXIT_KEYWORDS).
  - cbn [manager]. destruct (get_farewell_message (manager st));
      [destruct (save_session_returns _)|]; exact H.
  - cbn [manager]. apply process_ai_response_early.
    destruct H as (Hs & Hd & Hl).
    destruct (extract_keeps_position order (c :: u) (manager st)) as (Ed & El).
    split; [exact Hs | now rewrite Ed, El].
Qed.

(** From the initial session, the stage after any sequence of turns is
    greeting or gathering_info. *)
Lemma stage_stays_early (order : list str) (turns : list (str * str)) :
  let m := manager (run_turns order turns init_session) in
  stage m = lit "greeting" \/ stage m = lit "gathering_info".
Proof.
  cbn zeta.
  assert (H : forall st, early_stage (manager st) ->
                         early_stage (manager (run_turns order turns st))).
  { induction turns as [|[u r] turns IH]; intros st Hst; [exact Hst|].
    simpl. apply IH. now apply submit_early. }
  apply H. repeat split; now left.
Qed.

(** ** Technical questions *)

(** C8: the question parser turns the two-marker sample text into its two
    questions, in order; they are the two captures of the primary pattern,
    trimmed. *)
Theorem C8_parse_two_questions :
  re_findall QUESTION_RE two_questions
  = [lit "What is a closure? "; lit "Explain REST."]
  /\ _parse_questions
       (lit "Question 1: What is a closure? Question 2: Explain REST.")
     = [lit "What is a closure?"; lit "Explain REST."].
Proof.
  split.
  - vm_compute. reflexivity.
  - unfold _parse_questions. vm_compute. reflexivity.
Qed.

Lemma nonempty_true (A : Type) (l : list A) : nonempty l = true <-> l <> [].
Proof. destruct l; simpl; split; congruence. Qed.

(** C10: on the turn whose response is first parsed into a non-empty
    question list, an utterance of more than ten characters is counted at
    once: the answered count is 1 after that turn. *)
Theorem C10_first_turn_counts_an_answer (ai u : str) (m : ConversationManager) :
  stage m = lit "technical_questions" ->
  questions m = [] ->
  answered_count m <= length (questions m) ->
  _parse_questions ai <> [] ->
  10 < len u ->
  questions (process_ai_response ai u m) = _parse_questions ai
  /\ answered_count (process_ai_response ai u m) = 1.
Proof.
  intros Hs Hq Ha Hp Hu.
  rewrite Hq in Ha. simpl in Ha. assert (Ha0 : answered_count m = 0) by lia.
  assert (E : process_ai_response ai u m = evaluate_stage ai u m).
  { unfold process_ai_response. rewrite Hs.
    change (str_eqb (lit "technical_questions") (lit "greeting")) with false.
    change (str_eqb (lit "technical_questions") (lit "gathering_info")) with false.
    cbn [orb]. rewrite andb_false_r. reflexivity. }
  rewrite E. unfold evaluate_stage. rewrite Hs.
  change (str_eqb (lit "technical_questions") (lit "greeting")) with false.
  change (str_eqb (lit "technical_questions") (lit "gathering_info")) with false.
  change (str_eqb (lit "technical_questions") (lit "tech_stack")) with false.
  change (str_eqb (lit "technical_questions") (lit "technical_questions")) with true.
  cbv iota. rewrite Hq. cbn [nonempty negb].
  cbn [questions set_questions].
  apply nonempty_true in Hp. rewrite Hp. apply Nat.ltb_lt in Hu. rewrite Hu.
  cbn [andb]. cbn [questions answered_count set_questions set_answered_count].
  rewrite Ha0. cbn [Nat.add].
  assert (Hlen : 1 <= length (_parse_questions ai)).
  { destruct (_parse_questions ai); [discriminate | simpl; lia]. }
  rewrite (Nat.min_l _ _ Hlen).
  rewrite Hp, andb_true_r.
  destruct (length (_parse_questions ai) <=? 1);
    [pose proof (advance_stage_info (lit "closing")
       (set_answered_count 1 (set_questions (_parse_questions ai) m))) as (_ & Q & A);
     rewrite Q, A |]; split; reflexivity.
Qed.

Lemma C10_first_turn_counts_an_answer_witness :
  answered_count
    (process_ai_response two_questions (lit "Yes, I am ready to start.")
                         awaiting_questions) = 1.
Proof.
  apply (C10_first_turn_counts_an_answer
           two_questions (lit "Yes, I am ready to start.") awaiting_questions).
  - reflexivity.
  - reflexivity.
  - simpl. lia.
  - vm_compute. discriminate.
  - vm_compute. lia.
Defined.

Lemma process_ai_response_questions (ai u : str) (m : ConversationManager) :
  questions (process_ai_response ai u m) = questions (evaluate_stage ai u m).
Proof.
  unfold process_ai_response.
  split_ifs; reflexivity.
Qed.

Lemma evaluate_stage_questions (ai u : str) (m : ConversationManager) :
  questions (evaluate_stage ai u m) =
  match questions m with
  | [] => if str_eqb (stage m) (lit "technical_questions")
          then _parse_questions ai else []
  | _ => questions m
  end.
Proof.
  unfold evaluate_stage.
  destruct (str_eqb (stage m) (lit "greeting")) eqn:E1.
  { apply str_eqb_eq in E1. rewrite E1.
    change (str_eqb (lit "greeting") (lit "technical_questions")) with false.
    cbv iota.
    split_ifs;
      try rewrite (proj1 (proj2 (advance_stage_info _ _)));
      destruct (questions m); reflexivity. }
  destruct (str_eqb (stage m) (lit "gathering_info")) eqn:E2.
  { apply str_eqb_eq in E2. rewrite E2.
    change (str_eqb (lit "gathering_info") (lit "technical_questions")) with false.
    cbv iota.
    split_ifs;
      try rewrite (proj1 (proj2 (advance_stage_info _ _)));
      destruct (questions m); reflexivity. }
  destruct (str_eqb (stage m) (lit "tech_stack")) eqn:E3.
  { apply str_eqb_eq in E3. rewrite E3.
    change (str_eqb (lit "tech_stack") (lit "technical_questions")) with false.
    cbv iota.
    split_ifs;
      try rewrite (proj1 (proj2 (advance_stage_info _ _)));
      destruct (questions m); reflexivity. }
  destruct (str_eqb (stage m) (lit "technical_questions")) eqn:E4.
  - destruct (questions m) as [|q qs] eqn:Hq; cbn [nonempty negb];
      split_ifs;
      try rewrite (proj1 (proj2 (advance_stage_info _ _)));
      cbn [questions set_questions set_answered_count]; auto.
  - destruct (questions m); reflexivity.
Qed.

Lemma handle_user_input_questions (order : list str) (u r : str) (st : SessionState) :
  questions (manager st) <> [] ->
  questions (manager (snd (handle_user_input order u r st))) = questions (manager st).
Proof.
  intro H. unfold handle_user_input.
  destruct (existsb _ HANDLER_EXIT_KEYWORDS).
  - simpl. destruct (get_farewell_message (manager st));
      [destruct (save_session_returns _)|]; reflexivity.
  - cbn [snd manager]. rewrite process_ai_response_questions, evaluate_stage_questions.
    change (questions (extract_and_update_info order u (manager st)))
      with (questions (manager st)).
    destruct (questions (manager st)); [contradiction | reflexivity].
Qed.

Lemma submit_questions (order : list str) (u r : str) (st : SessionState) :
  questions (manager st) <> [] ->
  questions (manager (submit order u r st)) = questions (manager st).
Proof.
  intro H. unfold submit. destruct (conversation_ended st); [reflexivity|].
  destruct u as [|c u]; [reflexivity|].
  match goal with
  | |- context [handle_user_input order ?i r ?s] =>
      pose proof (handle_user_input_questions order i r s H) as Hq;
      destruct (handle_user_input order i r s) as [[resp|] st2]
  end; exact Hq.
Qed.

(** C6, as the code has it: while the question list is empty, each turn
    processed in stage technical_questions sets it to what the parser finds
    in that turn's response, which may again be empty (in any other stage
    it stays empty); once the list is not empty, no sequence of turns
    changes it. *)
Theorem C6_questions_fixed_once_nonempty :
  (forall ai u m,
      questions m = [] ->
      questions (process_ai_response ai u m)
      = if str_eqb (stage m) (lit "technical_questions")
        then _parse_questions ai else [])
  /\ (forall order turns st,
         questions (manager st) <> [] ->
         questions (manager (run_turns order turns st)) = questions (manager st)).
Proof.
  split.
  - intros ai u m H.
    rewrite process_ai_response_questions, evaluate_stage_questions, H.
    reflexivity.
  - intros order turns. induction turns as [|[u r] turns IH]; intros st H.
    + reflexivity.
    + simpl. rewrite IH; rewrite (submit_questions order u r st H); auto.
Qed.

Lemma C6_questions_fixed_once_nonempty_witness :
  questions
    (manager
       (run_turns TECH_KEYWORDS
          [(lit "My second answer is rather long.", two_questions)]
          (submit TECH_KEYWORDS (lit "ok") one_question awaiting_session)))
  = [lit "What is a closure in JavaScript?"].
Proof.
  rewrite (proj2 C6_questions_fixed_once_nonempty TECH_KEYWORDS
             [(lit "My second answer is rather long.", two_questions)]
             (submit TECH_KEYWORDS (lit "ok") one_question awaiting_session)).
  - vm_compute. reflexivity.
  - vm_compute. discriminate.
Defined.

(** C6 as stated fails: the first response processed in stage
    technical_questions has no question in it, the list stays empty and the
    stage stays put, and the list is then filled from the second response,
    so it is not the list parsed from the first one. *)
Lemma C6_first_response_counterexample :
  let s1 := submit TECH_KEYWORDS (lit "ok") (lit "Sure, let me think.")
                   awaiting_session in
  let s2 := submit TECH_KEYWORDS (lit "ok") one_question s1 in
  stage (manager awaiting_session) = lit "technical_questions"
  /\ questions (manager awaiting_session) = []
  /\ _parse_questions (lit "Sure, let me think.") = []
  /\ stage (manager s1) = lit "technical_questions"
  /\ questions (manager s1) = []
  /\ questions (manager s2) = [lit "What is a closure in JavaScript?"]
  /\ questions (manager s2) <> _parse_questions (lit "Sure, let me think.").
Proof. vm_compute. repeat split; discriminate. Qed.

(** ** The exit turn *)

(** C7: handling "bye" while the full name is "Jane Doe" sets the ended
    flag, calls the save operation exactly once, with the profile and the
    message history of the session, and makes no completion call; the
    manager and the history are left as they were.  With an e-mail address
    in the profile the turn returns the farewell for "Jane".  With none,
    [save_session] raises after it was called, and the turn returns
    nothing. *)
Theorem C7_bye_saves_once_and_skips_model (order : list str) (reply : str)
    (st : SessionState) :
  full_name (candidate_info (manager st)) = Some (lit "Jane Doe") ->
  snd (handle_user_input order (lit "bye") reply st)
  = MkSession (messages st) (manager st) true
              (trace st ++
               [SaveSession (candidate_info (manager st)) (messages st)])
  /\ (forall e, email (candidate_info (manager st)) = Some e ->
        fst (handle_user_input order (lit "bye") reply st)
        = Some (farewell_text (lit "Jane")))
  /\ (email (candidate_info (manager st)) = None ->
      fst (handle_user_input order (lit "bye") reply st) = None)
  /\ occurs (lit "Jane") (farewell_text (lit "Jane")).
Proof.
  intro H.
  assert (E : handle_user_input order (lit "bye") reply st
              = let st2 :=
                  MkSession (messages st) (manager st) true
                            (trace st ++
                             [SaveSession (candidate_info (manager st))
                                          (messages st)]) in
                if save_session_returns (candidate_info (manager st))
                then (Some (farewell_text (lit "Jane")), st2)
                else (None, st2)).
  { unfold handle_user_input.
    change (existsb (fun kw => mem_str kw (split_ws (lower (lit "bye"))))
                    HANDLER_EXIT_KEYWORDS) with true.
    cbv iota. cbn [manager messages trace].
    unfold get_farewell_message. rewrite H. reflexivity. }
  rewrite E. cbv zeta. unfold save_session_returns.
  repeat split.
  - destruct (email (candidate_info (manager st))); reflexivity.
  - intros e ->. reflexivity.
  - intros ->. reflexivity.
  - apply contains_spec. vm_compute. reflexivity.
Qed.

Lemma C7_bye_saves_once_and_skips_model_witness :
  fst (handle_user_input TECH_KEYWORDS (lit "bye") (lit "unused") jane_session)
  = None.
Proof.
  apply (proj1 (proj2 (proj2 (C7_bye_saves_once_and_skips_model
                  TECH_KEYWORDS (lit "unused") jane_session eq_refl)))).
  reflexivity.
Defined.

(** ** The tech stack *)

Lemma mem_str_In (x : str) (l : list str) : mem_str x l = true <-> In x l.
Proof.
  unfold mem_str. rewrite existsb_exists. split.
  - intros (y & Hin & E). apply str_eqb_eq in E. now subst.
  - intro H. exists x. split; [exact H | apply str_eqb_refl].
Qed.

Lemma filter_permutation (A : Type) (f : A -> bool) (l l' : list A) :
  Permutation l l' -> Permutation (filter f l) (filter f l').
Proof.
  induction 1 as [| x l l' _ IH | x y l | l l' l'' _ IH1 _ IH2]; simpl.
  - constructor.
  - destruct (f x); [now constructor | exact IH].
  - destruct (f x), (f y); try apply Permutation_refl. constructor.
  - eapply Permutation_trans; eassumption.
Qed.

Lemma NoDup_map_filter (A B : Type) (h : A -> B) (g : A -> bool) (l : list A) :
  NoDup (map h l) -> NoDup (map h (filter g l)).
Proof.
  induction l as [|a l IH]; simpl; intro H; [constructor|].
  inversion H as [|? ? Hn Hd]; subst.
  destruct (g a); [|now apply IH]. simpl. constructor; [|now apply IH].
  intro Hin. apply Hn. apply in_map_iff in Hin. destruct Hin as (b & E & Hb).
  apply filter_In in Hb. apply in_map_iff. exists b. tauto.
Qed.

(** What [extract_and_update_info] does to the tech stack. *)
Lemma extract_tech_stack (order : list str) (u : str) (m : ConversationManager) :
  tech_stack (candidate_info (extract_and_update_info order u m))
  = tech_stack (candidate_info m) ++ new_techs order u (tech_stack (candidate_info m)).
Proof.
  unfold extract_and_update_info, new_techs. cbn zeta.
  set (F := found_techs order (lower (strip u))).
  match goal with
  | |- tech_stack (candidate_info (set_info (match F with [] => ?i | _ => _ end) m)) = _ =>
      assert (Hts : tech_stack i = tech_stack (candidate_info m))
  end.
  { repeat match goal with
           | |- context [if ?b then _ else _] =>
               match type of b with bool => destruct b end
           | |- context [match ?x with Some _ => _ | None => _ end] => destruct x
           end; reflexivity. }
  destruct F as [|t F].
  - cbn [set_info candidate_info]. rewrite Hts. simpl. now rewrite app_nil_r.
  - cbn [set_info candidate_info set_tech_stack tech_stack]. now rewrite Hts.
Qed.

(** What [extract_and_update_info] does to the years of experience. *)
Lemma extract_years_experience (order : list str) (u : str) (m : ConversationManager) :
  years_experience (candidate_info (extract_and_update_info order u m))
  = years_experience (candidate_info (extract_and_update_info [] u m)).
Proof.
  unfold extract_and_update_info. cbn zeta.
  repeat match goal with
         | |- context [if ?b then _ else _] =>
             match type of b with bool => destruct b end
         | |- context [match ?x with Some _ => _ | None => _ end] => destruct x
         | |- context [match ?x with [] => _ | _ :: _ => _ end] => destruct x
         end; reflexivity.
Qed.

Lemma found_in_experience_utterance (order : list str) :
  Permutation order TECH_KEYWORDS ->
  Permutation (found_techs order (lower (strip experience_utterance)))
              [lit "Python"; lit "Docker"].
Proof.
  intro H. unfold found_techs.
  change [lit "Python"; lit "Docker"]
    with (map display_name [lit "python"; lit "docker"]).
  apply Permutation_map.
  replace [lit "python"; lit "docker"]
    with (filter (fun tech => is_some (re_search (keyword_re tech)
                                         (lower (strip experience_utterance))))
                 TECH_KEYWORDS)
    by (vm_compute; reflexivity).
  now apply filter_permutation.
Qed.

(** C3, as the code has it: from an empty profile the sample utterance
    sets the years of experience to "5 years" and appends exactly the two
    entries "Python" and "Docker"; their order is the one in which the
    keyword set is iterated, so either may come first. *)
Theorem C3_experience_utterance (order : list str) (m : ConversationManager) :
  Permutation order TECH_KEYWORDS ->
  candidate_info m = MkInfo None None None None None None [] ->
  let info := candidate_info (extract_and_update_info order experience_utterance m) in
  years_experience info = Some (lit "5 years")
  /\ (tech_stack info = [lit "Python"; lit "Docker"]
      \/ tech_stack info = [lit "Docker"; lit "Python"]).
Proof.
  intros Hp Hm. cbn zeta. split.
  - rewrite extract_years_experience. unfold extract_and_update_info.
    rewrite Hm. vm_compute. reflexivity.
  - rewrite extract_tech_stack, Hm. cbn [tech_stack app]. unfold new_techs.
    cbn [map]. 
    assert (E : forall l, filter (fun t => negb (mem_str (lower t) [])) l = l).
    { induction l as [|x l IH]; [reflexivity|]. cbn [filter].
      change (mem_str (lower x) []) with false. cbn [negb]. now rewrite IH. }
    rewrite E.
    apply Permutation_length_2_inv, Permutation_sym.
    now apply found_in_experience_utterance.
Qed.

Lemma C3_experience_utterance_witness :
  years_experience
    (candidate_info
       (extract_and_update_info TECH_KEYWORDS experience_utterance init_manager))
  = Some (lit "5 years").
Proof.
  apply (C3_experience_utterance (order := TECH_KEYWORDS) init_manager).
  - apply Permutation_refl.
  - reflexivity.
Defined.

(** C3 as stated fails: under an iteration order of the keyword set that
    visits "docker" before "python", the tech stack gains "Docker" before
    "Python". *)
Lemma C3_mention_order_counterexample :
  Permutation (rev TECH_KEYWORDS) TECH_KEYWORDS
  /\ tech_stack
       (candidate_info
          (extract_and_update_info (rev TECH_KEYWORDS) experience_utterance
                                   init_manager))
     = [lit "Docker"; lit "Python"]
  /\ tech_stack
       (candidate_info
          (extract_and_update_info (rev TECH_KEYWORDS) experience_utterance
                                   init_manager))
     <> [lit "Python"; lit "Docker"].
Proof.
  split; [apply Permutation_sym, Permutation_rev|].
  vm_compute. split; [reflexivity | discriminate].
Qed.

Lemma distinct_NoDup (l : list str) : distinct l = true -> NoDup l.
Proof.
  induction l as [|x l IH]; simpl; intro H; [constructor|].
  apply andb_true_iff in H. destruct H as [H1 H2]. constructor.
  - intro Hin. apply mem_str_In in Hin. rewrite Hin in H1. discriminate.
  - now apply IH.
Qed.

Lemma TECH_KEYWORDS_NoDup : NoDup TECH_KEYWORDS.
Proof. apply distinct_NoDup. vm_compute. reflexivity. Qed.

Lemma lower_display_name (tech : str) :
  In tech TECH_KEYWORDS -> lower (display_name tech) = tech.
Proof.
  intro H.
  assert (A : forallb (fun k => str_eqb (lower (display_name k)) k) TECH_KEYWORDS = true)
    by (vm_compute; reflexivity).
  rewrite forallb_forall in A. apply str_eqb_eq. now apply A.
Qed.

Lemma found_techs_lower_NoDup (order : list str) (msg_lower : str) :
  Permutation order TECH_KEYWORDS ->
  NoDup (map lower (found_techs order msg_lower)).
Proof.
  intro Hp. unfold found_techs. rewrite map_map.
  apply NoDup_map_filter.
  assert (E : map (fun x => lower (display_name x)) order = map (fun x => x) order).
  { apply map_ext_in. intros k Hk. apply lower_display_name.
    eapply Permutation_in; eassumption. }
  rewrite E, map_id.
  eapply Permutation_NoDup; [apply Permutation_sym; eassumption|].
  apply TECH_KEYWORDS_NoDup.
Qed.

(** Every found entry is, lower-cased, in the stack once its new entries
    are appended. *)
Lemma new_techs_cover (order : list str) (u : str) (ts : list str) :
  new_techs order u (ts ++ new_techs order u ts) = [].
Proof.
  unfold new_techs at 1.
  set (F := found_techs order (lower (strip u))).
  assert (H : forall t, In t F ->
                negb (mem_str (lower t) (map lower (ts ++ new_techs order u ts)))
                = false).
  { intros t Ht. apply negb_false_iff, mem_str_In.
    rewrite map_app, in_app_iff.
    destruct (mem_str (lower t) (map lower ts)) eqn:E.
    - left. now apply mem_str_In.
    - right. apply in_map. unfold new_techs. apply filter_In. split; [exact Ht|].
      now rewrite E. }
  induction F as [|t F IH]; [reflexivity|].
  simpl. rewrite (H t (or_introl eq_refl)). apply IH.
  intros t' Ht'. apply H. now right.
Qed.

(** C4: calling the extractor a second time with the same utterance leaves
    the tech stack as the first call left it, and a call never appends an
    entry whose lower-cased form is already in the stack, the entries
    appended before it in the same call included. *)
Theorem C4_tech_stack_idempotent (order : list str) (u : str)
    (m : ConversationManager) :
  Permutation order TECH_KEYWORDS ->
  let m1 := extract_and_update_info order u m in
  tech_stack (candidate_info (extract_and_update_info order u m1))
  = tech_stack (candidate_info m1)
  /\ exists added,
       tech_stack (candidate_info m1) = tech_stack (candidate_info m) ++ added
       /\ forall a1 t a2,
            added = a1 ++ t :: a2 ->
            ~ In (lower t) (map lower (tech_stack (candidate_info m) ++ a1)).
Proof.
  intros Hp m1. subst m1. split.
  - rewrite (extract_tech_stack order u (extract_and_update_info order u m)).
    rewrite (extract_tech_stack order u m).
    rewrite new_techs_cover. apply app_nil_r.
  - exists (new_techs order u (tech_stack (candidate_info m))).
    split; [apply extract_tech_stack|].
    intros a1 t a2 E Hin. rewrite map_app, in_app_iff in Hin.
    destruct Hin as [Hin|Hin].
    + assert (Ht : In t (new_techs order u (tech_stack (candidate_info m))))
        by (rewrite E; apply in_elt).
      unfold new_techs in Ht. apply filter_In in Ht. destruct Ht as [_ Ht].
      apply negb_true_iff in Ht. apply mem_str_In in Hin. congruence.
    + assert (Hd : NoDup (map lower (new_techs order u (tech_stack (candidate_info m))))).
      { unfold new_techs. apply NoDup_map_filter.
        now apply found_techs_lower_NoDup. }
      rewrite E, map_app in Hd. simpl in Hd.
      apply NoDup_remove_2 in Hd. apply Hd. apply in_or_app. now left.
Qed.

Lemma C4_tech_stack_idempotent_witness :
  tech_stack
    (candidate_info
       (extract_and_update_info TECH_KEYWORDS polyglot
          (extract_and_update_info TECH_KEYWORDS polyglot init_manager)))
  = tech_stack
      (candidate_info (extract_and_update_info TECH_KEYWORDS polyglot init_manager)).
Proof.
  apply (C4_tech_stack_idempotent (order := TECH_KEYWORDS) polyglot init_manager).
  apply Permutation_refl.
Defined.

(** ** Soundness and completeness of the matcher *)

Lemma mstate_eta (st : mstate) : MState (m_prev st) (m_rest st) (m_caps st) = st.
Proof. now destruct st. Qed.

Lemma rep_sound (R : Type) (g : bool) (p : ascii -> bool) (rest : str) :
  forall lo hi prev caps (k : mstate -> option R) x,
    rep g p lo hi prev rest caps k = Some x ->
    exists st', matches (Rep g lo hi p) (MState prev rest caps) st' /\ k st' = Some x.
Proof.
  induction rest as [|c t IH]; intros lo hi prev caps k x H.
  - assert (Hk : lo = 0 /\ k (MState prev [] caps) = Some x).
    { simpl in H. destruct g, (lo =? 0) eqn:E; try discriminate;
        apply Nat.eqb_eq in E; split; auto;
        destruct (k (MState prev [] caps)); congruence. }
    destruct Hk as [-> Hk]. eexists. split; [apply M_RepStop | exact Hk].
  - assert (Hc : (p c && below hi = true
                  /\ rep g p (pred lo) (option_map pred hi) (Some c) t caps k = Some x)
                 \/ (lo = 0 /\ k (MState prev (c :: t) caps) = Some x)).
    { cbn [rep] in H. destruct g.
      - destruct (p c && below hi).
        + destruct (rep true p (pred lo) (option_map pred hi) (Some c) t caps k) eqn:E.
          * left. split; [reflexivity | congruence].
          * right. destruct (lo =? 0) eqn:E0; [|discriminate].
            apply Nat.eqb_eq in E0. auto.
        + right. destruct (lo =? 0) eqn:E0; [|discriminate].
          apply Nat.eqb_eq in E0. auto.
      - destruct (lo =? 0) eqn:E0.
        + apply Nat.eqb_eq in E0.
          destruct (k (MState prev (c :: t) caps)) eqn:Ek.
          * right. split; [exact E0 | congruence].
          * left. destruct (p c && below hi); [auto | discriminate].
        + left. destruct (p c && below hi); [auto | discriminate]. }
    destruct Hc as [[Hpc Hr] | [-> Hk]].
    + apply andb_true_iff in Hpc. destruct Hpc as [Hp Hb].
      apply IH in Hr. destruct Hr as (st' & Hm & Hk).
      exists st'. split; [|exact Hk].
      eapply M_RepMore with (c := c) (t := t); auto.
    + eexists. split; [apply M_RepStop | exact Hk].
Qed.

(** Soundness: a result of the matcher comes from a way of reading the
    pattern that the continuation accepts. *)
Lemma matchk_sound (r : regex) :
  forall (R : Type) st (k : mstate -> option R) x,
    matchk r st k = Some x ->
    exists st', matches r st st' /\ k st' = Some x.
Proof.
  induction r as [| p | a IHa b IHb | a IHa b IHb | g lo hi p | n a IHa | a IHa | | |];
    intros R st k x H; simpl in H.
  - exists st. split; [constructor | exact H].
  - destruct (m_rest st) as [|c t] eqn:E; [discriminate|].
    destruct (p c) eqn:Hp; [|discriminate].
    exists (step_char c t st). split; [now constructor | exact H].
  - apply IHa in H. destruct H as (st1 & Ha & H).
    apply IHb in H. destruct H as (st2 & Hb & H).
    exists st2. split; [econstructor; eassumption | exact H].
  - destruct (matchk a st k) eqn:E.
    + injection H as ->. apply IHa in E. destruct E as (st' & Ha & Hk).
      exists st'. split; [now apply M_AltL | exact Hk].
    + apply IHb in H. destruct H as (st' & Hb & Hk).
      exists st'. split; [now apply M_AltR | exact Hk].
  - apply rep_sound in H. now rewrite mstate_eta in H.
  - apply IHa in H. destruct H as (st1 & Ha & H).
    exists (set_cap n st st1). split; [now constructor | exact H].
  - destruct (matchk a st (fun _ => Some tt)) eqn:E; [|discriminate].
    apply IHa in E. destruct E as (st1 & Ha & _).
    exists st. split; [econstructor; eassumption | exact H].
  - destruct (at_word_boundary st) eqn:E; [|discriminate].
    exists st. split; [now constructor | exact H].
  - destruct (at_bol st) eqn:E; [|discriminate].
    exists st. split; [now constructor | exact H].
  - destruct (at_eol st) eqn:E; [|discriminate].
    exists st. split; [now constructor | exact H].
Qed.

(** Completeness: when the pattern can be read in a way the continuation
    accepts, the matcher returns a result. *)
Lemma matchk_complete (r : regex) (st st' : mstate) :
  matches r st st' ->
  forall (R : Type) (k : mstate -> option R) x,
    k st' = Some x -> exists y, matchk r st k = Some y.
Proof.
  induction 1 as [ st | p c t st E Hp | a b st st1 st2 _ IHa _ IHb
                 | a b st st' _ IH | a b st st' _ IH
                 | g hi p st | g lo hi p c t st st' E Hp Hb _ IH
                 | n a st st' _ IH | a st st' _ IH | st E | st E | st E ];
    intros R k x Hk; simpl.
  - now exists x.
  - rewrite E, Hp. now exists x.
  - destruct (IHb R k x Hk) as (y & Hy).
    exact (IHa R (fun st1 => matchk b st1 k) y Hy).
  - destruct (IH R k x Hk) as (y & Hy). rewrite Hy. now exists y.
  - destruct (matchk a st k) as [y|]; [now exists y|]. exact (IH R k x Hk).
  - rewrite <- (mstate_eta st) in Hk.
    destruct (m_rest st) as [|c t]; cbn [rep]; destruct g; cbn [Nat.eqb].
    + rewrite Hk. now exists x.
    + rewrite Hk. now exists x.
    + destruct (p c && below hi).
      * destruct (rep true p (pred 0) (option_map pred hi) (Some c) t (m_caps st) k) as [y|];
          [now exists y | rewrite Hk; now exists x].
      * rewrite Hk. now exists x.
    + rewrite Hk. now exists x.
  - destruct (IH R k x Hk) as (y & Hy). simpl in Hy.
    rewrite E. cbn [rep]. rewrite Hp, Hb. cbn [andb]. destruct g.
    + rewrite Hy. now exists y.
    + destruct (if lo =? 0 then k (MState (m_prev st) (c :: t) (m_caps st)) else None)
        as [z|]; [now exists z | rewrite Hy; now exists y].
  - exact (IH R (fun st1 => k (set_cap n st st1)) x Hk).
  - destruct (IH unit (fun _ => Some tt) tt eq_refl) as (y & Hy).
    rewrite Hy. now exists x.
  - rewrite E. now exists x.
  - rewrite E. now exists x.
  - rewrite E. now exists x.
Qed.

Lemma prev_after_app (prev : option ascii) (w1 w2 : str) :
  prev_after prev (w1 ++ w2) = prev_after (prev_after prev w1) w2.
Proof. apply fold_left_app. Qed.

(** What a match reads is a prefix of the text it starts on, and the
    character before its end is the last one read. *)
Lemma matches_reads (r : regex) (st st' : mstate) :
  matches r st st' ->
  exists w, m_rest st = w ++ m_rest st' /\ m_prev st' = prev_after (m_prev st) w.
Proof.
  induction 1 as [ st | p c t st E Hp | a b st st1 st2 _ IHa _ IHb
                 | a b st st' _ IH | a b st st' _ IH
                 | g hi p st | g lo hi p c t st st' E Hp Hb _ IH
                 | n a st st' _ IH | a st st' _ IH | st E | st E | st E ];
    try (exists []; split; reflexivity); try exact IH.
  - exists [c]. split; [exact E | reflexivity].
  - destruct IHa as (w1 & E1 & P1). destruct IHb as (w2 & E2 & P2).
    exists (w1 ++ w2). rewrite <- app_assoc, <- E2, prev_after_app, <- P1. auto.
  - destruct IH as (w & Ew & Pw). exists (c :: w). split.
    + rewrite E. simpl. simpl in Ew. now rewrite Ew.
    + exact Pw.
Qed.

Lemma consumed_prefix (st st' : mstate) (w : str) :
  m_rest st = w ++ m_rest st' -> consumed st st' = w.
Proof.
  intro E. unfold consumed. rewrite E, length_app, Nat.add_sub.
  rewrite firstn_app, Nat.sub_diag, firstn_all. simpl. apply app_nil_r.
Qed.

Lemma matches_consumed (r : regex) (st st' : mstate) :
  matches r st st' -> m_rest st = consumed st st' ++ m_rest st'.
Proof.
  intro H. destruct (matches_reads H) as (w & E & _).
  now rewrite (consumed_prefix st st' w E).
Qed.

(** A repetition reads [lo] to [hi] characters of its set. *)
Lemma matches_rep_inv (g : bool) (p : ascii -> bool) (r : regex) (st st' : mstate) :
  matches r st st' ->
  forall lo hi, r = Rep g lo hi p ->
  exists w, m_rest st = w ++ m_rest st' /\ forallb p w = true
            /\ lo <= length w /\ within hi (length w)
            /\ m_caps st' = m_caps st
            /\ m_prev st' = prev_after (m_prev st) w.
Proof.
  induction 1 as [ st | p0 c t st E Hp | a b st st1 st2 _ IHa _ IHb
                 | a b st st' _ IH | a b st st' _ IH
                 | g0 hi0 p0 st | g0 lo0 hi0 p0 c t st st' E Hp Hb _ IH
                 | n a st st' _ IH | a st st' _ IH | st E | st E | st E ];
    intros lo hi Er; try discriminate.
  - injection Er as -> <- <- ->. exists []. repeat split; auto.
    destruct hi0; simpl; [lia | exact I].
  - injection Er as -> -> -> ->.
    destruct (IH (pred lo) (option_map pred hi) eq_refl)
      as (w & Ew & Fw & Lw & Hw & Cw & Pw).
    exists (c :: w). simpl in *. repeat split; auto.
    + now rewrite E, Ew.
    + now rewrite Hp, Fw.
    + lia.
    + destruct hi as [[|h]|]; simpl in *; try discriminate; try exact I. lia.
Qed.

Lemma matches_rep_intro (g : bool) (p : ascii -> bool) (w : str) :
  forall lo hi prev t caps,
    forallb p w = true -> lo <= length w -> within hi (length w) ->
    matches (Rep g lo hi p) (MState prev (w ++ t) caps)
            (MState (prev_after prev w) t caps).
Proof.
  induction w as [|c w IH]; intros lo hi prev t caps Fw Lw Hw; simpl in *.
  - assert (lo = 0) by lia. subst. apply M_RepStop.
  - apply andb_true_iff in Fw. destruct Fw as [Hc Fw].
    eapply M_RepMore with (c := c) (t := w ++ t); auto.
    + destruct hi as [[|h]|]; simpl in *; auto; lia.
    + apply IH; auto; [lia|].
      destruct hi as [[|h]|]; simpl in *; auto; lia.
Qed.

(** ** Searching *)

Lemma match_at_sound (r : regex) (prev : option ascii) (rest : str) (x : re_result) :
  match_at r prev rest = Some x ->
  matches r (MState prev rest []) (end_state x)
  /\ rest = group0 x ++ m_rest (end_state x)
  /\ captures x = m_caps (end_state x).
Proof.
  unfold match_at. intro H.
  destruct (matchk r (MState prev rest []) (fun st' => Some st')) as [st'|] eqn:E;
    [|discriminate].
  injection H as <-. cbn [end_state group0 captures].
  apply matchk_sound in E. destruct E as (st'' & Hm & E). injection E as ->.
  split; [exact Hm|]. split; [|reflexivity].
  now apply matches_consumed in Hm.
Qed.

Lemma match_at_complete (r : regex) (prev : option ascii) (rest : str) (st' : mstate) :
  matches r (MState prev rest []) st' -> match_at r prev rest <> None.
Proof.
  intros Hm. unfold match_at.
  destruct (matchk_complete Hm (fun st' => Some st') eq_refl) as (y & Hy).
  rewrite Hy. discriminate.
Qed.

(** The search returns the attempt at the leftmost position that has
    one. *)
Lemma search_from_spec (r : regex) (s : str) :
  forall prev x,
    search_from r prev s = Some x ->
    exists pre rest,
      s = pre ++ rest
      /\ match_at r (prev_after prev pre) rest = Some x
      /\ forall pre1 rest1,
           s = pre1 ++ rest1 -> length pre1 < length pre ->
           match_at r (prev_after prev pre1) rest1 = None.
Proof.
  induction s as [|c s IH]; intros prev x H; cbn [search_from] in H.
  - destruct (match_at r prev []) eqn:E; [|discriminate]. injection H as ->.
    exists [], []. repeat split; auto. intros pre1 rest1 _ Hl. simpl in Hl. lia.
  - destruct (match_at r prev (c :: s)) eqn:E.
    + injection H as ->. exists [], (c :: s). repeat split; auto.
      intros pre1 rest1 _ Hl. simpl in Hl. lia.
    + apply IH in H. destruct H as (pre & rest & -> & Hm & Hleft).
      exists (c :: pre), rest. repeat split; auto.
      intros [|c1 pre1] rest1 E1 Hl.
      * simpl in E1. subst rest1. exact E.
      * simpl in E1. injection E1 as <- E1. simpl in Hl.
        apply (Hleft pre1 rest1 E1). lia.
Qed.

Lemma search_from_complete (r : regex) (pre rest : str) :
  forall prev,
    match_at r (prev_after prev pre) rest <> None ->
    search_from r prev (pre ++ rest) <> None.
Proof.
  induction pre as [|c pre IH]; intros prev H.
  - simpl in *. destruct rest; cbn [search_from];
      destruct (match_at r prev _); congruence.
  - cbn [app search_from]. destruct (match_at r prev (c :: pre ++ rest)); [discriminate|].
    now apply IH.
Qed.

(** ** Text around a match *)

Lemma orel_orelse (A B : Type) (Q : A -> B -> Prop) a1 a2 b1 b2 :
  orel Q a1 a2 -> (a1 = None -> a2 = None -> orel Q b1 b2) ->
  orel Q (match a1 with Some r => Some r | None => b1 end)
         (match a2 with Some r => Some r | None => b2 end).
Proof. intros [|a b H] Hb; [now apply Hb | now constructor]. Qed.

Lemma orel_guard (A B : Type) (Q : A -> B -> Prop) (c : bool) a1 a2 :
  (c = true -> orel Q a1 a2) ->
  orel Q (if c then a1 else None) (if c then a2 else None).
Proof. destruct c; intro H; [now apply H | constructor]. Qed.

Lemma rep_ext (R1 R2 : Type) (Q : R1 -> R2 -> Prop) (ws : str) (g : bool)
    (p : ascii -> bool) (k1 : mstate -> option R1) (k2 : mstate -> option R2) :
  blocked ws (Chr p) ->
  (forall a b, ext ws a b -> orel Q (k1 a) (k2 b)) ->
  forall rest lo hi prev1 prev2 caps,
    orel Q (rep g p lo hi prev1 (rest ++ ws) caps k1)
           (rep g p lo hi prev2 rest caps k2).
Proof.
  intros Hb Hk. induction rest as [|c t IH]; intros lo hi prev1 prev2 caps.
  - assert (Hstop : orel Q (if lo =? 0 then k1 (MState prev1 ws caps) else None)
                           (if lo =? 0 then k2 (MState prev2 [] caps) else None)).
    { apply orel_guard. intros _. apply Hk. split; reflexivity. }
    cbn [app]. destruct ws as [|c0 t0].
    + cbn [rep]. destruct g.
      * exact Hstop.
      * apply orel_orelse; [exact Hstop | constructor].
    + simpl in Hb. apply negb_true_iff in Hb. cbn [rep]. rewrite Hb. cbn [andb].
      destruct g.
      * exact Hstop.
      * apply orel_orelse; [exact Hstop | constructor].
  - assert (Hstop : orel Q (if lo =? 0 then k1 (MState prev1 (c :: t ++ ws) caps) else None)
                           (if lo =? 0 then k2 (MState prev2 (c :: t) caps) else None)).
    { apply orel_guard. intros _. apply Hk. split; reflexivity. }
    assert (Hmore : orel Q
              (if p c && below hi
               then rep g p (pred lo) (option_map pred hi) (Some c) (t ++ ws) caps k1
               else None)
              (if p c && below hi
               then rep g p (pred lo) (option_map pred hi) (Some c) t caps k2
               else None)).
    { apply orel_guard. intros _. apply IH. }
    cbn [app rep]. destruct g.
    + apply orel_orelse; [exact Hmore | intros _ _; exact Hstop].
    + apply orel_orelse; [exact Hstop | intros _ _; exact Hmore].
Qed.

Lemma consumed_ext (ws : str) (st1 st2 a b : mstate) :
  ext ws st1 st2 -> ext ws a b -> consumed st1 a = consumed st2 b.
Proof.
  intros [E1 _] [Ea _]. unfold consumed. rewrite E1, Ea, !length_app.
  replace (length (m_rest st2) + length ws - (length (m_rest b) + length ws))
    with (length (m_rest st2) - length (m_rest b)) by lia.
  rewrite firstn_app.
  replace (length (m_rest st2) - length (m_rest b) - length (m_rest st2)) with 0 by lia.
  simpl. apply app_nil_r.
Qed.

Lemma blocked_pair (ws : str) (a b : regex) :
  blocked ws (Seq a b) -> blocked ws a /\ blocked ws b.
Proof.
  intros H. destruct ws; simpl in *; [auto | now apply andb_true_iff].
Qed.

Lemma matchk_ext (ws : str) (r : regex) :
  plain r = true -> blocked ws r ->
  forall (R1 R2 : Type) (Q : R1 -> R2 -> Prop) st1 st2
         (k1 : mstate -> option R1) (k2 : mstate -> option R2),
    ext ws st1 st2 ->
    (forall a b, ext ws a b -> orel Q (k1 a) (k2 b)) ->
    orel Q (matchk r st1 k1) (matchk r st2 k2).
Proof.
  induction r as [| p | a IHa b IHb | a IHa b IHb | g lo hi p | n a IHa | a IHa | | |];
    intros Hp Hb R1 R2 Q st1 st2 k1 k2 He Hk; simpl in Hp; try discriminate.
  - simpl. now apply Hk.
  - simpl. destruct He as [Er Ec]. rewrite Er.
    destruct (m_rest st2) as [|c t] eqn:E2.
    + destruct ws as [|c0 t0]; simpl; [constructor|].
      simpl in Hb. apply negb_true_iff in Hb. rewrite Hb. constructor.
    + simpl. apply orel_guard. intros _. apply Hk.
      split; [reflexivity | exact Ec].
  - apply andb_true_iff in Hp. destruct Hp as [Hpa Hpb].
    destruct (blocked_pair ws a b Hb) as [Hba Hbb]. simpl.
    apply (IHa Hpa Hba); [exact He|].
    intros a1 b1 He1. now apply (IHb Hpb Hbb).
  - apply andb_true_iff in Hp. destruct Hp as [Hpa Hpb].
    destruct (blocked_pair ws a b Hb) as [Hba Hbb]. simpl.
    apply orel_orelse.
    + now apply (IHa Hpa Hba).
    + intros _ _. now apply (IHb Hpb Hbb).
  - simpl. destruct He as [Er Ec]. rewrite Er, Ec.
    now apply rep_ext.
  - simpl. apply (IHa Hp Hb); [exact He|].
    intros a1 b1 He1. unfold set_cap. rewrite (consumed_ext He He1).
    apply Hk. destruct He1 as [X Y]. split; simpl; [exact X | now rewrite Y].
Qed.

Lemma match_at_ext (ws : str) (r : regex) (prev1 prev2 : option ascii) (s : str) :
  plain r = true -> blocked ws r ->
  orel same_text (match_at r prev1 (s ++ ws)) (match_at r prev2 s).
Proof.
  intros Hp Hb. unfold match_at.
  assert (He : ext ws (MState prev1 (s ++ ws) []) (MState prev2 s [])) by (split; reflexivity).
  assert (H : orel (ext ws)
                (matchk r (MState prev1 (s ++ ws) []) (fun st' => Some st'))
                (matchk r (MState prev2 s []) (fun st' => Some st'))).
  { apply (@matchk_ext ws r Hp Hb); [exact He|]. intros a b Hab. now constructor. }
  destruct H as [|a b Hab]; constructor. split; cbn [group0 captures].
  - now apply (@consumed_ext ws).
  - apply Hab.
Qed.

(** White space after the text does not change what a search finds. *)
Lemma search_from_ext (ws : str) (r : regex) :
  plain r = true -> (forall c, In c ws -> rejects c r = true) ->
  forall s prev1 prev2,
    orel same_text (search_from r prev1 (s ++ ws)) (search_from r prev2 s).
Proof.
  intros Hp Hr.
  assert (Hws : forall t prev1 prev2,
             (forall c, In c t -> rejects c r = true) ->
             orel same_text (search_from r prev1 t) (search_from r prev2 [])).
  { induction t as [|c t IH]; intros prev1 prev2 Ht; cbn [search_from].
    - apply orel_orelse; [|constructor].
      apply (@match_at_ext [] r prev1 prev2 [] Hp I).
    - apply orel_orelse.
      + apply (@match_at_ext (c :: t) r prev1 prev2 [] Hp).
        simpl. apply Ht. now left.
      + intros _ E2.
        pose proof (IH (Some c) prev2 (fun c' H' => Ht c' (or_intror H'))) as H.
        cbn [search_from] in H. rewrite E2 in H. exact H. }
  induction s as [|c s IH]; intros prev1 prev2.
  - simpl. now apply Hws.
  - cbn [app search_from]. apply orel_orelse.
    + apply (@match_at_ext ws r prev1 prev2 (c :: s) Hp).
      destruct ws; simpl; [exact I | apply Hr; now left].
    + intros _ _. apply IH.
Qed.

(** Rejected characters before the text do not either, for a pattern that
    does not match the empty text. *)
Lemma search_from_skip (r : regex) (ws s : str) :
  plain r = true -> (forall c, In c ws -> rejects c r = true) ->
  match_at r None [] = None ->
  forall prev, exists prev', search_from r prev (ws ++ s) = search_from r prev' s.
Proof.
  intros Hp Hr Hn. induction ws as [|c t IH]; intro prev.
  - now exists prev.
  - destruct (IH (fun c' H' => Hr c' (or_intror H')) (Some c)) as (prev' & E).
    exists prev'. cbn [app search_from].
    pose proof (@match_at_ext (c :: t ++ s) r prev None [] Hp
                  (Hr c (or_introl eq_refl))) as H.
    simpl in H. rewrite Hn in H. inversion H as [E1|]. exact E.
Qed.

(** *** [strip] *)

Lemma lstrip_spec (s : str) : exists a, s = a ++ lstrip s /\ spaces a.
Proof.
  induction s as [|c s (a & E & Ha)].
  - exists []. split; [reflexivity | intros c []].
  - simpl. destruct (is_space c) eqn:Hc.
    + exists (c :: a). split; [simpl; now rewrite <- E|].
      intros c' [<-|H]; auto.
    + exists []. split; [reflexivity | intros c' []].
Qed.

Lemma rstrip_spec (s : str) : exists b, s = rstrip s ++ b /\ spaces b.
Proof.
  destruct (lstrip_spec (rev s)) as (a & E & Ha).
  exists (rev a). split.
  - unfold rstrip. rewrite <- rev_app_distr, <- E. symmetry. apply rev_involutive.
  - intros c H. apply Ha. now apply in_rev.
Qed.

Lemma strip_spec (s : str) :
  exists a b, s = a ++ strip s ++ b /\ spaces a /\ spaces b.
Proof.
  destruct (lstrip_spec s) as (a & Ea & Ha).
  destruct (rstrip_spec (lstrip s)) as (b & Eb & Hb).
  exists a, b. unfold strip. now rewrite <- Eb.
Qed.

Lemma strip_occurs (p s : str) : occurs p (strip s) -> occurs p s.
Proof.
  intros (pre & post & E). destruct (strip_spec s) as (a & b & Es & _).
  exists (a ++ pre), (post ++ b). rewrite Es, E. now rewrite !app_assoc.
Qed.

(** A search in the stripped text finds what a search in the text
    finds. *)
Lemma search_strip (r : regex) (s : str) :
  plain r = true -> (forall c, is_space c = true -> rejects c r = true) ->
  match_at r None [] = None ->
  orel same_text (re_search r s) (re_search r (strip s)).
Proof.
  intros Hp Hr Hn. destruct (strip_spec s) as (a & b & E & Ha & Hb).
  unfold re_search. rewrite E at 1.
  destruct (@search_from_skip r a (strip s ++ b) Hp (fun c H => Hr c (Ha c H)) Hn None)
    as (prev' & ->).
  apply search_from_ext; [exact Hp|]. intros c H. apply Hr. now apply Hb.
Qed.

(** ** The e-mail address *)

Lemma is_chr_eq (a c : ascii) : is_chr a c = true -> c = a.
Proof. unfold is_chr. apply chr_eqb_eq. Qed.

Lemma email_matches (e : str) (prev : option ascii) (post : str) :
  email_address e ->
  exists st', matches EMAIL_RE (MState prev (e ++ post) []) st'.
Proof.
  intros (l & d & t & -> & Ll & Fl & Ld & Fd & Lt & Ft).
  eexists. unfold EMAIL_RE, plus.
  rewrite <- app_assoc. cbn [app].
  eapply M_Seq; [apply matches_rep_intro; [exact Fl | exact Ll | exact I]|].
  eapply M_Seq; [eapply M_Chr; [reflexivity | reflexivity]|].
  unfold step_char. cbn [m_caps]. rewrite <- app_assoc. cbn [app].
  eapply M_Seq; [apply matches_rep_intro; [exact Fd | exact Ld | exact I]|].
  eapply M_Seq; [eapply M_Chr; [reflexivity | reflexivity]|].
  unfold step_char. cbn [m_caps].
  apply matches_rep_intro; [exact Ft | exact Lt | exact I].
Qed.

Lemma matches_seq_inv (a b : regex) (st st' : mstate) :
  matches (Seq a b) st st' -> exists st1, matches a st st1 /\ matches b st1 st'.
Proof. intro H. inversion H; subst. eauto. Qed.

Lemma matches_chr_inv (p : ascii -> bool) (st st' : mstate) :
  matches (Chr p) st st' ->
  exists c, m_rest st = c :: m_rest st' /\ p c = true.
Proof. intro H. inversion H; subst. exists c. auto. Qed.

Lemma email_matches_inv (st st' : mstate) :
  matches EMAIL_RE st st' -> email_address (consumed st st').
Proof.
  intro H. assert (Hc := matches_consumed H).
  unfold EMAIL_RE, plus in H.
  apply matches_seq_inv in H. destruct H as (s1 & H1 & H).
  apply matches_seq_inv in H. destruct H as (s2 & H2 & H).
  apply matches_seq_inv in H. destruct H as (s3 & H3 & H).
  apply matches_seq_inv in H. destruct H as (s4 & H4 & H5).
  destruct (matches_rep_inv H1 eq_refl) as (l & El & Fl & Ll & _).
  destruct (matches_chr_inv H2) as (c2 & E2 & P2). apply is_chr_eq in P2. subst c2.
  destruct (matches_rep_inv H3 eq_refl) as (d & Ed & Fd & Ld & _).
  destruct (matches_chr_inv H4) as (c4 & E4 & P4). apply is_chr_eq in P4. subst c4.
  destruct (matches_rep_inv H5 eq_refl) as (t & Et & Ft & Lt & _).
  assert (E : m_rest st = (l ++ "@"%char :: d ++ "."%char :: t) ++ m_rest st').
  { rewrite El, E2, Ed, E4, Et. rewrite <- !app_assoc. cbn [app].
    rewrite <- !app_assoc. reflexivity. }
  rewrite (consumed_prefix st st' _ E).
  exists l, d, t. repeat split; auto.
Qed.

Lemma EMAIL_RE_rejects_space (c : ascii) :
  is_space c = true -> rejects c EMAIL_RE = true.
Proof.
  destruct c as [[] [] [] [] [] [] [] []]; vm_compute; intro H;
    try reflexivity; discriminate.
Qed.

(** What [extract_and_update_info] does to the e-mail field. *)
Lemma extract_email (order : list str) (u : str) (m : ConversationManager) :
  email (candidate_info (extract_and_update_info order u m))
  = if truthy (email (candidate_info m)) then email (candidate_info m)
    else match re_search EMAIL_RE (strip u) with
         | Some x => Some (group0 x)
         | None => email (candidate_info m)
         end.
Proof.
  unfold extract_and_update_info. cbn zeta.
  destruct (truthy (email (candidate_info m))); cbn [negb];
    destruct (re_search EMAIL_RE (strip u));
    repeat match goal with
           | |- context [if ?b then _ else _] =>
               match type of b with bool => destruct b end
           | |- context [match ?x with Some _ => _ | None => _ end] => destruct x
           | |- context [match ?x with [] => _ | _ :: _ => _ end] => destruct x
           end; reflexivity.
Qed.

(** C2: when the e-mail field is not set and the utterance contains a
    string of the shape local@domain.tld, the extractor sets the field to
    the first match of the e-mail pattern in the utterance, as it stands
    there: the match is itself of that shape, is a substring of the
    utterance, and no string of that shape starts before it.  When the
    field is set, a later call leaves it as it is, whatever the
    utterance. *)
Theorem C2_email_first_match_kept (order : list str) (u : str)
    (m : ConversationManager) :
  (truthy (email (candidate_info m)) = false ->
   forall e, email_address e -> occurs e u ->
     exists x pre post,
       re_search EMAIL_RE u = Some x
       /\ email (candidate_info (extract_and_update_info order u m))
          = Some (group0 x)
       /\ email_address (group0 x)
       /\ u = pre ++ group0 x ++ post
       /\ forall pre' e' post',
            email_address e' -> u = pre' ++ e' ++ post' ->
            length pre <= length pre')
  /\ (truthy (email (candidate_info m)) = true ->
      email (candidate_info (extract_and_update_info order u m))
      = email (candidate_info m)).
Proof.
  split.
  - intros Hunset e He (pre0 & post0 & Eu).
    destruct (re_search EMAIL_RE u) as [x|] eqn:Ex.
    + pose proof (@search_strip EMAIL_RE u eq_refl EMAIL_RE_rejects_space eq_refl) as Hs.
      rewrite Ex in Hs. inversion Hs as [|x1 x2 [Hg _] E1 E2]. subst x1.
      unfold re_search in Ex. apply search_from_spec in Ex.
      destruct Ex as (pre & rest & Erest & Hm & Hleft).
      apply match_at_sound in Hm. destruct Hm as (Hm & Er & _).
      exists x, pre, (m_rest (end_state x)). split; [reflexivity|]. split.
      { rewrite extract_email, Hunset, <- E2. now rewrite Hg. }
      split.
      { apply email_matches_inv in Hm.
        rewrite (@consumed_prefix (MState (prev_after None pre) rest [])
                   (end_state x) (group0 x) Er) in Hm.
        exact Hm. }
      split; [now rewrite <- Er|].
      intros pre' e' post' He' Eu'.
      destruct (le_lt_dec (length pre) (length pre')) as [|Hlt]; [assumption|].
      exfalso.
      destruct (email_matches (prev_after None pre') post' He') as (st' & Hst').
      apply match_at_complete in Hst'. apply Hst'.
      now apply Hleft.
    + exfalso. unfold re_search in Ex.
      destruct (email_matches (prev_after None pre0) post0 He) as (st' & Hst').
      apply match_at_complete in Hst'.
      apply (@search_from_complete EMAIL_RE pre0 (e ++ post0) None) in Hst'.
      rewrite <- Eu in Hst'. contradiction.
  - intro Hset. now rewrite extract_email, Hset.
Qed.

Lemma C2_email_first_match_kept_witness :
  email (candidate_info
           (extract_and_update_info TECH_KEYWORDS contact_utterance init_manager))
  = Some (lit "jane.doe@example.co.uk").
Proof.
  assert (He : email_address (lit "old@example.com")).
  { exists (lit "old"), (lit "example"), (lit "com").
    repeat split; simpl; try reflexivity; lia. }
  assert (Ho : occurs (lit "old@example.com") contact_utterance).
  { exists (lit "  mail me at jane.doe@example.co.uk, not at "), (lit "  ").
    reflexivity. }
  destruct (proj1 (C2_email_first_match_kept TECH_KEYWORDS contact_utterance
                     init_manager) eq_refl _ He Ho)
    as (x & pre & post & Hx & Hemail & _).
  rewrite Hemail. f_equal.
  assert (E : option_map (@group0) (re_search EMAIL_RE contact_utterance)
              = Some (lit "jane.doe@example.co.uk")) by (vm_compute; reflexivity).
  rewrite Hx in E. simpl in E. now injection E.
Defined.

(** ** The phone number *)

Lemma matches_group_inv (n : nat) (a : regex) (st st'' : mstate) :
  matches (Group n a) st st'' ->
  exists st', matches a st st' /\ st'' = set_cap n st st'.
Proof. intro H. inversion H; subst. eauto. Qed.


Lemma phone_matches_inv (st st' : mstate) :
  matches PHONE_RE st st' -> phone_run (consumed st st').
Proof.
  intro H. assert (Hc := matches_consumed H).
  unfold PHONE_RE, opt in H.
  apply matches_group_inv in H. destruct H as (s2 & H & ->).
  apply matches_seq_inv in H. destruct H as (s1 & H1 & H2).
  destruct (matches_rep_inv H1 eq_refl) as (sign & Es & Fs & _ & Ls & _).
  destruct (matches_rep_inv H2 eq_refl) as (w & Ew & Fw & Lw1 & Lw2 & _).
  simpl in Ls, Lw2.
  assert (E : m_rest st = (sign ++ w) ++ m_rest (set_cap 1 st s2)).
  { cbn [set_cap m_rest]. now rewrite Es, Ew, app_assoc. }
  rewrite (consumed_prefix st _ _ E).
  exists sign, w. repeat split; auto.
  destruct sign as [|c [|c' sign]]; [now left | right | simpl in Ls; lia].
  simpl in Fs. rewrite andb_true_r in Fs. apply is_chr_eq in Fs. now subst.
Qed.

(** What [extract_and_update_info] does to the phone field. *)
Lemma extract_phone (order : list str) (u : str) (m : ConversationManager) :
  phone (candidate_info (extract_and_update_info order u m))
  = if truthy (phone (candidate_info m)) then phone (candidate_info m)
    else match re_search PHONE_RE (strip u) with
         | Some x =>
             if 7 <=? count_digits (strip (group0 x))
             then Some (strip (group0 x))
             else phone (candidate_info m)
         | None => phone (candidate_info m)
         end.
Proof.
  unfold extract_and_update_info. cbn zeta.
  assert (Hp : forall i,
             phone (if negb (truthy (email (candidate_info m)))
                    then match re_search EMAIL_RE (strip u) with
                         | Some email_match => set_email (group0 email_match) i
                         | None => i
                         end
                    else i) = phone i).
  { intro i. destruct (negb _); [destruct (re_search EMAIL_RE _)|]; reflexivity. }
  match goal with
  | |- context [truthy (phone ?i1)] => set (I1 := i1)
  end.
  assert (H1 : phone I1 = phone (candidate_info m)) by apply Hp.
  rewrite H1.
  destruct (truthy (phone (candidate_info m))); cbn [negb];
    [| destruct (re_search PHONE_RE (strip u));
       [destruct (7 <=? count_digits (strip (group0 r)))|] ];
    repeat match goal with
           | |- context [if ?b then _ else _] =>
               match type of b with bool => destruct b end
           | |- context [match ?x with Some _ => _ | None => _ end] => destruct x
           | |- context [match ?x with [] => _ | _ :: _ => _ end] => destruct x
           end; cbn; auto.
Qed.




(** * Further properties of the code *)

(** ** The later stages *)

Lemma evaluate_stage_info (ai u : str) (m : ConversationManager) :
  candidate_info (evaluate_stage ai u m) = candidate_info m.
Proof.
  unfold evaluate_stage. split_ifs;
    try rewrite (proj1 (advance_stage_info _ _)); reflexivity.
Qed.

Lemma all_collected_test (i : CandidateInfo) :
  forallb (fun f => truthy (info_get f i)) REQUIRED_FIELDS = true <-> all_collected i.
Proof.
  change (forallb (fun f => truthy (info_get f i)) REQUIRED_FIELDS)
    with (truthy (full_name i) && (truthy (email i) && (truthy (phone i)
          && (truthy (years_experience i) && (truthy (desired_position i)
          && (truthy (location i) && true)))))).
  unfold all_collected. rewrite !andb_true_iff. tauto.
Qed.

(** X1: in stage gathering_info a turn moves to tech_stack exactly when
    all six required fields were populated before the stage evaluation of
    that turn (a name that the same call picks up afterwards does not
    count yet); otherwise the stage stays gathering_info. *)
Theorem X1_gathering_advances_iff (ai u : str) (m : ConversationManager) :
  stage m = lit "gathering_info" ->
  (stage (process_ai_response ai u m) = lit "tech_stack"
   <-> all_collected (candidate_info m))
  /\ (stage (process_ai_response ai u m) = lit "tech_stack"
      \/ stage (process_ai_response ai u m) = lit "gathering_info").
Proof.
  intro Hs. rewrite process_ai_response_stage. unfold evaluate_stage.
  rewrite Hs. stage_tests. cbv iota.
  destruct (forallb (fun f => truthy (info_get f (candidate_info m))) REQUIRED_FIELDS)
    eqn:E.
  - assert (Ha : stage (_advance_stage (lit "tech_stack") m) = lit "tech_stack").
    { unfold _advance_stage. rewrite Hs. reflexivity. }
    rewrite Ha. split; [|now left]. split; [|reflexivity].
    intros _. now apply all_collected_test.
  - rewrite Hs. split; [|now right]. split; [discriminate|].
    intro H. apply all_collected_test in H. congruence.
Qed.

Lemma X1_gathering_advances_iff_witness :
  stage (process_ai_response (lit "Thanks!") (lit "I live in Berlin")
                             gathering_manager) = lit "tech_stack".
Proof.
  apply (proj1 (X1_gathering_advances_iff (lit "Thanks!") (lit "I live in Berlin")
                  gathering_manager eq_refl)).
  repeat split.
Defined.

(** X2: in stage tech_stack a turn moves to technical_questions exactly
    when the tech stack is not empty and one of the six transition phrases
    occurs in the lower-cased response of the model; otherwise the stage
    stays tech_stack.  The question list is not touched by that turn. *)
Theorem X2_tech_stack_advances_iff (ai u : str) (m : ConversationManager) :
  stage m = lit "tech_stack" ->
  (stage (process_ai_response ai u m) = lit "technical_questions"
   <-> (tech_stack (candidate_info m) <> []
        /\ exists sig, In sig transition_signals /\ occurs sig (lower ai)))
  /\ (stage (process_ai_response ai u m) = lit "technical_questions"
      \/ stage (process_ai_response ai u m) = lit "tech_stack")
  /\ questions (process_ai_response ai u m) = questions m.
Proof.
  intro Hs.
  rewrite process_ai_response_stage, process_ai_response_questions.
  unfold evaluate_stage. rewrite Hs. stage_tests. cbv iota.
  assert (Ha : stage (_advance_stage (lit "technical_questions") m)
               = lit "technical_questions").
  { unfold _advance_stage. rewrite Hs. reflexivity. }
  assert (Hq := proj1 (proj2 (advance_stage_info (lit "technical_questions") m))).
  destruct (tech_stack (candidate_info m)) as [|t ts] eqn:Et; cbn [nonempty andb].
  - rewrite Hs. split; [|split; [now right | reflexivity]].
    split; [discriminate | intros [H _]; now elim H].
  - cbn [length Nat.leb].
    destruct (existsb (fun sig => contains sig (lower ai)) transition_signals) eqn:E.
    + rewrite Ha, Hq. split; [|split; [now left | reflexivity]].
      split; [|reflexivity]. intros _. split; [discriminate|].
      apply existsb_exists in E. destruct E as (sig & Hin & Hc).
      exists sig. split; [exact Hin | now apply contains_spec].
    + rewrite Hs. split; [|split; [now right | reflexivity]].
      split; [discriminate|]. intros [_ (sig & Hin & Ho)].
      assert (existsb (fun sig => contains sig (lower ai)) transition_signals = true).
      { apply existsb_exists. exists sig. split; [exact Hin | now apply contains_spec]. }
      congruence.
Qed.

Lemma X2_tech_stack_advances_iff_witness :
  stage (process_ai_response
           (lit "Great. I will NOW ASK you a few things.") (lit "yes")
           stack_manager) = lit "technical_questions".
Proof.
  apply (proj1 (X2_tech_stack_advances_iff
                  (lit "Great. I will NOW ASK you a few things.") (lit "yes")
                  stack_manager eq_refl)).
  split; [discriminate|].
  exists (lit "now ask"). split; [simpl; tauto|].
  exists (lit "great. i will "), (lit " you a few things."). reflexivity.
Defined.

Lemma process_ai_response_late (ai u : str) (m : ConversationManager) :
  stage m <> lit "greeting" -> stage m <> lit "gathering_info" ->
  process_ai_response ai u m = evaluate_stage ai u m.
Proof.
  intros H1 H2. unfold process_ai_response.
  apply str_eqb_neq in H1. apply str_eqb_neq in H2. rewrite H1, H2.
  cbn [orb]. now rewrite andb_false_r.
Qed.

(** X3: one turn in stage technical_questions with a question list that
    is already there: the list and the profile are kept; an utterance of
    more than ten characters counts as one answer, capped at the number of
    questions, and a shorter one counts as none; the stage becomes closing
    exactly when the count after the turn equals the number of questions,
    and stays technical_questions otherwise. *)
Theorem X3_answer_counting (ai u : str) (m : ConversationManager) :
  stage m = lit "technical_questions" ->
  questions m <> [] ->
  answered_count m <= length (questions m) ->
  let m' := process_ai_response ai u m in
  questions m' = questions m
  /\ candidate_info m' = candidate_info m
  /\ answered_count m'
     = (if 10 <? len u
        then Nat.min (answered_count m + 1) (length (questions m))
        else answered_count m)
  /\ (stage m' = lit "closing" <-> answered_count m' = length (questions m))
  /\ (stage m' = lit "closing" \/ stage m' = lit "technical_questions").
Proof.
  intros Hs Hq Ha m'. subst m'.
  rewrite process_ai_response_late by (rewrite Hs; discriminate).
  unfold evaluate_stage. rewrite Hs. stage_tests. cbv iota.
  cbv zeta. apply nonempty_true in Hq. rewrite !Hq. cbn [negb].
  rewrite !Hq. cbn [andb].
  set (a' := if 10 <? len u
             then Nat.min (answered_count m + 1) (length (questions m))
             else answered_count m).
  set (m2 := if 10 <? len u
             then set_answered_count
                    (Nat.min (answered_count m + 1) (length (questions m))) m
             else m).
  assert (H2 : questions m2 = questions m /\ candidate_info m2 = candidate_info m
               /\ answered_count m2 = a' /\ stage m2 = lit "technical_questions").
  { subst m2 a'. destruct (10 <? len u); auto. }
  destruct H2 as (Q2 & I2 & A2 & S2).
  assert (Hle : a' <= length (questions m)).
  { subst a'. destruct (10 <? len u); [apply Nat.le_min_r | exact Ha]. }
  rewrite Q2, A2, Hq, andb_true_r.
  destruct (length (questions m) <=? a') eqn:E.
  - apply Nat.leb_le in E.
    destruct (advance_stage_info (lit "closing") m2) as (Hi & Hqs & Hac).
    assert (Hst : stage (_advance_stage (lit "closing") m2) = lit "closing").
    { unfold _advance_stage. rewrite S2. reflexivity. }
    rewrite Hi, Hqs, Hac, Hst, Q2, I2, A2.
    repeat split; auto. lia.
  - apply Nat.leb_gt in E. rewrite Q2, I2, A2, S2.
    repeat split; auto; try discriminate. lia.
Qed.

Lemma X3_answer_counting_witness :
  stage (process_ai_response (lit "Good answer.")
                             (lit "REST is an architectural style.")
                             answering_manager) = lit "closing".
Proof.
  apply (proj2 (proj1 (proj2 (proj2 (proj2
           (X3_answer_counting (lit "Good answer.")
              (lit "REST is an architectural style.") answering_manager
              eq_refl ltac:(discriminate) ltac:(simpl; lia))))))).
  reflexivity.
Defined.

(** ** Progress through the questions *)

Lemma parse_questions_length (text : str) : length (_parse_questions text) <= 5.
Proof.
  unfold _parse_questions. cbv zeta.
  match goal with |- length (firstn 5 ?l) <= 5 => generalize l end.
  intro l. rewrite length_firstn. apply Nat.le_min_l.
Qed.

Lemma process_ai_response_answered (ai u : str) (m : ConversationManager) :
  answered_count (process_ai_response ai u m) = answered_count (evaluate_stage ai u m).
Proof. unfold process_ai_response. split_ifs; reflexivity. Qed.

(** The question list and the answered count after the stage block, in
    stage technical_questions. *)
Lemma evaluate_stage_in_questions (ai u : str) (m : ConversationManager) :
  stage m = lit "technical_questions" ->
  let qs := match questions m with [] => _parse_questions ai | _ => questions m end in
  let a := if nonempty qs && (10 <? len u)
           then Nat.min (answered_count m + 1) (length qs)
           else answered_count m in
  questions (evaluate_stage ai u m) = qs
  /\ answered_count (evaluate_stage ai u m) = a.
Proof.
  intros Hs qs a. unfold evaluate_stage. rewrite Hs. stage_tests. cbv iota zeta.
  set (m1 := if negb (nonempty (questions m))
             then set_questions (_parse_questions ai) m else m).
  assert (Q1 : questions m1 = qs /\ answered_count m1 = answered_count m).
  { subst m1 qs. destruct (questions m) eqn:E; cbn; rewrite ?E; split; reflexivity. }
  destruct Q1 as [Q1 A1].
  set (m2 := if nonempty (questions m1) && (10 <? len u)
             then set_answered_count
                    (Nat.min (answered_count m1 + 1) (length (questions m1))) m1
             else m1).
  assert (Q2 : questions m2 = qs /\ answered_count m2 = a).
  { subst m2 a. rewrite Q1, A1.
    destruct (nonempty qs && (10 <? len u)); split; auto. }
  destruct Q2 as [Q2 A2].
  destruct ((length (questions m2) <=? answered_count m2) && nonempty (questions m2)).
  - destruct (advance_stage_info (lit "closing") m2) as (_ & -> & ->). auto.
  - auto.
Qed.

Lemma evaluate_stage_elsewhere (ai u : str) (m : ConversationManager) :
  stage m <> lit "technical_questions" ->
  questions (evaluate_stage ai u m) = questions m
  /\ answered_count (evaluate_stage ai u m) = answered_count m.
Proof.
  intro Hs. apply str_eqb_neq in Hs. unfold evaluate_stage. rewrite Hs.
  split_ifs;
    try match goal with
        | |- context [_advance_stage ?s ?x] =>
            destruct (advance_stage_info s x) as (_ & -> & ->)
        end; auto.
Qed.

Lemma evaluate_stage_progress (ai u : str) (m : ConversationManager) :
  answered_count m <= length (questions m) ->
  let m' := evaluate_stage ai u m in
  answered_count m <= answered_count m'
  /\ answered_count m' <= answered_count m + 1
  /\ answered_count m' <= length (questions m')
  /\ (length (questions m) <= 5 -> length (questions m') <= 5).
Proof.
  intros Ha m'. subst m'.
  destruct (str_eqb (stage m) (lit "technical_questions")) eqn:Es.
  - apply str_eqb_eq in Es.
    destruct (evaluate_stage_in_questions ai u m Es) as [-> ->].
    pose proof (parse_questions_length ai) as Hp.
    destruct (questions m) as [|q qs] eqn:Hq.
    + simpl in Ha.
      destruct (_parse_questions ai) as [|p ps]; cbn [nonempty andb].
      * simpl. lia.
      * destruct (10 <? len u); simpl in *; lia.
    + cbn [nonempty andb]. destruct (10 <? len u); simpl in *; lia.
  - apply str_eqb_neq in Es.
    destruct (evaluate_stage_elsewhere ai u m Es) as [-> ->]. lia.
Qed.

Lemma submit_cases (order : list str) (u r : str) (st : SessionState) :
  manager (submit order u r st) = manager st
  \/ manager (submit order u r st)
     = process_ai_response r u (extract_and_update_info order u (manager st)).
Proof.
  unfold submit. destruct (conversation_ended st); [now left|].
  destruct u as [|c u]; [now left|].
  unfold handle_user_input. destruct (existsb _ HANDLER_EXIT_KEYWORDS).
  - left. cbn [manager]. destruct (get_farewell_message (manager st));
      [destruct (save_session_returns _)|]; reflexivity.
  - right. reflexivity.
Qed.

(** X4: the progress the sidebar shows is kept sound by every turn: when
    the answered count is within the number of questions, then after any
    submitted turn it still is, it has not gone down and has gone up by at
    most one; and a list of at most five questions stays one. *)
Theorem X4_progress_bounds (order : list str) (u r : str) (st : SessionState) :
  snd (qa_progress (manager st)) <= fst (qa_progress (manager st)) ->
  let before := qa_progress (manager st) in
  let after := qa_progress (manager (submit order u r st)) in
  snd after <= fst after
  /\ snd before <= snd after <= snd before + 1
  /\ (fst before <= 5 -> fst after <= 5).
Proof.
  unfold qa_progress. cbn [fst snd]. intro Ha.
  destruct (submit_cases order u r st) as [-> | ->]; [repeat split; auto; lia|].
  rewrite process_ai_response_answered, process_ai_response_questions.
  set (m1 := extract_and_update_info order u (manager st)).
  assert (H1 : answered_count m1 <= length (questions m1)) by exact Ha.
  destruct (evaluate_stage_progress r u m1 H1) as (A & B & C & D).
  change (answered_count m1) with (answered_count (manager st)) in A, B.
  change (questions m1) with (questions (manager st)) in D.
  repeat split; auto.
Qed.

Lemma X4_progress_bounds_witness :
  let after :=
    qa_progress
      (manager (submit TECH_KEYWORDS (lit "Closures capture their scope.")
                       (lit "Good.") (MkSession [] answering_manager false []))) in
  snd after <= fst after.
Proof.
  apply (X4_progress_bounds TECH_KEYWORDS (lit "Closures capture their scope.")
           (lit "Good.") (MkSession [] answering_manager false [])).
  simpl. lia.
Defined.

(** ** The last stage and the end of a session *)

Lemma extract_frame (order : list str) (u : str) (m : ConversationManager) :
  full_name (candidate_info (extract_and_update_info order u m))
  = full_name (candidate_info m).
Proof.
  unfold extract_and_update_info. cbn zeta.
  repeat match goal with
         | |- context [if ?b then _ else _] =>
             match type of b with bool => destruct b end
         | |- context [match ?x with Some _ => _ | None => _ end] => destruct x
         | |- context [match ?x with [] => _ | _ :: _ => _ end] => destruct x
         end; reflexivity.
Qed.

Lemma process_in_closing (ai u : str) (m : ConversationManager) :
  stage m = lit "closing" -> process_ai_response ai u m = m.
Proof.
  intro Hs. rewrite process_ai_response_late by (rewrite Hs; discriminate).
  unfold evaluate_stage. rewrite Hs. reflexivity.
Qed.

(** X5: closing is the last stage: a manager in stage closing is returned
    unchanged by the stage evaluation, and over every sequence of turns the
    stage stays closing and the name, the questions and the answered count
    stay as they are (only the extractor still fills e-mail, phone, years
    and tech stack). *)
Theorem X5_closing_is_final (order : list str) (turns : list (str * str))
    (st : SessionState) :
  stage (manager st) = lit "closing" ->
  (forall ai u, process_ai_response ai u (manager st) = manager st)
  /\ let m' := manager (run_turns order turns st) in
     stage m' = lit "closing"
     /\ full_name (candidate_info m') = full_name (candidate_info (manager st))
     /\ questions m' = questions (manager st)
     /\ answered_count m' = answered_count (manager st).
Proof.
  intro Hs. split; [intros ai u; now apply process_in_closing|].
  cbv zeta. revert st Hs.
  induction turns as [|[u r] turns IH]; intros st Hs; [repeat split; auto|].
  cbn [run_turns].
  assert (H : stage (manager (submit order u r st)) = lit "closing"
              /\ full_name (candidate_info (manager (submit order u r st)))
                 = full_name (candidate_info (manager st))
              /\ questions (manager (submit order u r st)) = questions (manager st)
              /\ answered_count (manager (submit order u r st))
                 = answered_count (manager st)).
  { destruct (submit_cases order u r st) as [-> | ->]; [repeat split; auto|].
    rewrite process_in_closing by exact Hs.
    repeat split; auto. apply extract_frame. }
  destruct H as (H1 & H2 & H3 & H4).
  destruct (IH _ H1) as (I1 & I2 & I3 & I4).
  repeat split; congruence.
Qed.

Lemma X5_closing_is_final_witness :
  stage
    (manager
       (run_turns TECH_KEYWORDS
          [(lit "One more thing about Python", lit "Question 1: Why do you ask?")]
          (MkSession [] closing_manager false [])))
  = lit "closing".
Proof.
  apply (proj2 (X5_closing_is_final TECH_KEYWORDS
                  [(lit "One more thing about Python", lit "Question 1: Why do you ask?")]
                  (MkSession [] closing_manager false []) eq_refl)).
Defined.

(** ** Fields are filled once *)

Lemma kept_refl (f : CandidateInfo -> option str) (i : CandidateInfo) : kept f i i.
Proof. intro H. reflexivity. Qed.

Lemma kept_trans (f : CandidateInfo -> option str) (i j k : CandidateInfo) :
  kept f i j -> kept f j k -> kept f i k.
Proof.
  intros H1 H2 Hi. rewrite <- (H1 Hi). apply H2. now rewrite (H1 Hi).
Qed.

Lemma prefix_of_trans (A : Type) (a b c : list A) :
  prefix_of a b -> prefix_of b c -> prefix_of a c.
Proof.
  intros [t ->] [t' ->]. exists (t ++ t'). now rewrite app_assoc.
Qed.

(** What [extract_and_update_info] does to the years of experience. *)
Lemma extract_years (order : list str) (u : str) (m : ConversationManager) :
  years_experience (candidate_info (extract_and_update_info order u m))
  = if truthy (years_experience (candidate_info m))
    then years_experience (candidate_info m)
    else match re_search YEARS_RE (strip u) with
         | Some x =>
             Some (match group 1 (captures x) with
                   | Some g => g
                   | None => lit "None"
                   end ++ lit " years")
         | None => years_experience (candidate_info m)
         end.
Proof.
  unfold extract_and_update_info. cbn zeta.
  match goal with
  | |- context [truthy (years_experience ?i2)] => set (I2 := i2)
  end.
  assert (H2 : years_experience I2 = years_experience (candidate_info m)).
  { subst I2.
    repeat match goal with
           | |- context [if ?b then _ else _] =>
               match type of b with bool => destruct b end
           | |- context [match ?x with Some _ => _ | None => _ end] => destruct x
           end; reflexivity. }
  rewrite H2.
  destruct (truthy (years_experience (candidate_info m))); cbn [negb];
    [| destruct (re_search YEARS_RE (strip u)) ];
    repeat match goal with
           | |- context [match ?x with [] => _ | _ :: _ => _ end] => destruct x
           end; cbn; auto.
Qed.

Lemma extract_keeps_fields (order : list str) (u : str) (m : ConversationManager) :
  let i := candidate_info m in
  let j := candidate_info (extract_and_update_info order u m) in
  full_name j = full_name i
  /\ kept email i j /\ kept phone i j /\ kept years_experience i j
  /\ desired_position j = desired_position i /\ location j = location i
  /\ prefix_of (tech_stack i) (tech_stack j).
Proof.
  cbv zeta. split; [apply extract_frame|].
  split; [intro H; now rewrite extract_email, H|].
  split; [intro H; now rewrite extract_phone, H|].
  split; [intro H; now rewrite extract_years, H|].
  destruct (extract_keeps_position order u m) as [-> ->].
  split; [reflexivity|]. split; [reflexivity|].
  rewrite extract_tech_stack. now eexists.
Qed.

Lemma process_keeps_fields (ai u : str) (m : ConversationManager) :
  let i := candidate_info m in
  let j := candidate_info (process_ai_response ai u m) in
  kept full_name i j
  /\ email j = email i /\ phone j = phone i
  /\ years_experience j = years_experience i
  /\ desired_position j = desired_position i /\ location j = location i
  /\ tech_stack j = tech_stack i.
Proof.
  cbv zeta. unfold process_ai_response. cbv zeta.
  rewrite (evaluate_stage_info ai u m).
  destruct (truthy (full_name (candidate_info m))) eqn:E; cbn [negb andb].
  - rewrite ?(evaluate_stage_info ai u m). repeat split; auto; intro; reflexivity.
  - split_ifs; cbn [candidate_info set_info]; rewrite ?(evaluate_stage_info ai u m);
      repeat split; auto; intro H; congruence.
Qed.

(** X6: first match wins.  Over every sequence of turns a name, e-mail
    address, phone number or years of experience that is populated keeps
    its value, the desired position and the location are never written at
    all, and the tech stack only grows at its end. *)
Theorem X6_fields_filled_once (order : list str) (turns : list (str * str))
    (st : SessionState) :
  let i := candidate_info (manager st) in
  let j := candidate_info (manager (run_turns order turns st)) in
  kept full_name i j /\ kept email i j /\ kept phone i j
  /\ kept years_experience i j
  /\ desired_position j = desired_position i /\ location j = location i
  /\ prefix_of (tech_stack i) (tech_stack j).
Proof.
  cbv zeta. revert st. induction turns as [|[u r] turns IH]; intro st.
  - cbn [run_turns]. repeat split; try apply kept_refl. exists []. now rewrite app_nil_r.
  - cbn [run_turns].
    assert (H : let i := candidate_info (manager st) in
                let j := candidate_info (manager (submit order u r st)) in
                kept full_name i j /\ kept email i j /\ kept phone i j
                /\ kept years_experience i j
                /\ desired_position j = desired_position i
                /\ location j = location i
                /\ prefix_of (tech_stack i) (tech_stack j)).
    { cbv zeta. destruct (submit_cases order u r st) as [-> | ->].
      - repeat split; try apply kept_refl. exists []. now rewrite app_nil_r.
      - destruct (extract_keeps_fields order u (manager st))
          as (E1 & E2 & E3 & E4 & E5 & E6 & E7).
        destruct (process_keeps_fields r u (extract_and_update_info order u (manager st)))
          as (P1 & P2 & P3 & P4 & P5 & P6 & P7).
        cbv zeta in *. unfold kept in *. rewrite P2, P3, P4, P5, P6, P7.
        repeat split; auto.
        intro H. rewrite <- E1 in H. rewrite (P1 H). exact E1. }
    cbv zeta in H. destruct H as (H1 & H2 & H3 & H4 & H5 & H6 & H7).
    destruct (IH (submit order u r st)) as (I1 & I2 & I3 & I4 & I5 & I6 & I7).
    repeat split.
    + eapply kept_trans; eassumption.
    + eapply kept_trans; eassumption.
    + eapply kept_trans; eassumption.
    + eapply kept_trans; eassumption.
    + congruence.
    + congruence.
    + eapply prefix_of_trans; eassumption.
Qed.

(** X7: from the initial session no sequence of turns gets past
    gathering_info: nothing ever writes the desired position or the
    location, so the test that all six fields are collected never passes,
    the question list stays empty and nothing is counted as answered. *)
Theorem X7_initial_session_stays_early (order : list str) (turns : list (str * str)) :
  let m := manager (run_turns order turns init_session) in
  (stage m = lit "greeting" \/ stage m = lit "gathering_info")
  /\ desired_position (candidate_info m) = None
  /\ location (candidate_info m) = None
  /\ qa_progress m = (0, 0).
Proof.
  cbv zeta.
  assert (H : forall st,
             early_stage (manager st) /\ qa_progress (manager st) = (0, 0) ->
             early_stage (manager (run_turns order turns st))
             /\ qa_progress (manager (run_turns order turns st)) = (0, 0)).
  { induction turns as [|[u r] turns IH]; intros st Hst; [exact Hst|].
    cbn [run_turns]. apply IH. destruct Hst as [He Hq].
    split; [now apply submit_early|].
    destruct (submit_cases order u r st) as [-> | ->]; [exact Hq|].
    unfold qa_progress in *.
    rewrite process_ai_response_answered, process_ai_response_questions.
    set (m1 := extract_and_update_info order u (manager st)).
    assert (Hs : stage m1 <> lit "technical_questions").
    { change (stage m1) with (stage (manager st)).
      destruct He as ([-> | ->] & _); discriminate. }
    destruct (evaluate_stage_elsewhere r u m1 Hs) as [-> ->]. exact Hq. }
  destruct (H init_session) as ((Hs & Hd & Hl) & Hq).
  - split; [|reflexivity]. repeat split; now left.
  - auto.
Qed.

(** ** The farewell *)

Lemma split_ws_from_nil (s cur : str) :
  split_ws_from cur s = [] <-> cur = [] /\ forallb is_space s = true.
Proof.
  revert cur. induction s as [|c t IH]; intros cur; simpl.
  - destruct cur; split; try tauto; try discriminate. intros [H _]. discriminate.
  - destruct (is_space c) eqn:Hc; simpl.
    + destruct cur as [|x cur].
      * rewrite IH. tauto.
      * split; [discriminate | intros [H _]; discriminate].
    + rewrite IH. split; [intros [H _]; discriminate | intros [_ H]; discriminate].
Qed.

Lemma split_ws_nil (s : str) : split_ws s = [] <-> forallb is_space s = true.
Proof. unfold split_ws. rewrite split_ws_from_nil. tauto. Qed.

Lemma is_space_case (c : ascii) :
  is_space (to_lower c) = is_space c /\ is_space (to_upper c) = is_space c.
Proof. destruct c as [[] [] [] [] [] [] [] []]; split; reflexivity. Qed.

Lemma title_from_spaces (s : str) (b : bool) :
  forallb is_space (title_from b s) = forallb is_space s.
Proof.
  revert b. induction s as [|c t IH]; intro b; [reflexivity|].
  simpl. rewrite IH. destruct (is_space_case c) as [L U].
  destruct b; now rewrite ?L, ?U.
Qed.

Lemma farewell_fails_iff (m : ConversationManager) :
  get_farewell_message m = None
  <-> exists n, full_name (candidate_info m) = Some n
                /\ n <> [] /\ forallb is_space n = true.
Proof.
  unfold get_farewell_message.
  destruct (full_name (candidate_info m)) as [[|c n]|] eqn:E; cbn [truthy].
  - change (negb (str_eqb (lit "there") (lit "there"))) with false. cbv iota.
    split; [discriminate|]. intros (n & H & Hn & _). injection H as <-. now elim Hn.
  - destruct (negb (str_eqb (c :: n) (lit "there"))) eqn:Et.
    + destruct (split_ws (c :: n)) as [|w ws] eqn:Es.
      * split; [|reflexivity]. intros _. exists (c :: n).
        split; [reflexivity|]. split; [discriminate|]. now apply split_ws_nil.
      * split; [discriminate|]. intros (n' & H & _ & Hsp). injection H as <-.
        apply split_ws_nil in Hsp. congruence.
    + split; [discriminate|]. intros (n' & H & _ & Hsp). injection H as <-.
      apply negb_false_iff, str_eqb_eq in Et. rewrite Et in Hsp. discriminate.
  - change (negb (str_eqb (lit "there") (lit "there"))) with false. cbv iota.
    split; [discriminate|]. intros (n & H & _). discriminate.
Qed.

Lemma process_name_usable (ai u : str) (m : ConversationManager) :
  name_usable m -> name_usable (process_ai_response ai u m).
Proof.
  unfold name_usable, process_ai_response. cbv zeta.
  rewrite (evaluate_stage_info ai u m). intro H.
  destruct (negb (truthy (full_name (candidate_info m))) && _);
    [|now rewrite (evaluate_stage_info ai u m)].
  destruct ((1 <=? length (split_ws (strip u))) && _ && _) eqn:E;
    [|now rewrite (evaluate_stage_info ai u m)].
  cbn [candidate_info set_info set_full_name full_name]. right.
  apply andb_true_iff in E. destruct E as [E _].
  apply andb_true_iff in E. destruct E as [E _]. apply Nat.leb_le in E.
  intro Hn. apply split_ws_nil in Hn. unfold title in Hn.
  rewrite title_from_spaces in Hn. apply split_ws_nil in Hn.
  rewrite Hn in E. simpl in E. lia.
Qed.

Lemma submit_name_usable (order : list str) (u r : str) (st : SessionState) :
  name_usable (manager st) -> name_usable (manager (submit order u r st)).
Proof.
  intro H. destruct (submit_cases order u r st) as [-> | ->]; [exact H|].
  apply process_name_usable. unfold name_usable in *.
  now rewrite extract_frame.
Qed.

(** X8: [get_farewell_message] fails (the IndexError of taking the first
    word) exactly when the stored name is not empty and made of white space
    only; a name stored by the program always has a word, so in a session
    started from scratch the farewell is always produced. *)
Theorem X8_farewell_never_fails :
  (forall m, get_farewell_message m = None
             <-> exists n, full_name (candidate_info m) = Some n
                           /\ n <> [] /\ forallb is_space n = true)
  /\ (forall order turns,
         exists first,
           get_farewell_message (manager (run_turns order turns init_session))
           = Some (farewell_text first)).
Proof.
  split; [exact farewell_fails_iff|].
  intros order turns.
  assert (H : forall st, name_usable (manager st) ->
                         name_usable (manager (run_turns order turns st))).
  { induction turns as [|[u r] turns IH]; intros st Hst; [exact Hst|].
    cbn [run_turns]. apply IH. now apply submit_name_usable. }
  specialize (H init_session I).
  set (m := manager (run_turns order turns init_session)) in *.
  destruct (get_farewell_message m) as [f|] eqn:E.
  - revert E. unfold get_farewell_message.
    destruct (negb (str_eqb _ (lit "there")));
      [destruct (split_ws _) as [|first ws]; [discriminate|] |];
      intro E; injection E as <-; eauto.
  - exfalso. apply farewell_fails_iff in E. destruct E as (n & En & Hn & Hsp).
    unfold name_usable in H. rewrite En in H.
    destruct H as [H|H]; [contradiction|]. now apply H, split_ws_nil.
Qed.

(** ** The end of a session *)

Lemma run_turns_ended (order : list str) (turns : list (str * str))
    (st : SessionState) :
  conversation_ended st = true -> run_turns order turns st = st.
Proof.
  intro H. induction turns as [|[u r] turns IH]; [reflexivity|].
  cbn [run_turns]. unfold submit. rewrite H. exact IH.
Qed.

(** X9: a submission with an exit keyword among its lower-cased words ends
    the session without touching the manager, and after it no sequence of
    submissions changes anything: no field, no message, no further save or
    completion call. *)
Theorem X9_exit_freezes_session (order : list str) (u r : str) (st : SessionState) :
  conversation_ended st = false ->
  exit_requested u = true ->
  let st' := submit order u r st in
  conversation_ended st' = true
  /\ manager st' = manager st
  /\ forall turns, run_turns order turns st' = st'.
Proof.
  intros He Hx st'.
  assert (H : conversation_ended st' = true /\ manager st' = manager st).
  { subst st'. unfold submit. rewrite He.
    destruct u as [|c u]; [discriminate|].
    unfold handle_user_input. unfold exit_requested in Hx. rewrite Hx.
    cbn [manager]. destruct (get_farewell_message (manager st));
      [destruct (save_session_returns _)|]; split; reflexivity. }
  destruct H as [H1 H2]. repeat split; auto.
  intro turns. now apply run_turns_ended.
Qed.

Lemma X9_exit_freezes_session_witness :
  run_turns TECH_KEYWORDS [(lit "wait, my email is jane@example.com", lit "Noted.")]
            (submit TECH_KEYWORDS (lit "ok BYE then") (lit "unused") jane_session)
  = submit TECH_KEYWORDS (lit "ok BYE then") (lit "unused") jane_session.
Proof.
  apply (X9_exit_freezes_session TECH_KEYWORDS (lit "ok BYE then") (lit "unused")
           jane_session eq_refl eq_refl).
Defined.

Lemma submit_trace (order : list str) (u r : str) (st : SessionState) :
  let st' := submit order u r st in
  st' = st
  \/ (conversation_ended st' = true /\ trace st' = trace st)
  \/ (conversation_ended st' = true
      /\ exists ms,
           trace st' = trace st ++ [SaveSession (candidate_info (manager st')) ms]
           /\ match email (candidate_info (manager st')) with
              | Some _ =>
                  exists fw,
                    messages st' = ms ++ [Msg (lit "assistant") fw]
                    /\ get_farewell_message (manager st') = Some fw
              | None => messages st' = ms
              end)
  \/ (conversation_ended st' = false
      /\ exists c, is_completion c = true /\ trace st' = trace st ++ [c]).
Proof.
  cbv zeta. unfold submit.
  destruct (conversation_ended st) eqn:He; [now left|].
  destruct u as [|c u]; [now left|].
  unfold handle_user_input.
  destruct (existsb _ HANDLER_EXIT_KEYWORDS).
  - cbn [manager messages trace].
    destruct (get_farewell_message (manager st)) as [fw|] eqn:Ef.
    + right. right. left. unfold save_session_returns.
      destruct (email (candidate_info (manager st))) as [e|] eqn:Ee;
        cbn [conversation_ended manager trace messages];
        (split; [reflexivity|]); eexists; (split; [reflexivity|]); rewrite Ee.
      * exists fw. split; [reflexivity|exact Ef].
      * reflexivity.
    + right. left. split; reflexivity.
  - right. right. right. cbn [conversation_ended trace messages manager].
    split; [reflexivity|]. eexists. split; [|reflexivity]. reflexivity.
Qed.

(** X10: the calls a session makes.  Over any sequence of submissions the
    trace grows by completion calls only, followed by at most one save
    call; a save call is the last call of the session, the session has
    then ended, and the call carries the profile as it is at the end and
    the message log as it is when the call is made.  With an e-mail
    address in the profile the farewell is appended to the log after the
    call; with none the call raises and the log stays as the call was
    given it. *)
Theorem X10_one_save_at_the_end (order : list str) (turns : list (str * str))
    (st : SessionState) :
  let st' := run_turns order turns st in
  exists cs tail,
    trace st' = trace st ++ cs ++ tail
    /\ forallb is_completion cs = true
    /\ (tail = []
        \/ exists ms,
             tail = [SaveSession (candidate_info (manager st')) ms]
             /\ conversation_ended st' = true
             /\ match email (candidate_info (manager st')) with
                | Some _ =>
                    exists fw,
                      messages st' = ms ++ [Msg (lit "assistant") fw]
                      /\ get_farewell_message (manager st') = Some fw
                | None => messages st' = ms
                end).
Proof.
  cbv zeta. revert st. induction turns as [|[u r] turns IH]; intro st.
  - exists [], []. rewrite !app_nil_r. cbn [run_turns]. auto.
  - cbn [run_turns].
    destruct (submit_trace order u r st)
      as [E | [[He Et] | [[He (ms & Et & Em)] | [He (c & Hc & Et)]]]].
    + cbv zeta in E. rewrite E. apply IH.
    + rewrite (run_turns_ended order turns _ He).
      exists [], []. rewrite !app_nil_r. auto.
    + rewrite (run_turns_ended order turns _ He).
      exists [], [SaveSession (candidate_info (manager (submit order u r st))) ms].
      split; [exact Et|]. split; [reflexivity|]. right. exists ms. auto.
    + destruct (IH (submit order u r st)) as (cs & tail & E & Hcs & Ht).
      exists (c :: cs), tail. split.
      * rewrite E, Et. now rewrite <- !app_assoc.
      * split; [simpl; now rewrite Hc | exact Ht].
Qed.

(** ** Literals and captures *)

Lemma matches_caps (r : regex) (st st' : mstate) :
  matches r st st' -> no_groups r = true -> m_caps st' = m_caps st.
Proof.
  induction 1 as [ st | p c t st E Hp | a b st st1 st2 _ IHa _ IHb
                 | a b st st' _ IH | a b st st' _ IH
                 | g hi p st | g lo hi p c t st st' E Hp Hb _ IH
                 | n a st st' _ IH | a st st' _ IH | st E | st E | st E ];
    simpl; intro Hn; try reflexivity; try discriminate.
  - apply andb_true_iff in Hn. destruct Hn. rewrite IHb, IHa; auto.
  - apply andb_true_iff in Hn. destruct Hn. auto.
  - apply andb_true_iff in Hn. destruct Hn. auto.
  - rewrite IH; auto.
Qed.

Lemma matches_literal_inv (s : str) (st st' : mstate) :
  matches (literal s) st st' -> m_rest st = s ++ m_rest st'.
Proof.
  revert st. induction s as [|c s IH]; intros st H; simpl in H.
  - inversion H; subst. reflexivity.
  - apply matches_seq_inv in H. destruct H as (s1 & H1 & H2).
    apply matches_chr_inv in H1. destruct H1 as (c' & E & Hc).
    apply is_chr_eq in Hc. subst c'. rewrite E. simpl. f_equal. now apply IH.
Qed.

Lemma matches_literal_intro (s : str) (prev : option ascii) (t : str)
    (caps : list (nat * str)) :
  matches (literal s) (MState prev (s ++ t) caps) (MState (prev_after prev s) t caps).
Proof.
  revert prev. induction s as [|c s IH]; intro prev; simpl.
  - constructor.
  - eapply M_Seq; [|apply IH].
    apply (@M_Chr (is_chr c) c (s ++ t) (MState prev (c :: s ++ t) caps)).
    + reflexivity.
    + apply chr_eqb_eq. reflexivity.
Qed.

Lemma matches_literal_ci_inv (s : str) (st st' : mstate) :
  matches (literal_ci s) st st' ->
  exists w, m_rest st = w ++ m_rest st' /\ lower w = lower s.
Proof.
  revert st. induction s as [|c s IH]; intros st H; simpl in H.
  - inversion H; subst. now exists [].
  - apply matches_seq_inv in H. destruct H as (s1 & H1 & H2).
    apply matches_chr_inv in H1. destruct H1 as (c' & E & Hc).
    apply chr_eqb_eq in Hc. destruct (IH _ H2) as (w & Ew & Lw).
    exists (c' :: w). split; [rewrite E, Ew; reflexivity|].
    simpl. now rewrite Hc, Lw.
Qed.

Lemma matches_literal_ci_intro (s w : str) (prev : option ascii) (t : str)
    (caps : list (nat * str)) :
  lower w = lower s ->
  matches (literal_ci s) (MState prev (w ++ t) caps)
          (MState (prev_after prev w) t caps).
Proof.
  revert w prev. induction s as [|c s IH]; intros [|x w] prev E; simpl in *;
    try discriminate.
  - constructor.
  - injection E as Ex Ew. eapply M_Seq; [|now apply IH].
    apply (@M_Chr (is_chr_ci c) x (w ++ t) (MState prev (x :: w ++ t) caps)).
    + reflexivity.
    + apply chr_eqb_eq. exact Ex.
Qed.

Lemma matches_alt_inv (a b : regex) (st st' : mstate) :
  matches (Alt a b) st st' -> matches a st st' \/ matches b st st'.
Proof. intro H. inversion H; subst; auto. Qed.

(** ** The years of experience *)

Lemma years_unit_inv (st st' : mstate) :
  matches (Alt (Seq (literal_ci (lit "year")) (opt (is_chr_ci "s")))
               (Seq (literal_ci (lit "yr")) (opt (is_chr_ci "s")))) st st' ->
  exists unit, m_rest st = unit ++ m_rest st'
               /\ In (lower unit) [lit "year"; lit "years"; lit "yr"; lit "yrs"].
Proof.
  intro H. apply matches_alt_inv in H.
  assert (Hs : forall w, forallb (is_chr_ci "s") w = true -> length w <= 1 ->
                         lower w = [] \/ lower w = lit "s").
  { intros [|c [|c' w]] Fw Lw; [now left | right | simpl in Lw; lia].
    simpl in Fw. rewrite andb_true_r in Fw. apply chr_eqb_eq in Fw.
    simpl. now rewrite Fw. }
  destruct H as [H|H]; apply matches_seq_inv in H; destruct H as (s1 & H1 & H2);
    apply matches_literal_ci_inv in H1; destruct H1 as (w & Ew & Lw);
    destruct (matches_rep_inv H2 eq_refl) as (o & Eo & Fo & _ & Lo & _);
    simpl in Lo; destruct (Hs o Fo Lo) as [Ho|Ho];
    exists (w ++ o);
    (split; [now rewrite Ew, Eo, app_assoc|]);
    unfold lower in *; rewrite map_app, Lw, Ho; simpl; tauto.
Qed.

Lemma years_matches_inv (st st' : mstate) :
  matches YEARS_RE st st' ->
  m_caps st = [] ->
  exists d ws unit,
    m_rest st = (d ++ ws ++ unit) ++ m_rest st'
    /\ 1 <= length d /\ forallb is_digit d = true
    /\ forallb is_space ws = true
    /\ In (lower unit) [lit "year"; lit "years"; lit "yr"; lit "yrs"]
    /\ group 1 (m_caps st') = Some d.
Proof.
  intros H Hc. unfold YEARS_RE, plus, star in H.
  apply matches_seq_inv in H. destruct H as (s1 & H1 & H).
  apply matches_seq_inv in H. destruct H as (s2 & H2 & H3).
  apply matches_group_inv in H1. destruct H1 as (s1' & H1 & ->).
  apply matches_group_inv in H3. destruct H3 as (s3' & H3 & ->).
  destruct (matches_rep_inv H1 eq_refl) as (d & Ed & Fd & Ld & _ & Cd & _).
  destruct (matches_rep_inv H2 eq_refl) as (ws & Ew & Fw & _ & _ & Cw & _).
  assert (C3 := matches_caps H3 eq_refl).
  destruct (years_unit_inv H3) as (unit & Eu & Hu).
  cbn [set_cap m_rest m_caps] in *.
  exists d, ws, unit. repeat split; auto.
  - rewrite Ed, Ew, Eu. now rewrite <- !app_assoc.
  - rewrite C3, Cw. cbn [group]. cbn [Nat.eqb].
    now rewrite (consumed_prefix st s1' d Ed).
Qed.

Lemma years_unit_split (unit : str) :
  In (lower unit) [lit "year"; lit "years"; lit "yr"; lit "yrs"] ->
  exists stem w o,
    (stem = lit "year" \/ stem = lit "yr")
    /\ unit = w ++ o /\ lower w = lower stem
    /\ forallb (is_chr_ci "s") o = true /\ length o <= 1.
Proof.
  intro Hu. simpl in Hu. destruct Hu as [Hu|[Hu|[Hu|[Hu|[]]]]].
  - exists (lit "year"), unit, []. rewrite app_nil_r. repeat split; auto.
  - exists (lit "year"), (firstn 4 unit), (skipn 4 unit). rewrite firstn_skipn.
    unfold lower in *.
    destruct unit as [|a [|b [|c [|e [|f [|g unit]]]]]]; try discriminate.
    simpl in *. injection Hu as E1 E2 E3 E4 E5.
    repeat split; auto.
    + rewrite <- E1, <- E2, <- E3, <- E4. reflexivity.
    + rewrite andb_true_r. apply chr_eqb_eq. symmetry. exact E5.
  - exists (lit "yr"), unit, []. rewrite app_nil_r. repeat split; auto.
  - exists (lit "yr"), (firstn 2 unit), (skipn 2 unit). rewrite firstn_skipn.
    unfold lower in *.
    destruct unit as [|a [|b [|c [|e unit]]]]; try discriminate.
    simpl in *. injection Hu as E1 E2 E3.
    repeat split; auto.
    + rewrite <- E1, <- E2. reflexivity.
    + rewrite andb_true_r. apply chr_eqb_eq. symmetry. exact E3.
Qed.

Lemma years_matches (s : str) (prev : option ascii) (post : str) :
  years_mention s ->
  exists st', matches YEARS_RE (MState prev (s ++ post) []) st'.
Proof.
  intros (d & ws & unit & -> & Ld & Fd & Fw & Hu).
  destruct (years_unit_split unit Hu) as (stem & w & o & Hstem & -> & Lw & Fo & Lo).
  eexists. unfold YEARS_RE, plus, star.
  rewrite <- !app_assoc.
  eapply M_Seq; [apply M_Group, matches_rep_intro; [exact Fd | exact Ld | exact I]|].
  cbn [set_cap m_prev m_rest m_caps].
  eapply M_Seq; [apply matches_rep_intro; [exact Fw | lia | exact I]|].
  apply M_Group.
  destruct Hstem as [-> | ->]; [apply M_AltL | apply M_AltR];
    (eapply M_Seq; [now apply matches_literal_ci_intro|]);
    (apply matches_rep_intro; [exact Fo | lia | exact Lo]).
Qed.

(** X11: when the years of experience are not set, the extractor looks at
    the leftmost place of the trimmed utterance where digits, optional
    white space and one of year, years, yr, yrs (in any letter case)
    start, and stores those digits followed by " years"; the digits occur
    in the utterance.  Without such a place the field is left as it is.
    The utterance is a text of ASCII characters. *)
Theorem X11_years_from_first_mention (order : list str) (u : str)
    (m : ConversationManager) :
  ascii_text u ->
  truthy (years_experience (candidate_info m)) = false ->
  let after :=
    years_experience (candidate_info (extract_and_update_info order u m)) in
  match re_search YEARS_RE (strip u) with
  | Some x =>
      exists d ws unit,
        group0 x = d ++ ws ++ unit
        /\ 1 <= length d /\ forallb is_digit d = true
        /\ forallb is_space ws = true
        /\ In (lower unit) [lit "year"; lit "years"; lit "yr"; lit "yrs"]
        /\ after = Some (d ++ lit " years")
        /\ occurs d u
        /\ exists pre post,
             strip u = pre ++ group0 x ++ post
             /\ forall pre' s' post',
                  years_mention s' -> strip u = pre' ++ s' ++ post' ->
                  length pre <= length pre'
  | None =>
      (forall s, years_mention s -> ~ occurs s (strip u))
      /\ after = years_experience (candidate_info m)
  end.
Proof.
  intros _ Hunset after. subst after. rewrite extract_years, Hunset.
  destruct (re_search YEARS_RE (strip u)) as [x|] eqn:Ex.
  - unfold re_search in Ex. apply search_from_spec in Ex.
    destruct Ex as (pre & rest & Erest & Hm & Hleft).
    apply match_at_sound in Hm. destruct Hm as (Hm & Er & Hcaps).
    destruct (years_matches_inv Hm eq_refl)
      as (d & ws & unit & E & Ld & Fd & Fw & Hu & Hg).
    cbn [m_rest] in E.
    assert (Eg : group0 x = d ++ ws ++ unit).
    { rewrite Er in E. now apply app_inv_tail in E. }
    exists d, ws, unit. rewrite Hcaps, Hg.
    repeat split; auto.
    + apply strip_occurs. exists pre, (ws ++ unit ++ m_rest (end_state x)).
      rewrite Erest, Er, Eg. now rewrite <- !app_assoc.
    + exists pre, (m_rest (end_state x)). split; [now rewrite <- Er|].
      intros pre' s' post' Hs' Eu'.
      destruct (le_lt_dec (length pre) (length pre')) as [|Hlt]; [assumption|].
      exfalso.
      destruct (years_matches (prev_after None pre') post' Hs') as (st' & Hst').
      apply match_at_complete in Hst'. apply Hst'. now apply Hleft.
  - split; [|reflexivity].
    intros s Hs (pre & post & Eu). unfold re_search in Ex.
    destruct (years_matches (prev_after None pre) post Hs) as (st' & Hst').
    apply match_at_complete in Hst'.
    apply (@search_from_complete YEARS_RE pre (s ++ post) None) in Hst'.
    rewrite <- Eu in Hst'. contradiction.
Qed.

Lemma X11_years_from_first_mention_witness :
  exists d,
    forallb is_digit d = true
    /\ years_experience
         (candidate_info
            (extract_and_update_info TECH_KEYWORDS
               (lit "since 2019, so about 6 YRS now") init_manager))
       = Some (d ++ lit " years").
Proof.
  pose proof (@X11_years_from_first_mention TECH_KEYWORDS
                (lit "since 2019, so about 6 YRS now") init_manager
                eq_refl eq_refl) as H.
  cbv zeta in H.
  destruct (re_search YEARS_RE (strip (lit "since 2019, so about 6 YRS now")))
    as [x|] eqn:Ex.
  - destruct H as (d & ws & unit & _ & _ & Fd & _ & _ & E & _).
    exists d. split; [exact Fd | exact E].
  - exfalso.
    assert (E : is_some (re_search YEARS_RE
                  (strip (lit "since 2019, so about 6 YRS now"))) = true)
      by (vm_compute; reflexivity).
    rewrite Ex in E. discriminate.
Defined.

(** ** Keywords of the tech stack *)

Lemma matches_wordb_inv (st st' : mstate) :
  matches WordB st st' -> st' = st /\ at_word_boundary st = true.
Proof. intro H. inversion H; subst. auto. Qed.

Lemma at_word_boundary_state (st : mstate) :
  at_word_boundary st = at_word_boundary (MState (m_prev st) (m_rest st) []).
Proof. reflexivity. Qed.

Lemma keyword_found_iff (k s : str) :
  is_some (re_search (keyword_re k) s) = true <-> whole_word k s.
Proof.
  split.
  - destruct (re_search (keyword_re k) s) as [x|] eqn:Ex; [intros _ | discriminate].
    unfold re_search in Ex. apply search_from_spec in Ex.
    destruct Ex as (pre & rest & Es & Hm & _).
    apply match_at_sound in Hm. destruct Hm as (Hm & _ & _).
    unfold keyword_re in Hm.
    apply matches_seq_inv in Hm. destruct Hm as (s1 & H1 & Hm).
    apply matches_seq_inv in Hm. destruct Hm as (s2 & H2 & H3).
    apply matches_wordb_inv in H1. destruct H1 as [-> B1].
    apply matches_wordb_inv in H3. destruct H3 as [_ B3].
    assert (E2 := @matches_literal_inv k _ _ H2). cbn [m_rest] in E2.
    destruct (matches_reads H2) as (w & Ew & Pw). cbn [m_rest m_prev] in Ew, Pw.
    assert (w = k) by (rewrite E2 in Ew; now apply app_inv_tail in Ew).
    subst w.
    exists pre, (m_rest s2). split; [now rewrite Es, E2|]. split.
    + unfold word_edge. now rewrite <- E2.
    + unfold word_edge. rewrite prev_after_app, <- Pw.
      now rewrite <- at_word_boundary_state.
  - intros (pre & post & -> & B1 & B2). unfold word_edge in B1, B2.
    assert (Hm : matches (keyword_re k)
                   (MState (prev_after None pre) (k ++ post) [])
                   (MState (prev_after (prev_after None pre) k) post [])).
    { unfold keyword_re. eapply M_Seq; [now apply M_WordB|].
      eapply M_Seq; [apply matches_literal_intro|].
      apply M_WordB. now rewrite <- prev_after_app. }
    apply match_at_complete in Hm.
    apply (@search_from_complete (keyword_re k) pre (k ++ post) None) in Hm.
    unfold re_search. destruct (search_from _ None _); [reflexivity | contradiction].
Qed.

(** X12: what the extractor adds to the tech stack.  After a call the
    stack holds its old entries and, in addition, exactly the display names
    (title case for more than three characters, upper case otherwise) of
    the keywords that occur in the lower-cased trimmed utterance with a
    word boundary on each side and whose lower-cased display name is not
    yet in the stack.  The utterance and the entries of the stack are
    texts of ASCII characters. *)
Theorem X12_tech_stack_entries (order : list str) (u : str)
    (m : ConversationManager) (t : str) :
  ascii_text u ->
  Forall ascii_text (tech_stack (candidate_info m)) ->
  In t (tech_stack (candidate_info (extract_and_update_info order u m)))
  <-> In t (tech_stack (candidate_info m))
      \/ ((exists k, In k order /\ t = display_name k
                     /\ whole_word k (lower (strip u)))
          /\ ~ In (lower t) (map lower (tech_stack (candidate_info m)))).
Proof.
  intros _ _.
  rewrite extract_tech_stack, in_app_iff. unfold new_techs, found_techs.
  rewrite filter_In, in_map_iff, negb_true_iff.
  assert (Hmem : mem_str (lower t) (map lower (tech_stack (candidate_info m))) = false
                 <-> ~ In (lower t) (map lower (tech_stack (candidate_info m)))).
  { rewrite <- mem_str_In.
    destruct (mem_str (lower t) (map lower (tech_stack (candidate_info m))));
      split; congruence. }
  rewrite Hmem.
  assert (Hk : (exists x, display_name x = t
                          /\ In x (filter (fun tech => is_some
                                      (re_search (keyword_re tech) (lower (strip u))))
                                    order))
               <-> exists k, In k order /\ t = display_name k
                             /\ whole_word k (lower (strip u))).
  { split.
    - intros (k & <- & Hin). apply filter_In in Hin. destruct Hin as [Hin Hf].
      exists k. repeat split; auto. now apply keyword_found_iff.
    - intros (k & Hin & -> & Hw). exists k. split; [reflexivity|].
      apply filter_In. split; [exact Hin | now apply keyword_found_iff]. }
  rewrite Hk. tauto.
Qed.

Lemma X12_tech_stack_entries_witness :
  In (lit "Python")
     (tech_stack (candidate_info
        (extract_and_update_info TECH_KEYWORDS experience_utterance init_manager))).
Proof.
  apply (proj2 (@X12_tech_stack_entries TECH_KEYWORDS experience_utterance
                  init_manager (lit "Python") eq_refl (Forall_nil _))).
  right. split.
  - exists (lit "python"). split; [apply mem_str_In; vm_compute; reflexivity|].
    split; [reflexivity|].
    exists (lit "i have 5 years of experience with "), (lit " and docker").
    repeat split.
  - intros [].
Defined.

(** ** The question parser *)

Lemma lstrip_head (s : str) (c : ascii) (t : str) :
  lstrip s = c :: t -> is_space c = false.
Proof.
  induction s as [|x s IH]; simpl; [discriminate|].
  destruct (is_space x) eqn:E; [exact IH|]. intro H. injection H as <- _. exact E.
Qed.

Lemma strip_trimmed (s : str) : trimmed (strip s).
Proof.
  unfold strip. split.
  - intros c t E.
    destruct (rstrip_spec (lstrip s)) as (b & Eb & _).
    rewrite E in Eb. simpl in Eb. now apply lstrip_head in Eb.
  - intros c t E. unfold rstrip in E.
    assert (E' : lstrip (rev (lstrip s)) = c :: rev t).
    { rewrite <- (rev_involutive (lstrip (rev (lstrip s)))), E, rev_app_distr.
      reflexivity. }
    now apply lstrip_head in E'.
Qed.

Lemma strip_In (s : str) (c : ascii) : In c (strip s) -> In c s.
Proof.
  intro H. destruct (strip_spec s) as (a & b & E & _).
  rewrite E. apply in_or_app. right. apply in_or_app. now left.
Qed.

Lemma is_space_NL : is_space NL = true.
Proof. reflexivity. Qed.

Lemma replace_NL_trimmed (s : str) :
  trimmed s -> trimmed (replace_chr NL " " s) /\ ~ In NL (replace_chr NL " " s).
Proof.
  intros [Hh Hl]. unfold replace_chr.
  assert (Hf : forall c, is_space c = false -> (if chr_eqb c NL then " "%char else c) = c).
  { intros c Hc. destruct (chr_eqb c NL) eqn:E; [|reflexivity].
    apply chr_eqb_eq in E. subst c. discriminate. }
  split; [split|].
  - intros c t E. destruct s as [|x s]; [discriminate|].
    simpl in E. injection E as <- _.
    rewrite (Hf x (Hh x s eq_refl)). now apply (Hh x s).
  - intros c t E.
    destruct (rev s) as [|x r] eqn:Er.
    + apply (f_equal (@rev ascii)) in Er. rewrite rev_involutive in Er. subst s.
      destruct t; discriminate.
    + assert (Es : s = rev r ++ [x]).
      { rewrite <- (rev_involutive s), Er. reflexivity. }
      rewrite Es, map_app in E. simpl in E.
      apply app_inj_tail in E. destruct E as [_ E].
      rewrite <- E, (Hf x (Hl x (rev r) Es)). now apply (Hl x (rev r)).
  - rewrite in_map_iff. intros (c & E & _).
    destruct (chr_eqb c NL) eqn:Ec; [discriminate|].
    apply chr_eqb_eq in E. congruence.
Qed.

Lemma split_on_from_no_sep (sep : ascii) (s cur : str) (piece : str) :
  ~ In sep cur -> In piece (split_on_from sep cur s) -> ~ In sep piece.
Proof.
  revert cur. induction s as [|c s IH]; intros cur Hc; simpl.
  - intros [<-|[]]. now rewrite <- in_rev.
  - destruct (chr_eqb c sep) eqn:E.
    + intros [<-|H]; [now rewrite <- in_rev | apply (IH []); auto].
    + apply IH. intros [->|H]; [|contradiction].
      rewrite (proj2 (chr_eqb_eq sep sep) eq_refl) in E. discriminate.
Qed.

Lemma split_on_from_chars (sep : ascii) (s cur : str) (piece : str) (c : ascii) :
  In piece (split_on_from sep cur s) -> In c piece -> In c cur \/ In c s.
Proof.
  revert cur. induction s as [|x s IH]; intros cur; simpl.
  - intros [<-|[]] H. left. now apply in_rev.
  - destruct (chr_eqb x sep).
    + intros [<-|H] Hc; [left; now apply in_rev|].
      destruct (IH [] H Hc) as [[]|H']. right. now right.
    + intros H Hc. destruct (IH (x :: cur) H Hc) as [[->|H']|H']; auto.
Qed.

Lemma sub_from_chars (r : regex) (rest : str) :
  forall prev skip c, In c (sub_from r prev rest skip) -> In c rest.
Proof.
  induction rest as [|x rest IH]; intros prev skip c; simpl.
  - destruct skip; [destruct (match_at r prev [])|]; intros [].
  - destruct skip as [|n].
    + destruct (match_at r prev (x :: rest)) as [m|].
      * destruct (length (group0 m)).
        -- intros [<-|H]; [now left | right; eapply IH; eassumption].
        -- intro H. right. eapply IH; eassumption.
      * intros [<-|H]; [now left | right; eapply IH; eassumption].
    + intro H. right. eapply IH; eassumption.
Qed.

Lemma numbered_lines_In (lines : list str) (q : str) :
  In q (numbered_lines lines) ->
  exists line, In line lines
               /\ q = strip (re_sub_empty NUMBERING_RE line)
               /\ q <> []
               /\ re_match NUMBERED_LINE_RE line <> None.
Proof.
  induction lines as [|line lines IH]; simpl; [intros []|].
  destruct (re_match NUMBERED_LINE_RE line) eqn:Em; cbn [is_some].
  - destruct (strip (re_sub_empty NUMBERING_RE line)) as [|c t] eqn:Es.
    + intro H. destruct (IH H) as (l & Hl & R). exists l. split; [now right | exact R].
    + intros [<-|H].
      * exists line. split; [now left|]. rewrite Em.
        repeat split; auto; discriminate.
      * destruct (IH H) as (l & Hl & R). exists l. split; [now right | exact R].
  - intro H. destruct (IH H) as (l & Hl & R). exists l. split; [now right | exact R].
Qed.

Lemma In_firstn (A : Type) (n : nat) (l : list A) (x : A) :
  In x (firstn n l) -> In x l.
Proof.
  revert l. induction n as [|n IH]; intros [|y l]; simpl; try tauto.
  intros [->|H]; auto.
Qed.

(** X13: what [_parse_questions] returns: at most five questions, each of
    them non-empty, free of line feeds, and without white space at its
    start or end. *)
Theorem X13_parsed_questions_are_clean (text : str) :
  length (_parse_questions text) <= 5
  /\ forall q, In q (_parse_questions text) ->
               q <> [] /\ ~ In NL q /\ trimmed q.
Proof.
  split; [apply parse_questions_length|].
  intros q Hq. unfold _parse_questions in Hq. cbv zeta in Hq.
  apply In_firstn in Hq.
  destruct (map (fun q0 => replace_chr NL " " (strip q0))
                (filter (fun q0 => 10 <? len (strip q0))
                        (re_findall QUESTION_RE text))) as [|p ps] eqn:Ep.
  - apply numbered_lines_In in Hq. destruct Hq as (line & Hl & -> & Hn & _).
    split; [exact Hn|]. split; [|apply strip_trimmed].
    intro Hin. apply strip_In in Hin. unfold re_sub_empty in Hin.
    apply sub_from_chars in Hin.
    unfold split_on in Hl. now apply (split_on_from_no_sep NL text [] line (fun f => f)).
  - rewrite <- Ep in Hq. apply in_map_iff in Hq. destruct Hq as (q0 & <- & Hq0).
    apply filter_In in Hq0. destruct Hq0 as [_ Hlen]. apply Nat.ltb_lt in Hlen.
    pose proof (len_le_length (strip q0)) as Hle.
    destruct (replace_NL_trimmed (strip_trimmed q0)) as [Ht Hn].
    split; [|split; assumption].
    intro E. apply (f_equal (@length ascii)) in E.
    unfold replace_chr in E. rewrite length_map in E. simpl in E. lia.
Qed.

(** *** Text without digits *)

Lemma matches_rest_suffix (r : regex) (st st' : mstate) (c : ascii) :
  matches r st st' -> In c (m_rest st') -> In c (m_rest st).
Proof.
  intros H Hc. destruct (matches_reads H) as (w & E & _).
  rewrite E. apply in_or_app. now right.
Qed.

Lemma plus_digit_needs_digit (st st' : mstate) :
  matches (plus is_digit) st st' -> ~ digit_free (m_rest st).
Proof.
  intros H Hf. destruct (matches_rep_inv H eq_refl) as (w & E & Fw & Lw & _).
  destruct w as [|c w]; [simpl in Lw; lia|].
  simpl in Fw. apply andb_true_iff in Fw. destruct Fw as [Fc _].
  rewrite (Hf c) in Fc; [discriminate|]. rewrite E. now left.
Qed.

Lemma question_marker_needs_digit (st st' : mstate) :
  matches question_marker st st' -> ~ digit_free (m_rest st).
Proof.
  unfold question_marker. intros H Hf.
  apply matches_seq_inv in H. destruct H as (s1 & H1 & H).
  apply matches_seq_inv in H. destruct H as (s2 & H2 & H3).
  apply (plus_digit_needs_digit H3). intros c Hc. apply Hf.
  apply (@matches_rest_suffix _ _ _ c H1), (@matches_rest_suffix _ _ _ c H2). exact Hc.
Qed.

Lemma question_needs_digit (prev : option ascii) (rest : str) :
  digit_free rest -> match_at QUESTION_RE prev rest = None.
Proof.
  intro Hf. destruct (match_at QUESTION_RE prev rest) as [x|] eqn:E; [|reflexivity].
  exfalso. apply match_at_sound in E. destruct E as (Hm & _).
  unfold QUESTION_RE in Hm.
  apply matches_seq_inv in Hm. destruct Hm as (s1 & H1 & _).
  apply matches_seq_inv in H1. destruct H1 as (s2 & H1 & _).
  exact (question_marker_needs_digit H1 Hf).
Qed.

Lemma numbered_line_needs_digit (line : str) :
  digit_free line -> re_match NUMBERED_LINE_RE line = None.
Proof.
  intro Hf. unfold re_match.
  destruct (match_at NUMBERED_LINE_RE None line) as [x|] eqn:E; [|reflexivity].
  exfalso. apply match_at_sound in E. destruct E as (Hm & _).
  unfold NUMBERED_LINE_RE, NUMBERING_RE in Hm.
  apply matches_seq_inv in Hm. destruct Hm as (s0 & Hm & _).
  apply matches_seq_inv in Hm. destruct Hm as (s1 & H1 & Hm).
  apply matches_seq_inv in Hm. destruct Hm as (s2 & H2 & Hm).
  apply matches_seq_inv in Hm. destruct Hm as (s3 & H3 & Hm).
  apply matches_seq_inv in Hm. destruct Hm as (s4 & H4 & Hm).
  apply matches_seq_inv in Hm. destruct Hm as (s5 & H5 & _).
  apply (plus_digit_needs_digit H5). intros c Hc. apply Hf.
  apply (@matches_rest_suffix _ _ _ c H1), (@matches_rest_suffix _ _ _ c H2),
        (@matches_rest_suffix _ _ _ c H3), (@matches_rest_suffix _ _ _ c H4).
  exact Hc.
Qed.

Lemma findall_needs_digit (rest : str) :
  digit_free rest ->
  forall prev skip, findall_from QUESTION_RE prev rest skip = [].
Proof.
  induction rest as [|c rest IH]; intros Hf prev skip; cbn [findall_from].
  - destruct skip; [|reflexivity].
    now rewrite (question_needs_digit prev Hf).
  - assert (Hf' : digit_free rest) by (intros x Hx; apply Hf; now right).
    destruct skip; [|now apply IH].
    rewrite (question_needs_digit prev Hf). now apply IH.
Qed.

(** X14: a text of ASCII characters without any digit yields no
    question: both strategies of [_parse_questions] need a number, after
    the word question or at the start of a line. *)
Theorem X14_no_digit_no_question (text : str) :
  ascii_text text ->
  (forall c, In c text -> is_digit c = false) ->
  _parse_questions text = [].
Proof.
  intros _ Hf. unfold _parse_questions, re_findall. cbv zeta.
  rewrite (findall_needs_digit Hf). cbn [filter map].
  assert (Hn : forall lines, (forall l, In l lines -> digit_free l) ->
                             numbered_lines lines = []).
  { induction lines as [|l lines IH]; intro Hl; [reflexivity|].
    simpl. rewrite (numbered_line_needs_digit (Hl l (or_introl eq_refl))).
    cbn [is_some]. apply IH. intros l' H'. apply Hl. now right. }
  rewrite Hn; [reflexivity|].
  intros l Hl c Hc. apply Hf.
  destruct (split_on_from_chars NL text [] l c Hl Hc) as [[]|H]. exact H.
Qed.

Lemma X14_no_digit_no_question_witness :
  _parse_questions (lit "Sure! Question: what is a closure, and why use it?") = [].
Proof.
  apply (@X14_no_digit_no_question
           (lit "Sure! Question: what is a closure, and why use it?") eq_refl).
  intros c Hc.
  assert (H : forallb (fun x => negb (is_digit x))
                (lit "Sure! Question: what is a closure, and why use it?") = true)
    by (vm_compute; reflexivity).
  rewrite forallb_forall in H. apply negb_true_iff. now apply H.
Defined.

(** ** Redaction *)

Lemma occurs_cons (p : str) (c : ascii) (s : str) :
  occurs p (c :: s) <-> starts_with p (c :: s) = true \/ occurs p s.
Proof.
  rewrite <- !contains_spec. cbn [contains]. apply orb_true_iff.
Qed.

Lemma occurs_nil (p : str) : occurs p [] -> p = [].
Proof.
  intros (pre & post & E). symmetry in E.
  apply app_eq_nil in E. destruct E as [_ E]. now apply app_eq_nil in E.
Qed.

Lemma starts_with_nil (p : str) : starts_with p [] = true -> p = [].
Proof. destruct p; [reflexivity | discriminate]. Qed.

(** A text free of the opening bracket that starts the output of a
    replacement by [REDACTED] starts its input as well. *)
Lemma replace_from_prefix (old : str) (s w : str) :
  ~ In "["%char w ->
  starts_with w (replace_from old REDACTED s 0) = true ->
  starts_with w s = true.
Proof.
  revert w. induction s as [|c t IH]; intros w Hw H.
  - simpl in H. apply starts_with_nil in H. now subst.
  - destruct w as [|x w]; [reflexivity|].
    cbn [replace_from] in H. destruct (starts_with old (c :: t)).
    + exfalso. simpl in H. apply andb_true_iff in H. destruct H as [H _].
      apply chr_eqb_eq in H. apply Hw. now left.
    + simpl in H. apply andb_true_iff in H. destruct H as [H1 H2].
      simpl. rewrite H1. simpl. apply IH; [|exact H2].
      intro Hin. apply Hw. now right.
Qed.

Lemma starts_with_before_bracket (w a tail : str) :
  ~ In "]"%char w ->
  starts_with w (a ++ "]"%char :: tail) = true ->
  exists a', a = w ++ a'.
Proof.
  revert w. induction a as [|c a IH]; intros w Hw H.
  - destruct w as [|x w]; [now exists []|].
    simpl in H. apply andb_true_iff in H. destruct H as [H _].
    apply chr_eqb_eq in H. exfalso. apply Hw. now left.
  - destruct w as [|x w]; [now exists (c :: a)|].
    simpl in H. apply andb_true_iff in H. destruct H as [H1 H2].
    apply chr_eqb_eq in H1. subst x.
    destruct (IH w (fun Hin => Hw (or_intror Hin)) H2) as (a' & ->).
    now exists a'.
Qed.

Lemma no_start_in_REDACTED (w pre a tail : str) :
  redactable w ->
  REDACTED = pre ++ a -> a <> [] ->
  starts_with w (a ++ tail) = false.
Proof.
  intros (Hn & Hl & Hr & Ho) E Ha.
  destruct (starts_with w (a ++ tail)) eqn:Es; [exfalso | reflexivity].
  destruct pre as [|p0 pre].
  - (* the occurrence would start at the opening bracket *)
    simpl in E. subst a. destruct w as [|x w]; [now apply Hn|].
    simpl in Es. apply andb_true_iff in Es. destruct Es as [Es _].
    apply chr_eqb_eq in Es. apply Hl. now left.
  - (* the occurrence would start inside the word or at the closing bracket *)
    assert (Hs : exists pre' a', lit "REDACTED" = pre' ++ a' /\ a = a' ++ ["]"%char]).
    { unfold REDACTED in E. simpl in E. injection E as _ E.
      do 9 (destruct pre as [|? pre];
            [ simpl in E; subst a;
              match goal with
              | |- exists pre' a', _ = pre' ++ a' /\ ?x = _ =>
                  exists (firstn (8 - (length x - 1)) (lit "REDACTED")),
                         (skipn (8 - (length x - 1)) (lit "REDACTED"))
              end; split; reflexivity
            | simpl in E; injection E as _ E ]).
      destruct pre; [simpl in E; subst a; now elim Ha | discriminate]. }
    destruct Hs as (pre' & a' & E' & ->).
    rewrite <- app_assoc in Es. simpl in Es.
    destruct (starts_with_before_bracket w a' tail Hr Es) as (a'' & ->).
    apply Ho. exists pre', a''. exact E'.
Qed.

Lemma occurs_after_REDACTED (w out : str) :
  redactable w -> occurs w (REDACTED ++ out) -> occurs w out.
Proof.
  intros Hw.
  assert (H : forall x pre, REDACTED = pre ++ x -> occurs w (x ++ out) -> occurs w out).
  { induction x as [|c x IH]; intros pre E Ho; [exact Ho|].
    cbn [app] in Ho. apply occurs_cons in Ho. destruct Ho as [Hs|Ho].
    - change (c :: x ++ out) with ((c :: x) ++ out) in Hs.
      rewrite (@no_start_in_REDACTED w pre (c :: x) out Hw E) in Hs; discriminate.
    - apply (IH (pre ++ [c])); [|exact Ho]. now rewrite <- app_assoc. }
  apply (H REDACTED []). reflexivity.
Qed.

Lemma shadowed_tail (old w : str) (c : ascii) (t : str) :
  shadowed old w (c :: t) -> shadowed old w t.
Proof. intros H pre t' E. apply (H (c :: pre)). now rewrite E. Qed.

(** After the occurrences of [old] are replaced by [REDACTED], a
    redactable text that started nowhere else in the input starts nowhere
    in the output. *)
Lemma replace_from_removes (old w : str) (s : str) :
  redactable w ->
  forall skip, shadowed old w s ->
               ~ occurs w (replace_from old REDACTED s skip).
Proof.
  intros Hw. induction s as [|c t IH]; intros skip Hs Ho.
  - simpl in Ho. apply occurs_nil in Ho. now apply (proj1 Hw).
  - assert (Ht := shadowed_tail Hs).
    cbn [replace_from] in Ho. destruct skip as [|n]; [|exact (IH n Ht Ho)].
    destruct (starts_with old (c :: t)) eqn:Eo.
    + apply (occurs_after_REDACTED Hw) in Ho. exact (IH _ Ht Ho).
    + apply occurs_cons in Ho. destruct Ho as [Hst|Ho]; [|exact (IH 0 Ht Ho)].
      assert (Hst' : starts_with w (replace_from old REDACTED (c :: t) 0) = true).
      { cbn [replace_from]. now rewrite Eo. }
      apply replace_from_prefix in Hst'; [|exact (proj1 (proj2 Hw))].
      rewrite (Hs [] (c :: t) eq_refl Eo) in Hst'. discriminate.
Qed.

Lemma replace_removes (old w s : str) :
  redactable w -> old <> [] ->
  (w = old \/ ~ occurs w s) ->
  ~ occurs w (replace old REDACTED s).
Proof.
  intros Hw Ho H. unfold replace. destruct old as [|c old]; [now elim Ho|].
  apply replace_from_removes; [exact Hw|].
  intros pre t E Hn. destruct H as [->|H]; [exact Hn|].
  destruct (starts_with w t) eqn:Es; [|reflexivity].
  exfalso. apply H. apply starts_with_spec in Es. destruct Es as (post & ->).
  now exists pre, post.
Qed.

Lemma replace_from_absent (old new s : str) :
  old <> [] -> ~ occurs old s -> replace_from old new s 0 = s.
Proof.
  intros Hn. induction s as [|c t IH]; intro H; [reflexivity|].
  cbn [replace_from]. destruct (starts_with old (c :: t)) eqn:E.
  - exfalso. apply H. apply occurs_cons. now left.
  - f_equal. apply IH. intro Ho. apply H. apply occurs_cons. now right.
Qed.

Lemma sensitive_values_spec (info : CandidateInfo) (w : str) :
  In w (sensitive_values info)
  <-> w <> [] /\ (email info = Some w \/ phone info = Some w).
Proof.
  unfold sensitive_values. simpl. rewrite app_nil_r, in_app_iff.
  destruct (email info) as [[|a e]|], (phone info) as [[|b p]|]; simpl;
    split; intros H;
    repeat match goal with
           | H : _ \/ _ |- _ => destruct H
           | H : _ /\ _ |- _ => destruct H
           | H : False |- _ => destruct H
           | H : Some _ = Some _ |- _ => injection H as H
           | H : None = Some _ |- _ => discriminate H
           end; subst;
    try (split; [discriminate | auto]); auto; try congruence.
Qed.

Lemma sanitise_fold_removes (l : list str) (w content : str) :
  (forall s, In s l -> s <> []) ->
  redactable w ->
  (In w l \/ ~ occurs w content) ->
  ~ occurs w (fold_left (fun c s => replace s REDACTED c) l content).
Proof.
  revert content. induction l as [|s l IH]; intros content Hl Hw H; simpl.
  - destruct H as [[]|H]. exact H.
  - apply IH; [intros s' H'; apply Hl; now right | exact Hw |].
    destruct H as [[->|H]|H].
    + right. apply replace_removes; auto. apply Hl. now left.
    + now left.
    + right. apply replace_removes; auto. apply Hl. now left.
Qed.

Lemma sanitise_fold_absent (l : list str) (content : str) :
  (forall s, In s l -> s <> [] /\ ~ occurs s content) ->
  fold_left (fun c s => replace s REDACTED c) l content = content.
Proof.
  induction l as [|s l IH]; intro H; simpl; [reflexivity|].
  destruct (H s (or_introl eq_refl)) as [Hn Ho].
  assert (E : replace s REDACTED content = content).
  { unfold replace. destruct s as [|c s]; [now elim Hn|].
    now apply replace_from_absent. }
  rewrite E. apply IH. intros s' H'. apply H. now right.
Qed.

(** X15: the sanitised transcript has as many messages as the log, with
    the same roles in the same order, and a message whose content holds
    neither the stored e-mail address nor the stored phone number is
    copied unchanged (so a name in it stays readable); with neither field
    set the transcript is the log itself. *)
Theorem X15_sanitise_keeps_the_rest (msgs : list message) (info : CandidateInfo) :
  map role (_sanitise_transcript msgs info) = map role msgs
  /\ (forall msg, In msg msgs ->
        (forall s, In s (sensitive_values info) -> ~ occurs s (content msg)) ->
        In msg (_sanitise_transcript msgs info))
  /\ (sensitive_values info = [] -> _sanitise_transcript msgs info = msgs).
Proof.
  unfold _sanitise_transcript. split; [|split].
  - rewrite map_map. reflexivity.
  - intros msg Hin Hs. apply in_map_iff. exists msg. split; [|exact Hin].
    rewrite sanitise_fold_absent; [now destruct msg|].
    intros s H. split; [|now apply Hs].
    apply sensitive_values_spec in H. tauto.
  - intros ->. simpl. rewrite <- (map_id msgs) at 2. apply map_ext.
    intro msg. now destruct msg.
Qed.

Lemma redaction_removes (msgs : list message) (info : CandidateInfo)
    (w : str) (msg : message) :
  (email info = Some w \/ phone info = Some w) ->
  redactable w ->
  In msg (_sanitise_transcript msgs info) ->
  ~ occurs w (content msg).
Proof.
  intros Hw Hr Hin. unfold _sanitise_transcript in Hin.
  apply in_map_iff in Hin. destruct Hin as (m0 & <- & _). cbn [content].
  apply sanitise_fold_removes; [|exact Hr|].
  - intros s Hs. apply sensitive_values_spec in Hs. tauto.
  - left. apply sensitive_values_spec. split; [exact (proj1 Hr) | exact Hw].
Qed.

(** X16: redaction removes what it is meant to remove: when a stored
    e-mail address or phone number is not empty, has no square bracket and
    is not part of the word REDACTED, no content of the sanitised
    transcript contains it, whatever the messages were and whichever of
    the two values is replaced first. *)
Theorem X16_sanitise_removes_contacts (msgs : list message) (info : CandidateInfo)
    (w : str) (msg : message) :
  (email info = Some w \/ phone info = Some w) ->
  redactable w ->
  In msg (_sanitise_transcript msgs info) ->
  ~ occurs w (content msg).
Proof.
  intros Hw Hr Hin Ho.
  exact (@redaction_removes msgs info w msg Hw Hr Hin Ho).
Qed.

Lemma X16_sanitise_removes_contacts_witness :
  contains (lit "jane@example.com")
           (content (hd (Msg [] []) (_sanitise_transcript contact_log contact_info)))
  = false.
Proof.
  destruct (contains (lit "jane@example.com")
              (content (hd (Msg [] []) (_sanitise_transcript contact_log contact_info))))
    eqn:E; [exfalso | reflexivity].
  apply contains_spec in E. revert E.
  apply (@X16_sanitise_removes_contacts contact_log contact_info
           (lit "jane@example.com")
           (hd (Msg [] []) (_sanitise_transcript contact_log contact_info))
           (or_introl eq_refl)).
  - split; [discriminate|]. split; [|split].
    + intro H. simpl in H. intuition discriminate.
    + intro H. simpl in H. intuition discriminate.
    + intro H. apply contains_spec in H. vm_compute in H. discriminate.
  - left. reflexivity.
Defined.

(** *** The contact fields of a session *)

Lemma email_sets (c : ascii) :
  email_domain c = true \/ is_alpha c = true -> email_local c = true.
Proof.
  destruct c as [[] [] [] [] [] [] [] []]; vm_compute; intros [H|H];
    try reflexivity; discriminate.
Qed.

Lemma email_address_redactable (e : str) : email_address e -> redactable e.
Proof.
  intros (l & d & t & -> & Ll & Fl & Ld & Fd & Lt & Ft).
  assert (Hc : forall c, In c (l ++ "@"%char :: d ++ "."%char :: t) ->
                         email_local c = true \/ c = "@"%char).
  { intros c Hc. rewrite in_app_iff in Hc. simpl in Hc. rewrite in_app_iff in Hc.
    simpl in Hc. rewrite forallb_forall in Fl, Fd, Ft.
    destruct Hc as [H|[H|[H|[H|H]]]].
    - left. apply Fl, H.
    - right. now symmetry.
    - left. apply email_sets, or_introl, Fd, H.
    - left. subst c. reflexivity.
    - left. apply email_sets, or_intror, Ft, H. }
  split; [destruct l; [simpl in Ll; lia | discriminate]|].
  split; [|split].
  - intro H. destruct (Hc _ H) as [H'|H']; discriminate.
  - intro H. destruct (Hc _ H) as [H'|H']; discriminate.
  - intros (pre & post & E).
    assert (Hin : In "@"%char (lit "REDACTED")).
    { rewrite E. apply in_or_app. right. apply in_or_app. left.
      apply in_or_app. right. now left. }
    simpl in Hin. intuition discriminate.
Qed.

Lemma phone_like_redactable (p : str) : phone_like p -> redactable p.
Proof.
  intros [Hc Hd].
  assert (Hex : exists c, In c p /\ is_digit c = true).
  { unfold count_digits in Hd. destruct (filter is_digit p) as [|c f] eqn:E;
      [simpl in Hd; lia|].
    exists c. apply filter_In. rewrite E. now left. }
  destruct Hex as (c0 & Hin0 & Hd0).
  split; [intros ->; destruct Hin0|]. split; [|split].
  - intro H. destruct (Hc _ H) as [H'|H']; discriminate.
  - intro H. destruct (Hc _ H) as [H'|H']; discriminate.
  - intros (pre & post & E).
    assert (Hin : In c0 (lit "REDACTED")).
    { rewrite E. apply in_or_app. right. apply in_or_app. now left. }
    simpl in Hin.
    repeat (destruct Hin as [Hin|Hin]; [subst c0; discriminate|]). destruct Hin.
Qed.

Lemma extract_contact_well_formed (order : list str) (u : str)
    (m : ConversationManager) :
  contact_well_formed (candidate_info m) ->
  contact_well_formed (candidate_info (extract_and_update_info order u m)).
Proof.
  intros [He Hp]. split.
  - intros e. rewrite extract_email.
    destruct (truthy (email (candidate_info m))); [apply He|].
    destruct (re_search EMAIL_RE (strip u)) as [x|] eqn:Ex; [|apply He].
    intro H. injection H as <-.
    unfold re_search in Ex. apply search_from_spec in Ex.
    destruct Ex as (pre & rest & _ & Hm & _).
    apply match_at_sound in Hm. destruct Hm as (Hm & Er & _).
    apply email_matches_inv in Hm.
    now rewrite (@consumed_prefix (MState (prev_after None pre) rest [])
                   (end_state x) (group0 x) Er) in Hm.
  - intros p. rewrite extract_phone.
    destruct (truthy (phone (candidate_info m))); [apply Hp|].
    destruct (re_search PHONE_RE (strip u)) as [x|] eqn:Ex; [|apply Hp].
    destruct (7 <=? count_digits (strip (group0 x))) eqn:E7; [|apply Hp].
    intro H. injection H as <-. apply Nat.leb_le in E7. split; [|exact E7].
    unfold re_search in Ex. apply search_from_spec in Ex.
    destruct Ex as (pre & rest & _ & Hm & _).
    apply match_at_sound in Hm. destruct Hm as (Hm & Er & _).
    apply phone_matches_inv in Hm.
    rewrite (@consumed_prefix (MState (prev_after None pre) rest [])
               (end_state x) (group0 x) Er) in Hm.
    destruct Hm as (sign & w & Eg & Hsign & Fw & _).
    intros c Hc. apply strip_In in Hc. rewrite Eg, in_app_iff in Hc.
    rewrite forallb_forall in Fw.
    destruct Hc as [Hc|Hc]; [|left; now apply Fw].
    destruct Hsign as [-> | ->]; [destruct Hc|].
    destruct Hc as [<-|[]]. now right.
Qed.

Lemma submit_contact_well_formed (order : list str) (u r : str) (st : SessionState) :
  contact_well_formed (candidate_info (manager st)) ->
  contact_well_formed (candidate_info (manager (submit order u r st))).
Proof.
  intro H. destruct (submit_cases order u r st) as [-> | ->]; [exact H|].
  apply (extract_contact_well_formed order u) in H.
  destruct (process_keeps_fields r u (extract_and_update_info order u (manager st)))
    as (_ & Pe & Pp & _).
  cbv zeta in Pe, Pp. destruct H as [He Hp].
  split; intro x; [rewrite Pe; apply He | rewrite Pp; apply Hp].
Qed.

(** X17: in every session started from scratch whose utterances are
    texts of ASCII characters the stored e-mail address,
    if any, has the shape local@domain.tld and the stored phone number, if
    any, is made of characters of the phone pattern with at least seven
    digits; hence the sanitiser removes both for good: whatever message
    log is sanitised with the profile of such a session, no content of the
    result contains the stored address or the stored number. *)
Theorem X17_session_contacts_are_redacted (order : list str)
    (turns : list (str * str)) (msgs : list message) :
  (forall u r, In (u, r) turns -> ascii_text u) ->
  let info := candidate_info (manager (run_turns order turns init_session)) in
  (forall e, email info = Some e -> email_address e)
  /\ (forall p, phone info = Some p -> phone_like p)
  /\ forall msg w,
       In msg (_sanitise_transcript msgs info) ->
       email info = Some w \/ phone info = Some w ->
       ~ occurs w (content msg).
Proof.
  intros _. cbv zeta.
  assert (H : forall st, contact_well_formed (candidate_info (manager st)) ->
                contact_well_formed
                  (candidate_info (manager (run_turns order turns st)))).
  { induction turns as [|[u r] turns IH]; intros st Hst; [exact Hst|].
    cbn [run_turns]. apply IH. now apply submit_contact_well_formed. }
  assert (H0 : contact_well_formed (candidate_info (manager init_session))).
  { split; intros x Hx; discriminate. }
  specialize (H init_session H0). destruct H as [He Hp].
  split; [exact He|]. split; [exact Hp|].
  intros msg w Hin Hw.
  apply (@redaction_removes msgs _ w msg Hw); [|exact Hin].
  destruct Hw as [Hw|Hw].
  - apply email_address_redactable. now apply He.
  - apply phone_like_redactable. now apply Hp.
Qed.

Lemma X17_session_contacts_are_redacted_witness :
  phone_like (lit "5551234567").
Proof.
  assert (Ha : forall u r : str,
             In (u, r) [(lit "call me on 5551234567", lit "Thanks.")] ->
             ascii_text u).
  { intros u r [H|[]]. injection H as <- _. reflexivity. }
  destruct (@X17_session_contacts_are_redacted TECH_KEYWORDS
              [(lit "call me on 5551234567", lit "Thanks.")] [] Ha)
    as (_ & Hp & _).
  apply Hp. vm_compute. reflexivity.
Defined.

(** ** Saving a session *)

Lemma save_session_returns_spec (sha256_hex : str -> str) (info : CandidateInfo)
    (msgs : list message) (now_id now_ts : str) :
  save_session_returns info = true
  <-> snd (save_session sha256_hex info msgs now_id now_ts) <> None.
Proof.
  unfold save_session_returns, save_session, _hash. cbv zeta.
  destruct (email info); cbn [snd]; split; congruence.
Qed.

Lemma no_at_no_email (s : str) : ~ In "@"%char s -> re_search EMAIL_RE s = None.
Proof.
  intro Hn. destruct (re_search EMAIL_RE s) as [x|] eqn:Ex; [exfalso | reflexivity].
  unfold re_search in Ex. apply search_from_spec in Ex.
  destruct Ex as (pre & rest & Es & Hm & _).
  apply match_at_sound in Hm. destruct Hm as (Hm & Er & _).
  apply email_matches_inv in Hm.
  rewrite (@consumed_prefix (MState (prev_after None pre) rest [])
             (end_state x) (group0 x) Er) in Hm.
  destruct Hm as (l & d & t & Eg & _).
  apply Hn. rewrite Es, Er, Eg. apply in_or_app. right. apply in_or_app. left.
  apply in_or_app. right. now left.
Qed.

Lemma submit_without_at (order : list str) (u r : str) (st : SessionState) :
  ~ In "@"%char u ->
  email (candidate_info (manager st)) = None ->
  email (candidate_info (manager (submit order u r st))) = None.
Proof.
  intros Hu He. destruct (submit_cases order u r st) as [-> | ->]; [exact He|].
  destruct (process_keeps_fields r u (extract_and_update_info order u (manager st)))
    as (_ & Pe & _).
  cbv zeta in Pe. rewrite Pe, extract_email, He. cbn [truthy].
  rewrite no_at_no_email; [reflexivity|].
  intro H. apply Hu. now apply strip_In.
Qed.

(** X18: [save_session] needs an e-mail address.  It raises (the
    AttributeError of hashing [None]) exactly when the e-mail field is
    [None], and then it has already written the profile file, with the
    whole profile in it, and not the session log; otherwise it writes both
    files and returns the session id.  So a session started from scratch
    in which no input holds an at sign cannot be saved in full. *)
Theorem X18_save_needs_an_email (sha256_hex : str -> str) (order : list str)
    (turns : list (str * str)) (msgs : list message) (now_id now_ts : str) :
  (forall u r, In (u, r) turns -> ~ In "@"%char u) ->
  (forall info,
      let id := _generate_session_id sha256_hex info now_id in
      let profile := (lit "candidate_data/candidates/" ++ id ++ lit ".json",
                      ProfileFile id now_ts info) in
      (email info = None ->
       save_session sha256_hex info msgs now_id now_ts = ([profile], None))
      /\ (forall e, email info = Some e ->
            save_session sha256_hex info msgs now_id now_ts
            = ([profile;
                (lit "candidate_data/sessions/" ++ id ++ lit "_session.json",
                 SessionLogFile id now_ts (sha256_hex e) (tech_stack info)
                                (length msgs) (_sanitise_transcript msgs info))],
               Some id)))
  /\ snd (save_session sha256_hex
            (candidate_info (manager (run_turns order turns init_session)))
            msgs now_id now_ts) = None.
Proof.
  intro Hat. split.
  - intro info. cbv zeta. unfold save_session. cbv zeta. split.
    + intros ->. reflexivity.
    + intros e ->. reflexivity.
  - assert (H : forall st, email (candidate_info (manager st)) = None ->
                  email (candidate_info (manager (run_turns order turns st))) = None).
    { revert Hat. induction turns as [|[u r] turns IH]; intros Hat st Hst; [exact Hst|].
      cbn [run_turns]. apply IH.
      - intros u' r' H'. apply (Hat u' r'). now right.
      - apply submit_without_at; [|exact Hst]. apply (Hat u r). now left. }
    unfold save_session. cbv zeta. rewrite (H init_session eq_refl). reflexivity.
Qed.

Lemma X18_save_needs_an_email_witness :
  snd (save_session (fun seed => seed)
         (candidate_info
            (manager (run_turns TECH_KEYWORDS
                        [(lit "Jane Doe", lit "Nice to meet you, Jane.");
                         (lit "call me on 5551234567", lit "Thanks.")]
                        init_session)))
         [] (lit "2026-01-01T10:00:00") (lit "2026-01-01T10:00:01")) = None.
Proof.
  apply (X18_save_needs_an_email (fun seed => seed) TECH_KEYWORDS
           [(lit "Jane Doe", lit "Nice to meet you, Jane.");
            (lit "call me on 5551234567", lit "Thanks.")]
           [] (lit "2026-01-01T10:00:00") (lit "2026-01-01T10:00:01")).
  intros u r [H|[H|[]]]; injection H as <- _; intro Hin; simpl in Hin;
    intuition discriminate.
Defined.

(** ** The stage directive of the system prompt *)

Lemma missing_fields_eq (i : CandidateInfo) :
  filter (fun f => negb (truthy (info_get f i))) REQUIRED_FIELDS
  = (if truthy (full_name i) then [] else [lit "full_name"])
    ++ (if truthy (email i) then [] else [lit "email"])
    ++ (if truthy (phone i) then [] else [lit "phone"])
    ++ (if truthy (years_experience i) then [] else [lit "years_experience"])
    ++ (if truthy (desired_position i) then [] else [lit "desired_position"])
    ++ (if truthy (location i) then [] else [lit "location"]).
Proof.
  unfold REQUIRED_FIELDS. cbn [filter].
  change (info_get (lit "full_name") i) with (full_name i).
  change (info_get (lit "email") i) with (email i).
  change (info_get (lit "phone") i) with (phone i).
  change (info_get (lit "years_experience") i) with (years_experience i).
  change (info_get (lit "desired_position") i) with (desired_position i).
  change (info_get (lit "location") i) with (location i).
  destruct (truthy (full_name i)), (truthy (email i)), (truthy (phone i)),
    (truthy (years_experience i)), (truthy (desired_position i)),
    (truthy (location i)); reflexivity.
Qed.

Lemma first_missing_eq (i : CandidateInfo) :
  first_missing i
  = hd_error (filter (fun f => negb (truthy (info_get f i))) REQUIRED_FIELDS).
Proof.
  unfold first_missing. induction REQUIRED_FIELDS as [|f l IH]; [reflexivity|].
  cbn [find filter]. destruct (negb (truthy (info_get f i))); [reflexivity|exact IH].
Qed.

Lemma gathering_directive (m : ConversationManager) :
  stage m = lit "gathering_info" ->
  _stage_instructions m
  = match filter (fun f => negb (truthy (info_get f (candidate_info m))))
                 REQUIRED_FIELDS with
    | [] => _stage_instructions (MkManager (lit "gathering_info")
                                   (MkInfo (Some (lit "x")) (Some (lit "x")) (Some (lit "x"))
                                           (Some (lit "x")) (Some (lit "x")) (Some (lit "x")) [])
                                   [] 0 [])
    | next_field :: rest =>
        lit "CURRENT STAGE: Gathering Info" ++ [NL] ++
        lit "You are collecting candidate details. Missing fields: " ++
        repr_list (next_field :: rest) ++ lit "." ++ [NL] ++
        lit "Next action: " ++ field_prompts next_field ++ [NL] ++
        lit "Acknowledge any info they've already provided before asking the next question."
    end.
Proof.
  intro Hs. unfold _stage_instructions. rewrite Hs. stage_tests. cbv iota zeta.
  destruct (filter _ REQUIRED_FIELDS); reflexivity.
Qed.

Lemma filter_negb_nil (A : Type) (p : A -> bool) (l : list A) :
  filter (fun x => negb (p x)) l = [] <-> forallb p l = true.
Proof.
  induction l as [|x l IH]; [simpl; tauto|].
  cbn [filter forallb]. destruct (p x); cbn [negb andb]; [exact IH|].
  split; discriminate.
Qed.

Lemma gathering_headline (m : ConversationManager) :
  stage m = lit "gathering_info" ->
  (headline m = lit "CURRENT STAGE: Gathering Info — COMPLETE"
   <-> all_collected (candidate_info m)).
Proof.
  intro Hs. unfold headline. rewrite (gathering_directive m Hs).
  rewrite <- all_collected_test, <- filter_negb_nil.
  destruct (filter _ REQUIRED_FIELDS) as [|f l].
  - split; [reflexivity|]. intros _. vm_compute. reflexivity.
  - split; [|discriminate]. intro H. vm_compute in H. discriminate.
Qed.

(** X19: in stage gathering_info the directive has a next-action line
    for exactly one field, the first of the six required fields, in their
    fixed order, that is not populated; when all six are populated it has
    none and its headline says that the stage is complete. *)
Theorem X19_directive_asks_first_missing (m : ConversationManager) :
  stage m = lit "gathering_info" ->
  (forall f, In f REQUIRED_FIELDS ->
     (asks_for f (_stage_instructions m) = true
      <-> first_missing (candidate_info m) = Some f))
  /\ (headline m = lit "CURRENT STAGE: Gathering Info — COMPLETE"
      <-> first_missing (candidate_info m) = None)
  /\ (first_missing (candidate_info m) = None <-> all_collected (candidate_info m)).
Proof.
  intro Hs. unfold headline. rewrite (gathering_directive m Hs).
  rewrite first_missing_eq, missing_fields_eq. unfold all_collected.
  destruct (truthy (full_name (candidate_info m))),
    (truthy (email (candidate_info m))), (truthy (phone (candidate_info m))),
    (truthy (years_experience (candidate_info m))),
    (truthy (desired_position (candidate_info m))),
    (truthy (location (candidate_info m)));
    (split; [|split]);
    try (intros f Hf; cbv [REQUIRED_FIELDS In] in Hf;
         repeat (destruct Hf as [<- | Hf]; [vm_compute; split; congruence|]);
         destruct Hf);
    try (vm_compute; split; congruence);
    try (cbn [app hd_error]; intuition congruence).
Qed.

Lemma X19_directive_asks_first_missing_witness :
  asks_for (lit "email")
           (_stage_instructions (manager jane_session)) = true.
Proof.
  apply (proj1 (X19_directive_asks_first_missing (manager jane_session) eq_refl)).
  - right. left. reflexivity.
  - reflexivity.
Defined.

(** ** The prompt and the stage of a turn *)

Lemma gathering_stage_after (ai u : str) (m : ConversationManager) :
  stage m = lit "gathering_info" ->
  stage (process_ai_response ai u m)
  = if forallb (fun f => truthy (info_get f (candidate_info m))) REQUIRED_FIELDS
    then lit "tech_stack" else lit "gathering_info".
Proof.
  intro Hs. rewrite process_ai_response_stage. unfold evaluate_stage.
  rewrite Hs. stage_tests. cbv iota.
  destruct (forallb _ REQUIRED_FIELDS).
  - unfold _advance_stage. rewrite Hs. reflexivity.
  - exact Hs.
Qed.

(** X20: the prompt and the stage machine agree on a turn in stage
    gathering_info.  The completion call of the turn is made with the
    manager as it is after the extraction from the user's message and
    before the stage evaluation; the headline of its directive says that
    the stage is complete exactly when that same turn ends in stage
    tech_stack, and otherwise the stage stays gathering_info. *)
Theorem X20_prompt_agrees_with_stage (order : list str) (u r : str)
    (st : SessionState) :
  exit_requested u = false ->
  stage (manager st) = lit "gathering_info" ->
  let m1 := extract_and_update_info order u (manager st) in
  let st' := snd (handle_user_input order u r st) in
  trace st' = trace st ++ [Completion m1 (messages st) u]
  /\ (headline m1 = lit "CURRENT STAGE: Gathering Info — COMPLETE"
      <-> stage (manager st') = lit "tech_stack")
  /\ (stage (manager st') = lit "tech_stack"
      \/ stage (manager st') = lit "gathering_info").
Proof.
  intros Hx Hs m1 st'.
  assert (Hs1 : stage m1 = lit "gathering_info").
  { subst m1. rewrite extract_stage. exact Hs. }
  assert (Hst : stage (manager st')
                = if forallb (fun f => truthy (info_get f (candidate_info m1)))
                             REQUIRED_FIELDS
                  then lit "tech_stack" else lit "gathering_info").
  { subst st'. unfold handle_user_input. unfold exit_requested in Hx. rewrite Hx.
    cbn [snd manager]. apply gathering_stage_after. exact Hs1. }
  split.
  { subst st'. unfold handle_user_input. unfold exit_requested in Hx. rewrite Hx.
    reflexivity. }
  rewrite Hst, (gathering_headline m1 Hs1), <- all_collected_test.
  destruct (forallb _ REQUIRED_FIELDS); split; auto.
  - split; reflexivity.
  - split; intro H; discriminate H.
Qed.

Lemma X20_prompt_agrees_with_stage_witness :
  stage (manager (snd (handle_user_input TECH_KEYWORDS (lit "I live in Berlin")
                         (lit "Thanks!") (MkSession [] gathering_manager false []))))
  = lit "tech_stack".
Proof.
  apply (proj1 (proj1 (proj2 (X20_prompt_agrees_with_stage TECH_KEYWORDS
                  (lit "I live in Berlin") (lit "Thanks!")
                  (MkSession [] gathering_manager false []) eq_refl eq_refl)))).
  vm_compute. reflexivity.
Defined.

(** ** The directive of stage technical_questions *)

(** Stage, question list and answered count after the stage block, in
    stage technical_questions. *)
Lemma evaluate_stage_questions_stage (ai u : str) (m : ConversationManager) :
  stage m = lit "technical_questions" ->
  let m' := evaluate_stage ai u m in
  stage m' = (if (length (questions m') <=? answered_count m')
                 && nonempty (questions m')
              then lit "closing" else lit "technical_questions").
Proof.
  intros Hs. cbv zeta. unfold evaluate_stage. rewrite Hs. stage_tests.
  cbv iota zeta.
  set (m1 := if negb (nonempty (questions m))
             then set_questions (_parse_questions ai) m else m).
  assert (S1 : stage m1 = lit "technical_questions").
  { subst m1. destruct (negb (nonempty (questions m))); exact Hs. }
  set (m2 := if nonempty (questions m1) && (10 <? len u)
             then set_answered_count
                    (Nat.min (answered_count m1 + 1) (length (questions m1))) m1
             else m1).
  assert (S2 : stage m2 = lit "technical_questions").
  { subst m2. destruct (nonempty (questions m1) && (10 <? len u)); exact S1. }
  destruct ((length (questions m2) <=? answered_count m2) && nonempty (questions m2))
    eqn:E.
  - destruct (advance_stage_info (lit "closing") m2) as (_ & -> & ->).
    rewrite E. unfold _advance_stage. rewrite S2. reflexivity.
  - rewrite E. exact S2.
Qed.

Lemma evaluate_stage_pending (ai u : str) (m : ConversationManager) :
  pending m -> pending (evaluate_stage ai u m).
Proof.
  intro Hp. destruct (str_eqb (stage m) (lit "technical_questions")) eqn:Es.
  - apply str_eqb_eq in Es.
    pose proof (evaluate_stage_questions_stage ai u m Es) as H. cbv zeta in H.
    unfold pending. rewrite H.
    destruct (length (questions (evaluate_stage ai u m))
              <=? answered_count (evaluate_stage ai u m)) eqn:E1;
      [destruct (nonempty (questions (evaluate_stage ai u m))) eqn:E2|];
      cbn [andb].
    + now left.
    + right. left. destruct (questions (evaluate_stage ai u m)); [reflexivity|discriminate].
    + right. right. now apply Nat.leb_gt.
  - apply str_eqb_neq in Es.
    destruct (evaluate_stage_elsewhere ai u m Es) as [Hq Ha].
    destruct Hp as [Hc | Hp].
    + left. unfold evaluate_stage. rewrite Hc. stage_tests. exact Hc.
    + right. rewrite Hq, Ha. exact Hp.
Qed.

Lemma process_pending (ai u : str) (m : ConversationManager) :
  pending m -> pending (process_ai_response ai u m).
Proof.
  intro Hp. apply (evaluate_stage_pending ai u) in Hp. unfold pending in *.
  now rewrite process_ai_response_stage, process_ai_response_questions,
    process_ai_response_answered.
Qed.

Lemma extract_pending (order : list str) (u : str) (m : ConversationManager) :
  pending m -> pending (extract_and_update_info order u m).
Proof. intro Hp. unfold pending. rewrite extract_stage. exact Hp. Qed.

(** What one submission adds to the trace. *)
Lemma submit_calls (order : list str) (u r : str) (st : SessionState) :
  let st' := submit order u r st in
  (manager st' = manager st
   /\ (trace st' = trace st
       \/ exists info ms, trace st' = trace st ++ [SaveSession info ms]))
  \/ (manager st'
      = process_ai_response r u (extract_and_update_info order u (manager st))
      /\ trace st'
         = trace st ++ [Completion (extract_and_update_info order u (manager st))
                                   (messages st ++ [Msg (lit "user") u]) u]).
Proof.
  cbv zeta. unfold submit.
  destruct (conversation_ended st); [left; auto|].
  destruct u as [|c u]; [left; auto|].
  unfold handle_user_input. destruct (existsb _ HANDLER_EXIT_KEYWORDS).
  - left. cbn [manager messages trace].
    destruct (get_farewell_message (manager st));
      [destruct (save_session_returns _)|];
      cbn [manager trace]; split; auto; right; eauto.
  - right. split; reflexivity.
Qed.

Lemma headline_in_questions (m : ConversationManager) :
  stage m = lit "technical_questions" ->
  pending m ->
  (questions m = []
   /\ headline m = lit "CURRENT STAGE: Technical Questions — GENERATE NOW")
  \/ (answered_count m < length (questions m)
      /\ headline m = lit "CURRENT STAGE: Technical Questions — IN PROGRESS").
Proof.
  intros Hs Hp. unfold headline, _stage_instructions. rewrite Hs. stage_tests.
  cbv iota zeta.
  destruct Hp as [Hc | [Hq | Ha]].
  - rewrite Hs in Hc. discriminate.
  - left. rewrite Hq. split; [reflexivity|]. vm_compute. reflexivity.
  - right. split; [exact Ha|].
    destruct (length (questions m) =? 0) eqn:E0; [apply Nat.eqb_eq in E0; lia|].
    destruct (0 <? length (questions m) - answered_count m) eqn:E1;
      [|apply Nat.ltb_ge in E1; lia].
    vm_compute. reflexivity.
Qed.

Lemma headline_not_complete (m : ConversationManager) :
  pending m ->
  headline m <> lit "CURRENT STAGE: Technical Questions — COMPLETE".
Proof.
  intro Hp. destruct (str_eqb (stage m) (lit "technical_questions")) eqn:Es.
  - apply str_eqb_eq in Es.
    destruct (@headline_in_questions m Es Hp) as [[_ ->] | [_ ->]]; discriminate.
  - unfold headline, _stage_instructions. rewrite Es.
    destruct (str_eqb (stage m) (lit "greeting")); [discriminate|].
    destruct (str_eqb (stage m) (lit "gathering_info")).
    { destruct (filter _ REQUIRED_FIELDS); discriminate. }
    destruct (str_eqb (stage m) (lit "tech_stack")); [discriminate|].
    destruct (str_eqb (stage m) (lit "closing")); discriminate.
Qed.

(** X21: the directive of stage technical_questions over a session.  A
    manager is pending when its stage is closing, or it has no question,
    or fewer answers than questions.  From a pending manager every
    sequence of submissions keeps the manager pending, and every completion
    call it adds is made with a pending manager: in stage
    technical_questions its directive is the one that asks for the
    questions when there is none, and the one that reports progress, with
    a question still open, otherwise.  The directive that says that all
    questions are answered is never sent: by then the stage is closing. *)
Theorem X21_complete_directive_never_sent (order : list str)
    (turns : list (str * str)) (st : SessionState) :
  pending (manager st) ->
  let st' := run_turns order turns st in
  pending (manager st')
  /\ forall m h u, In (Completion m h u) (trace st') ->
       In (Completion m h u) (trace st)
       \/ (headline m <> lit "CURRENT STAGE: Technical Questions — COMPLETE"
           /\ (stage m = lit "technical_questions" ->
               (questions m = []
                /\ headline m = lit "CURRENT STAGE: Technical Questions — GENERATE NOW")
               \/ (answered_count m < length (questions m)
                   /\ headline m
                      = lit "CURRENT STAGE: Technical Questions — IN PROGRESS"))).
Proof.
  cbv zeta. revert st. induction turns as [|[u r] turns IH]; intros st Hp.
  - cbn [run_turns]. split; [exact Hp|]. intros m h u0 Hin. now left.
  - cbn [run_turns].
    assert (Hp' : pending (manager (submit order u r st))).
    { destruct (submit_calls order u r st) as [[-> _] | [-> _]]; [exact Hp|].
      apply process_pending, extract_pending, Hp. }
    destruct (IH _ Hp') as [Hend Hcalls]. split; [exact Hend|].
    intros m h u0 Hin. destruct (Hcalls m h u0 Hin) as [Hold | Hnew]; [|now right].
    destruct (submit_calls order u r st) as [[_ [Ht | (i & ms & Ht)]] | [_ Ht]];
      rewrite Ht in Hold.
    + now left.
    + apply in_app_or in Hold. destruct Hold as [Hold | [Hs | []]]; [now left|].
      discriminate.
    + apply in_app_or in Hold. destruct Hold as [Hold | [Hs | []]]; [now left|].
      right. injection Hs as <- _ _.
      pose proof (extract_pending order u Hp) as Hp1.
      split; [now apply headline_not_complete|].
      intro Hs. now apply headline_in_questions.
Qed.

Lemma X21_complete_directive_never_sent_witness :
  pending (manager (run_turns TECH_KEYWORDS
                      [(lit "Closures capture their scope.", lit "Good.")]
                      (MkSession [] answering_manager false []))).
Proof.
  apply (X21_complete_directive_never_sent TECH_KEYWORDS
           [(lit "Closures capture their scope.", lit "Good.")]
           (MkSession [] answering_manager false [])).
  right. right. simpl. lia.
Defined.

(** ** The completion request *)

Lemma copy_messages (l : list message) :
  map (fun x => Msg (role x) (content x)) l = l.
Proof.
  induction l as [|[ro co] l IH]; [reflexivity|]. cbn [map role content].
  now rewrite IH.
Qed.

(** X22: the request of a turn.  On a submission that is no exit, with a
    key set, the client is called once, on the system prompt composed from
    the manager after the extraction from this message, followed by the
    whole message log and then by the user's message twice in a row: once
    as the last entry of the log, where [main] has put it, and once more
    as appended by [get_ai_response].  What the client gives, or the error
    text for what it raises, is logged as the assistant's message. *)
Theorem X22_request_repeats_the_message (order : list str) (api_key : str)
    (create : list message -> completion_result) (u : str) (st : SessionState) :
  conversation_ended st = false ->
  u <> [] ->
  exit_requested u = false ->
  api_key <> [] ->
  let m1 := extract_and_update_info order u (manager st) in
  let request :=
    Msg (lit "system") (get_system_prompt m1)
    :: messages st ++ [Msg (lit "user") u; Msg (lit "user") u] in
  messages (live_turn order api_key create u st)
  = messages st
    ++ [Msg (lit "user") u;
        Msg (lit "assistant")
            (match create request with
             | Content text => text
             | Raised error_msg => error_reply error_msg
             end)].
Proof.
  intros He Hu Hx Hk m1 request. unfold live_turn, submit. rewrite He.
  destruct u as [|c u]; [contradiction|].
  unfold handle_user_input. unfold exit_requested in Hx.
  cbn [messages manager conversation_ended trace]. rewrite Hx.
  cbn [messages]. unfold get_ai_response.
  destruct api_key as [|k key]; [contradiction|].
  unfold completion_messages. rewrite copy_messages.
  subst request m1. cbn [app]. rewrite <- !app_assoc. reflexivity.
Qed.

Lemma X22_request_repeats_the_message_witness :
  messages (live_turn TECH_KEYWORDS (lit "gsk_key") counting_client
                      (lit "Jane Doe") greeted_session)
  = [Msg (lit "assistant") get_greeting;
     Msg (lit "user") (lit "Jane Doe"); Msg (lit "assistant") (lit "4")].
Proof.
  apply (@X22_request_repeats_the_message TECH_KEYWORDS (lit "gsk_key")
           counting_client (lit "Jane Doe") greeted_session
           eq_refl ltac:(discriminate) eq_refl ltac:(discriminate)).
Defined.

(** ** What a turn reads and counts *)

(** X23: the turn on which the questions are generated.  In stage
    technical_questions with no question yet and no answer counted, the
    questions become what is parsed from the reply; the user's message of
    that same turn, written before any question was shown, is counted as
    the first answer when it is longer than ten characters and a question
    was parsed; and the stage becomes closing at once exactly when that
    happens with a single parsed question. *)
Theorem X23_generation_turn_counts_an_answer (ai u : str)
    (m : ConversationManager) :
  stage m = lit "technical_questions" ->
  questions m = [] ->
  answered_count m = 0 ->
  let m' := process_ai_response ai u m in
  questions m' = _parse_questions ai
  /\ answered_count m'
     = (if nonempty (_parse_questions ai) && (10 <? len u) then 1 else 0)
  /\ (stage m' = lit "closing"
      <-> length (_parse_questions ai) = 1 /\ 10 < len u).
Proof.
  intros Hs Hq Ha m'. subst m'.
  rewrite process_ai_response_stage, process_ai_response_questions,
    process_ai_response_answered.
  pose proof (evaluate_stage_questions_stage ai u m Hs) as Hst. cbv zeta in Hst.
  destruct (evaluate_stage_in_questions ai u m Hs) as [Q A].
  rewrite Hq in Q, A. rewrite Ha in A. rewrite Hst, Q, A.
  split; [reflexivity|].
  destruct (_parse_questions ai) as [|q [|q2 qs]]; cbn [nonempty andb length].
  - split; [reflexivity|]. cbn. split; [discriminate|]. intros [H _]. discriminate.
  - destruct (10 <? len u) eqn:E; cbn.
    + split; [reflexivity|]. apply Nat.ltb_lt in E. split; auto.
    + split; [reflexivity|]. apply Nat.ltb_ge in E.
      split; [discriminate|]. intros [_ H]. lia.
  - destruct (10 <? len u) eqn:E; cbn [Nat.min Nat.add].
    + split; [reflexivity|].
      replace (S (S (length qs)) <=? 1) with false
        by (symmetry; apply Nat.leb_gt; lia).
      cbn. split; [discriminate|]. intros [H _]. discriminate.
    + split; [reflexivity|].
      replace (S (S (length qs)) <=? 0) with false
        by (symmetry; apply Nat.leb_gt; lia).
      cbn. split; [discriminate|]. intros [H _]. discriminate.
Qed.

Lemma X23_generation_turn_counts_an_answer_witness :
  stage (process_ai_response (lit "1. What is a closure in Python?")
                             (lit "Yes, please go ahead.") generating_manager)
  = lit "closing".
Proof.
  apply (proj2 (proj2 (X23_generation_turn_counts_an_answer
                  (lit "1. What is a closure in Python?")
                  (lit "Yes, please go ahead.") generating_manager
                  eq_refl eq_refl eq_refl))).
  vm_compute. split; [reflexivity|]. repeat constructor.
Defined.

(** X24: where the reply of the model is read.  The stage evaluation
    depends on the reply only in stage tech_stack, where it looks for a
    transition phrase, and in stage technical_questions while there is no
    question, where it parses the questions; in every other state the
    manager after the call is the same for any two replies. *)
Theorem X24_reply_read_in_two_places (r1 r2 u : str) (m : ConversationManager) :
  stage m <> lit "tech_stack" ->
  (stage m = lit "technical_questions" -> questions m <> []) ->
  process_ai_response r1 u m = process_ai_response r2 u m.
Proof.
  intros Ht Hq.
  assert (E : evaluate_stage r1 u m = evaluate_stage r2 u m).
  { unfold evaluate_stage. apply str_eqb_neq in Ht. rewrite Ht.
    destruct (str_eqb (stage m) (lit "greeting")); [reflexivity|].
    destruct (str_eqb (stage m) (lit "gathering_info")); [reflexivity|].
    destruct (str_eqb (stage m) (lit "technical_questions")) eqn:Es; [|reflexivity].
    apply str_eqb_eq in Es. apply Hq, nonempty_true in Es. rewrite Es.
    reflexivity. }
  unfold process_ai_response. rewrite E. reflexivity.
Qed.

Lemma X24_reply_read_in_two_places_witness :
  process_ai_response (lit "Nice to meet you.") (lit "Jane Doe") init_manager
  = process_ai_response (lit "Rate limit hit.") (lit "Jane Doe") init_manager.
Proof.
  apply (X24_reply_read_in_two_places (lit "Nice to meet you.")
           (lit "Rate limit hit.") (lit "Jane Doe") init_manager).
  - discriminate.
  - discriminate.
Defined.
